(** * RF / antenna toolkit: the computation engine of [rf_antenna_gui_v3.py]

    A shallow embedding of the calculators of [RFAntennaGUI] and the proofs of
    the properties stated about them.

    Numbers.  A Python [float] is modelled as a real number ([R]), a Python
    [int] as [Z]; rounding, overflow, infinities other than the SWR sentinel
    and NaN of binary64 are outside the model.  Operations that raise in
    Python ([/] by zero, [math.log10] and [math.sqrt] outside their domain,
    the explicit [raise ValueError(...)]) return an error in the [Result]
    monad below; every [calculate_*] method catches [Exception] and shows the
    message, so an [Err] result of a calculator is an error reported to the
    caller instead of an output.  Where a statement is about the very value
    that binary64 produces, the code is embedded a second time over the
    binary64 numbers of [PrimFloat] (section "The reflection step in
    binary64"). *)

From Stdlib Require Import Reals Lra Lia ZArith List String Ascii Bool Permutation Sorted.
From Stdlib Require PrimFloat.
Import ListNotations.

Open Scope R_scope.

(* ================================================================= *)
(** ** Exceptions and the error monad *)

Inductive PyError : Type :=
| ValueError (msg : string)      (* raise ValueError("...") in the source *)
| MathDomainError                (* ValueError raised by math.log10 / math.sqrt *)
| ZeroDivisionError              (* float or complex division by zero *)
| KeyError.                      (* d[k] on a missing key *)

Inductive Result (A : Type) : Type :=
| OK (a : A)
| Err (e : PyError).
Arguments OK {A} a.
Arguments Err {A} e.

Definition bind {A B : Type} (m : Result A) (k : A -> Result B) : Result B :=
  match m with
  | OK a => k a
  | Err e => Err e
  end.

Notation "x <- m ;; k" := (bind m (fun x => k))
  (at level 61, m at next level, right associativity).

(* ================================================================= *)
(** ** Python numeric primitives *)

Definition Rleb (x y : R) : bool := if Rle_dec x y then true else false.
Definition Rltb (x y : R) : bool := if Rlt_dec x y then true else false.
Definition Reqb (x y : R) : bool := if Req_dec_T x y then true else false.

(** [a / b] on floats. *)
Definition py_div (a b : R) : Result R :=
  if Reqb b 0 then Err ZeroDivisionError else OK (a / b).

(** [math.log10]. *)
Definition log10 (x : R) : Result R :=
  if Rltb 0 x then OK (ln x / ln 10) else Err MathDomainError.

(** [math.sqrt]. *)
Definition py_sqrt (x : R) : Result R :=
  if Rltb x 0 then Err MathDomainError else OK (sqrt x).

(** [10 ** x] on floats, as the real power.  Python raises OverflowError
    when the result is beyond the binary64 range and returns 0.0 when it is
    below it; both are outside the model, so what is stated about a result
    that depends on [pow10] is stated of the results that are returned. *)
Definition pow10 (x : R) : R := Rpower 10 x.

(** [max(a, b)] and [min(a, b)]: the first argument unless the second is
    strictly greater (smaller). *)
Definition py_max (a b : R) : R := if Rltb a b then b else a.
Definition py_min (a b : R) : R := if Rltb b a then b else a.

(* ================================================================= *)
(** ** Dictionaries

    A [dict] is an association list in insertion order; the dictionaries of
    the source have pairwise distinct keys.  [d.get(k)] is [dict_get],
    [d[k]] is [dict_item] and [d.keys()] is [keys]. *)

Definition dict_get {K V : Type} (eqb : K -> K -> bool)
    (d : list (K * V)) (k : K) : option V :=
  option_map snd (find (fun kv => eqb (fst kv) k) d).

Definition keys {K V : Type} (d : list (K * V)) : list K := map fst d.
Definition values {K V : Type} (d : list (K * V)) : list V := map snd d.

Definition dict_item {V : Type} (d : list (Z * V)) (k : Z) : Result V :=
  match dict_get Z.eqb d k with
  | Some v => OK v
  | None => Err KeyError
  end.

(** [sorted(l)] on a list of integers. *)
Fixpoint insert (x : Z) (l : list Z) : list Z :=
  match l with
  | [] => [x]
  | y :: l' => if (x <=? y)%Z then x :: l else y :: insert x l'
  end.

Definition sorted (l : list Z) : list Z := fold_right insert [] l.

(* ================================================================= *)
(** ** Databases *)

Definition COAX_DB : list (string * list (Z * R)) :=
  [ ("RG-58"%string,   [(50%Z, 1.9); (150%Z, 3.8); (450%Z, 7.0); (900%Z, 10.3); (1500%Z, 13.5)]);
    ("RG-213"%string,  [(50%Z, 0.7); (150%Z, 1.4); (450%Z, 2.6); (900%Z, 3.9); (1500%Z, 5.1)]);
    ("LMR-240"%string, [(50%Z, 0.6); (150%Z, 1.3); (450%Z, 2.7); (900%Z, 4.1); (1500%Z, 5.4)]);
    ("LMR-400"%string, [(50%Z, 0.3); (150%Z, 0.7); (450%Z, 1.5); (900%Z, 2.3); (1500%Z, 3.0)]);
    ("LMR-600"%string, [(50%Z, 0.2); (150%Z, 0.5); (450%Z, 1.1); (900%Z, 1.7); (1500%Z, 2.2)]) ].

(* ================================================================= *)
(** ** RF math *)

Definition fspl (distanceKm freqMhz : R) : Result R :=
  if Rleb distanceKm 0 || Rleb freqMhz 0 then
    Err (ValueError "Distance and frequency must be positive.")
  else
    a <- log10 distanceKm ;;
    b <- log10 freqMhz ;;
    OK (20 * a + 20 * b + 32.44).

Definition wavelengthMeters (freqHz : R) : Result R :=
  let c := 299792458.0 in
  if Rleb freqHz 0 then Err (ValueError "Frequency must be positive.")
  else OK (c / freqHz).

(* ================================================================= *)
(** ** Antenna helpers *)

(** The body of the loop [for i in range(ndir)] of [yagiLengths]. *)
Definition director (lam vf : R) (i : nat) : R :=
  let frac := 0.48 - (0.01 * INR i) in
  let frac := if Rltb frac 0.44 then 0.44 else frac in
  lam * frac * vf.

Definition yagiLengths (lam : R) (elements : Z) (vf : R) : R * R * list R :=
  let reflector := lam * 0.53 * vf in
  let driven := lam * 0.50 * vf in
  let directors :=
    if (3 <=? elements)%Z then
      let ndir := (elements - 2)%Z in
      map (director lam vf) (seq 0 (Z.to_nat ndir))
    else [] in
  (reflector, driven, directors).

(** [sum(l)]: left to right from 0. *)
Definition py_sum (l : list R) : R := fold_left Rplus l 0.

Definition yagiSpacing (lam : R) (elements : Z) : Result (list R * R) :=
  if (elements <? 3)%Z then Err (ValueError "Yagi requires at least 3 elements.")
  else
    let spacings :=
      [0.20 * lam; 0.15 * lam] ++ repeat (0.15 * lam) (Z.to_nat (elements - 3)) in
    OK (spacings, py_sum spacings).

Record YagiResult : Type := mkYagi {
  refl : R; driv : R; dirs : list R; spacings : list R; boomLen : R }.

(** The Yagi-Uda branch of [calculate_antenna]: both helpers, in the order of
    the source. *)
Definition yagi_calc (lam : R) (elements : Z) (vf : R) : Result YagiResult :=
  let '(refl, driv, dirs) := yagiLengths lam elements vf in
  sb <- yagiSpacing lam elements ;;
  OK (mkYagi refl driv dirs (fst sb) (snd sb)).

(* ================================================================= *)
(** ** Coax loss interpolation *)

(** One interpolation between the keys [f1] and [f2]. *)
Definition interpolate (points : list (Z * R)) (f1 f2 : Z) (freq_mhz : R) : Result R :=
  l1 <- dict_item points f1 ;;
  l2 <- dict_item points f2 ;;
  t <- py_div (freq_mhz - IZR f1) (IZR (f2 - f1)) ;;
  OK (l1 + t * (l2 - l1)).

(** The loop [for i in range(len(freqs) - 1)]: [Some r] when an iteration
    returns, [None] when the loop runs to its end. *)
Fixpoint interp_scan (points : list (Z * R)) (freqs : list Z) (freq_mhz : R)
    : option (Result R) :=
  match freqs with
  | f1 :: ((f2 :: _) as rest) =>
      if Rleb (IZR f1) freq_mhz && Rleb freq_mhz (IZR f2)
      then Some (interpolate points f1 f2 freq_mhz)
      else interp_scan points rest freq_mhz
  | _ => None
  end.

(** [coax_loss_db_per_100ft] over a given database. *)
Definition coax_loss_in (db : list (string * list (Z * R)))
    (coax_type : string) (freq_mhz : R) : Result R :=
  match dict_get String.eqb db coax_type with
  | None => OK 0.0
  | Some [] => OK 0.0
  | Some points =>
      let freqs := sorted (keys points) in
      let first := hd 0%Z freqs in
      let final := last freqs 0%Z in
      if Rleb freq_mhz (IZR first) then dict_item points first
      else if Rleb (IZR final) freq_mhz then dict_item points final
      else match interp_scan points freqs freq_mhz with
           | Some r => r
           | None => dict_item points final
           end
  end.

Definition coax_loss_db_per_100ft : string -> R -> Result R := coax_loss_in COAX_DB.

(** Vocabulary of the statements about the interpolator. *)

(** [f1] and [f2] are neighbours, in this order, in the sorted key list:
    the two bracketing keys of every frequency between them. *)
Definition adjacent (f1 f2 : Z) (freqs : list Z) : Prop :=
  exists p q, freqs = p ++ f1 :: f2 :: q.

(** The interpolation formula l1 + (f - f1) / (f2 - f1) * (l2 - l1). *)
Definition lerp (l1 l2 : R) (f1 f2 : Z) (f : R) : R :=
  l1 + (f - IZR f1) / (IZR f2 - IZR f1) * (l2 - l1).

(** The least and the greatest loss value of a table. *)
Definition min_loss (points : list (Z * R)) : R :=
  match values points with
  | [] => 0
  | v :: vs => fold_left Rmin vs v
  end.

Definition max_loss (points : list (Z * R)) : R :=
  match values points with
  | [] => 0
  | v :: vs => fold_left Rmax vs v
  end.

(** A table as the data model requires it: at least one entry, and distinct
    keys as in every [dict]. *)
Definition table_ok (points : list (Z * R)) : Prop :=
  points <> [] /\ NoDup (keys points).

(* ================================================================= *)
(** ** Friis cascade *)

(** A row of the stage table after parsing: [(g_db, nf_db, t_k, use_t)]. *)
Record NoiseStage : Type := mkStage {
  g_db : R; nf_db : R; t_k : R; use_t : bool }.

Definition linear_gain (s : NoiseStage) : R := pow10 (g_db s / 10.0).

Definition noise_factor (s : NoiseStage) : R :=
  if use_t s then 1.0 + t_k s / 290.0 else pow10 (nf_db s / 10.0).

(** The loop [for i in range(1, len(F))]: [Fs] holds [F[i:]] and [Gs] holds
    [G[i-1:]]. *)
Fixpoint friis_loop (Fs Gs : list R) (F_total gain_prod : R) : Result R :=
  match Fs, Gs with
  | Fi :: Fs', Gp :: Gs' =>
      let gain_prod := gain_prod * Gp in
      q <- py_div (Fi - 1.0) gain_prod ;;
      friis_loop Fs' Gs' (F_total + q) gain_prod
  | _, _ => OK F_total
  end.

(** Lines 568-581: the lists [G] and [F] and the accumulation of [F_total]. *)
Definition friis_F_total (stages : list NoiseStage) : Result R :=
  let G := map linear_gain stages in
  let F := map noise_factor stages in
  friis_loop (tl F) G (hd 0 F) 1.0.

Definition _prod (arr : list R) : R := fold_left Rmult arr 1.0.

Record FriisResult : Type := mkFriis {
  G_total_db : R; F_total : R; NF_total_db : R; T_total : R }.

Definition calculate_friis (stages : list NoiseStage) : Result FriisResult :=
  match stages with
  | [] => Err (ValueError "Add at least one stage.")
  | _ =>
      F_total <- friis_F_total stages ;;
      l <- log10 F_total ;;
      let NF_total_db := 10 * l in
      let T_total := (F_total - 1.0) * 290.0 in
      lg <- log10 (_prod (map linear_gain stages)) ;;
      let G_total_db := 10 * lg in
      OK (mkFriis G_total_db F_total NF_total_db T_total)
  end.

(** The cascade formula in the words of the specification:
    F_total = F_1 + sum for i = 2..n of (F_i - 1) / (G_1 * ... * G_(i-1)),
    with 0-based lists [F] and [G]. *)
Definition gain_before (G : list R) (i : nat) : R :=
  fold_right Rmult 1 (firstn i G).

Definition friis_formula (F G : list R) : R :=
  nth 0 F 0
  + fold_right Rplus 0
      (map (fun i => (nth i F 0 - 1) / gain_before G i) (seq 1 (List.length F - 1))).

(** The terms that the loop adds to [F_total] from a given point on, summed
    as in the formula. *)
Definition tail_sum (Fs Gs : list R) (gain_prod : R) : R :=
  fold_right Rplus 0
    (map (fun i => (nth i Fs 0 - 1) / (gain_prod * gain_before Gs (S i)))
         (seq 0 (List.length Fs))).

(* ================================================================= *)
(** ** Fresnel zone *)

Record FresnelInput : Type := mkFresnelInput {
  fr_freq_val : R; fr_freq_unit : string;
  fr_dist_val : R; fr_dist_unit : string;
  fr_point_pct : R; fr_obstacle_h : R }.

Record FresnelResult : Type := mkFresnel {
  fr_f_mhz : R; fr_d_km : R; fr_pct : R; fr_d1 : R; fr_d2 : R;
  fr_lam : R; r1_m : R; obs_m : R; clearance_pct : R }.

Definition calculate_fresnel (i : FresnelInput) : Result FresnelResult :=
  let f_mhz := fr_freq_val i in
  let f_mhz := if String.eqb (fr_freq_unit i) "GHz" then f_mhz * 1000.0 else f_mhz in
  let d_km := fr_dist_val i in
  let d_km := if String.eqb (fr_dist_unit i) "mi" then d_km * 1.609344 else d_km in
  let pct := fr_point_pct i / 100.0 in
  if negb (Rltb 0.0 pct && Rltb pct 1.0) then
    Err (ValueError "Point % must be between 0 and 100 (exclusive).")
  else
    let d1 := d_km * pct in
    let d2 := d_km * (1 - pct) in
    lam <- wavelengthMeters (f_mhz * 1e6) ;;
    let d1_m := d1 * 1000.0 in
    let d2_m := d2 * 1000.0 in
    q <- py_div (lam * d1_m * d2_m) (d1_m + d2_m) ;;
    r1 <- py_sqrt q ;;
    let obs := fr_obstacle_h i in
    clearance_pct <-
      (if Rltb 0 r1 then
         o <- py_div obs r1 ;;
         OK (py_max 0.0 (py_min 100.0 ((1 - o) * 100.0)))
       else OK 0.0) ;;
    OK (mkFresnel f_mhz d_km pct d1 d2 lam r1 obs clearance_pct).

(** Vocabulary of the statements about the Fresnel calculator. *)

(** The frequency in MHz and the distance in km after the unit switches of
    lines 655-661. *)
Definition fresnel_f_mhz (i : FresnelInput) : R :=
  if String.eqb (fr_freq_unit i) "GHz" then fr_freq_val i * 1000 else fr_freq_val i.

Definition fresnel_d_km (i : FresnelInput) : R :=
  if String.eqb (fr_dist_unit i) "mi" then fr_dist_val i * 1.609344 else fr_dist_val i.

(** The first Fresnel radius as the specification writes it. *)
Definition fresnel_r1 (lam d1_m d2_m : R) : R :=
  sqrt (lam * d1_m * d2_m / (d1_m + d2_m)).

Definition clamp (lo hi x : R) : R := Rmax lo (Rmin hi x).

(* ================================================================= *)
(** ** Smith chart / SWR / L-match *)

(** Python's [complex]. *)
Record complex : Type := mkComplex { re : R; im : R }.

(** [z - x] and [z + x] for a complex [z] and a float [x]. *)
Definition c_sub_float (z : complex) (x : R) : complex := mkComplex (re z - x) (im z).
Definition c_add_float (z : complex) (x : R) : complex := mkComplex (re z + x) (im z).

Definition c_mul (a b : complex) : complex :=
  mkComplex (re a * re b - im a * im b) (re a * im b + im a * re b).

(** [a / b]: raises when [b] is [0+0j]; the quotient is the exact one. *)
Definition c_div (a b : complex) : Result complex :=
  if Reqb (re b) 0 && Reqb (im b) 0 then Err ZeroDivisionError
  else
    let d := re b * re b + im b * im b in
    OK (mkComplex ((re a * re b + im a * im b) / d)
                  ((im a * re b - re a * im b) / d)).

(** [abs(z)]. *)
Definition c_abs (z : complex) : R := sqrt (re z * re z + im z * im z).

(** A float that may be [float("inf")]. *)
Inductive ExtFloat : Type :=
| Finite (x : R)
| Infinity.

(** The first line of the text returned by [suggest_l_match]. *)
Inductive CancelNote : Type :=
| CancelPlusJX      (* "Add series capacitor to cancel +jX." *)
| CancelMinusJX     (* "Add series inductor to cancel -jX." *)
| NoCancel.         (* "No reactive cancel needed." *)

(** The text returned by [suggest_l_match], by the branch that builds it and
    the numbers formatted into it. *)
Inductive MatchText : Type :=
| InvalidR                                        (* "Invalid R." *)
| LowPassL (cancel : CancelNote) (Ls Cp Q : R)    (* "Low-pass L: series L=..., shunt C=..." *)
| HighPassL (cancel : CancelNote) (Cs Lp Q : R)   (* "High-pass L: series C=..., shunt L=..." *)
| AlreadyMatched (cancel : CancelNote).           (* "R already matched to Z0." *)

Definition suggest_l_match (R_ X Z0 freq_mhz : R) : Result MatchText :=
  let f := freq_mhz * 1e6 in
  if Rleb R_ 0 then OK InvalidR
  else
    let cancel :=
      if Rltb 1e-6 (Rabs X)
      then (if Rltb 0 X then CancelPlusJX else CancelMinusJX)
      else NoCancel in
    if Rltb R_ Z0 then
      a <- py_div Z0 R_ ;;
      Q <- py_sqrt (a - 1) ;;
      let Xs := Q * R_ in
      Xp <- py_div Z0 Q ;;
      Ls <- py_div Xs (2 * PI * f) ;;
      Cp <- py_div 1 (2 * PI * f * Xp) ;;
      OK (LowPassL cancel Ls Cp Q)
    else if Rltb Z0 R_ then
      a <- py_div R_ Z0 ;;
      Q <- py_sqrt (a - 1) ;;
      let Xs := Q * Z0 in
      Xp <- py_div R_ Q ;;
      Cs <- py_div 1 (2 * PI * f * Xs) ;;
      Lp <- py_div Xp (2 * PI * f) ;;
      OK (HighPassL cancel Cs Lp Q)
    else OK (AlreadyMatched cancel).

(** Lines 855-858 of [calculate_smith]: [gamma], [mag] and [swr]. *)
Definition smith_reflection (R_ X Z0 : R) : Result (complex * R * ExtFloat) :=
  let ZL := mkComplex R_ X in
  gamma <- c_div (c_sub_float ZL Z0) (c_add_float ZL Z0) ;;
  let mag := c_abs gamma in
  swr <- (if Rltb mag 1 then
            q <- py_div (1 + mag) (1 - mag) ;; OK (Finite q)
          else OK Infinity) ;;
  OK (gamma, mag, swr).

Record SmithResult : Type := mkSmith {
  gamma : complex; gamma_mag : R; swr : ExtFloat; match_text : MatchText }.

Definition calculate_smith (R_ X Z0 f_mhz : R) : Result SmithResult :=
  g <- smith_reflection R_ X Z0 ;;
  let '(gamma, mag, swr) := g in
  match_text <- suggest_l_match R_ X Z0 f_mhz ;;
  OK (mkSmith gamma mag swr match_text).

(* ================================================================= *)
(** ** The reflection step in binary64

    Lines 855-858 of [calculate_smith] once more, with Python's [float] as
    the binary64 numbers of [PrimFloat] and [complex] as a pair of them, as
    CPython computes these operations. *)

Record complex64 : Type := mkComplex64 { re64 : PrimFloat.float; im64 : PrimFloat.float }.

(** [z - x] and [z + x] for a complex [z] and a float [x]: the float is
    taken as [complex(x, 0.0)]. *)
Definition c_sub_float64 (z : complex64) (x : PrimFloat.float) : complex64 :=
  mkComplex64 (PrimFloat.sub (re64 z) x) (PrimFloat.sub (im64 z) PrimFloat.zero).

Definition c_add_float64 (z : complex64) (x : PrimFloat.float) : complex64 :=
  mkComplex64 (PrimFloat.add (re64 z) x) (PrimFloat.add (im64 z) PrimFloat.zero).

(** What the step yields: the three values, an exception, or a magnitude
    that binary64 arithmetic alone does not determine. *)
Inductive Outcome64 : Type :=
| Reported (gamma : complex64) (mag swr : PrimFloat.float)
| Raised (e : PyError)
| NotDetermined.

(** [a / b] on [complex]: the quotient scaled by the larger component of
    the divisor; a divisor [0+0j] raises. *)
Definition c_div64 (a b : complex64) : Result complex64 :=
  let abs_breal :=
    if PrimFloat.ltb (re64 b) PrimFloat.zero then PrimFloat.opp (re64 b) else re64 b in
  let abs_bimag :=
    if PrimFloat.ltb (im64 b) PrimFloat.zero then PrimFloat.opp (im64 b) else im64 b in
  if PrimFloat.leb abs_bimag abs_breal then
    if PrimFloat.eqb abs_breal PrimFloat.zero then Err ZeroDivisionError
    else
      let ratio := PrimFloat.div (im64 b) (re64 b) in
      let denom := PrimFloat.add (re64 b) (PrimFloat.mul (im64 b) ratio) in
      OK (mkComplex64
            (PrimFloat.div (PrimFloat.add (re64 a) (PrimFloat.mul (im64 a) ratio)) denom)
            (PrimFloat.div (PrimFloat.sub (im64 a) (PrimFloat.mul (re64 a) ratio)) denom))
  else if PrimFloat.leb abs_breal abs_bimag then
    let ratio := PrimFloat.div (re64 b) (im64 b) in
    let denom := PrimFloat.add (PrimFloat.mul (re64 b) ratio) (im64 b) in
    OK (mkComplex64
          (PrimFloat.div (PrimFloat.add (PrimFloat.mul (re64 a) ratio) (im64 a)) denom)
          (PrimFloat.div (PrimFloat.sub (PrimFloat.mul (im64 a) ratio) (re64 a)) denom))
  else OK (mkComplex64 PrimFloat.nan PrimFloat.nan).

(** [abs(z)] is [hypot(z.real, z.imag)]: when one component is zero it is
    the absolute value of the other; otherwise the result depends on the
    platform's [hypot] and is left open. *)
Definition c_abs64 (z : complex64) : option PrimFloat.float :=
  if PrimFloat.eqb (im64 z) PrimFloat.zero then Some (PrimFloat.abs (re64 z))
  else if PrimFloat.eqb (re64 z) PrimFloat.zero then Some (PrimFloat.abs (im64 z))
  else None.

Definition smith_reflection64 (R_ X Z0 : PrimFloat.float) : Outcome64 :=
  let ZL := mkComplex64 R_ X in
  match c_div64 (c_sub_float64 ZL Z0) (c_add_float64 ZL Z0) with
  | Err e => Raised e
  | OK gamma =>
      match c_abs64 gamma with
      | None => NotDetermined
      | Some mag =>
          if PrimFloat.ltb mag PrimFloat.one then
            let den := PrimFloat.sub PrimFloat.one mag in
            if PrimFloat.eqb den PrimFloat.zero then Raised ZeroDivisionError
            else Reported gamma mag (PrimFloat.div (PrimFloat.add PrimFloat.one mag) den)
          else Reported gamma mag PrimFloat.infinity
      end
  end.

(* ================================================================= *)
(** ** Conversions *)

(** [s.lower()] on ASCII text: a unit text is modelled by its characters
    when all of them are ASCII ([is_ascii_text]); on such a text
    [str.lower] changes the letters A-Z only. *)
Definition lower_ascii (c : ascii) : ascii :=
  let n := nat_of_ascii c in
  if (65 <=? n)%nat && (n <=? 90)%nat then ascii_of_nat (n + 32) else c.

Fixpoint lower (s : string) : string :=
  match s with
  | EmptyString => EmptyString
  | String c s' => String (lower_ascii c) (lower s')
  end.

Definition is_ascii_text (s : string) : bool :=
  forallb (fun c => (nat_of_ascii c <? 128)%nat) (list_ascii_of_string s).

Definition freqToMhz (value : R) (unit : string) : R :=
  let u := lower unit in
  if String.eqb u "hz" then value / 1e6
  else if String.eqb u "khz" || String.eqb u "k" then value / 1e3
  else if String.eqb u "mhz" || String.eqb u "m" then value
  else if String.eqb u "ghz" || String.eqb u "g" then value * 1e3
  else value.

Definition freqToHz (value : R) (unit : string) : R :=
  let u := lower unit in
  if String.eqb u "hz" then value
  else if String.eqb u "khz" || String.eqb u "k" then value * 1e3
  else if String.eqb u "mhz" || String.eqb u "m" then value * 1e6
  else if String.eqb u "ghz" || String.eqb u "g" then value * 1e9
  else value.

Definition distToKm (value : R) (unit : string) : R :=
  let u := lower unit in
  if String.eqb u "km" then value
  else if String.eqb u "m" then value / 1000.0
  else if String.eqb u "mi" then value * 1.609344
  else if String.eqb u "ft" then value / 3280.84
  else value.

Definition powerToDbm (value : R) (unit : string) : Result R :=
  let u := lower unit in
  if String.eqb u "dbm" then OK value
  else if String.eqb u "w" then
    (if Rltb 0 value then l <- log10 (value * 1000.0) ;; OK (10 * l) else OK (-300))
  else if String.eqb u "mw" then
    (if Rltb 0 value then l <- log10 value ;; OK (10 * l) else OK (-300))
  else OK value.

Definition dbmToWatts (dbm : R) : R := pow10 ((dbm - 30) / 10).

(* ================================================================= *)
(** ** More databases *)

Definition CONNECTOR_LOSS_DB : list (string * R) :=
  [ ("None"%string, 0.0);
    ("PL-259/SO-239"%string, 0.15);
    ("N-Type"%string, 0.05);
    ("BNC"%string, 0.10);
    ("SMA"%string, 0.08) ].

Definition COAX_VF_DB : list (string * R) :=
  [ ("RG-58"%string, 0.66);
    ("RG-213"%string, 0.66);
    ("LMR-240"%string, 0.84);
    ("LMR-400"%string, 0.85);
    ("LMR-600"%string, 0.87) ].

Definition MATERIAL_VF : list (string * R) :=
  [ ("Copper"%string, 0.95); ("Aluminum"%string, 0.94);
    ("Steel"%string, 0.90); ("Iron"%string, 0.88) ].

(** [d.get(k, default)]. *)
Definition dict_get_default {V : Type} (d : list (string * V)) (k : string)
    (default : V) : V :=
  match dict_get String.eqb d k with
  | Some v => v
  | None => default
  end.

Definition velocityFactor (material : string) : R :=
  dict_get_default MATERIAL_VF material 0.95.

(* ================================================================= *)
(** ** RF link budget *)

Record RfInput : Type := mkRfInput {
  rf_ptx_val : R; rf_ptx_unit : string;
  rf_gtx : R; rf_grx : R; rf_ltx : R; rf_lrx : R;
  rf_freq_val : R; rf_freq_unit : string;
  rf_dist_val : R; rf_dist_unit : string;
  rf_misc_loss : R; rf_sensitivity_dbm : R }.

Record RfResult : Type := mkRf {
  rf_ptx_dbm : R; rf_freqMhz : R; rf_distanceKm : R; rf_lfs : R;
  rf_prx_dbm : R; rf_prx_watts : R; rf_margin : R; rf_avail : R }.

(** Lines 442-446: the availability estimate from the margin. *)
Definition availability (margin : R) : R :=
  if Rltb margin 0 then 0.0
  else
    let avail := 1 - pow10 (- margin / 10.0) in
    py_max 0.0 (py_min avail 0.99999).

Definition calculate_rf (i : RfInput) : Result RfResult :=
  ptx_dbm <- powerToDbm (rf_ptx_val i) (rf_ptx_unit i) ;;
  let gtx := rf_gtx i in
  let grx := rf_grx i in
  let ltx := rf_ltx i in
  let lrx := rf_lrx i in
  let freqMhz := freqToMhz (rf_freq_val i) (rf_freq_unit i) in
  let distanceKm := distToKm (rf_dist_val i) (rf_dist_unit i) in
  let miscLoss := rf_misc_loss i in
  lfs <- fspl distanceKm freqMhz ;;
  let prx_dbm := ptx_dbm + gtx - ltx - lfs + grx - lrx - miscLoss in
  let prx_watts := dbmToWatts prx_dbm in
  let sens := rf_sensitivity_dbm i in
  let margin := prx_dbm - sens in
  OK (mkRf ptx_dbm freqMhz distanceKm lfs prx_dbm prx_watts margin
           (availability margin)).

(* ================================================================= *)
(** ** Coax and connector loss *)

Record CoaxInput : Type := mkCoaxInput {
  cx_freq_val : R; cx_freq_unit : string;
  cx_len_val : R; cx_len_unit : string;
  cx_type : string; cx_conn_type : string; cx_conn_count : Z }.

Record CoaxResult : Type := mkCoax {
  cx_freq_mhz : R; cx_length_ft : R; cx_loss_100ft : R;
  coax_loss_db : R; connector_loss_db : R; total_loss_db : R; cx_vf : R }.

Definition calculate_coax (i : CoaxInput) : Result CoaxResult :=
  let freq_mhz := cx_freq_val i in
  let freq_mhz :=
    if String.eqb (cx_freq_unit i) "GHz" then freq_mhz * 1000.0 else freq_mhz in
  let length_ft := cx_len_val i in
  let length_ft :=
    if String.eqb (cx_len_unit i) "m" then length_ft * 3.28084 else length_ft in
  let coax := cx_type i in
  loss_100ft <- coax_loss_db_per_100ft coax freq_mhz ;;
  let loss := loss_100ft * (length_ft / 100.0) in
  let conn_type := cx_conn_type i in
  let conn_loss_each := dict_get_default CONNECTOR_LOSS_DB conn_type 0.0 in
  let conn_loss := conn_loss_each * IZR (cx_conn_count i) in
  let total := loss + conn_loss in
  let vf := dict_get_default COAX_VF_DB coax 0.66 in
  OK (mkCoax freq_mhz length_ft loss_100ft loss conn_loss total vf).

(* ================================================================= *)
(** ** Antenna calculator *)

Record AntennaInput : Type := mkAntennaInput {
  ant_freq_val : R; ant_freq_unit : string;
  ant_type : string; ant_material : string; ant_elements : Z }.

(** The lines appended after the adjusted length, by antenna type. *)
Inductive AntennaExtra : Type :=
| RadialLength (rad : R)             (* "Radial Length (4 recommended): ..." *)
| JPoleElements (half quarter : R)   (* "Long element ~ 1/2..." / "Short stub ~ 1/4..." *)
| EndFedRadiator (half : R).         (* "Radiator ~ 1/2...", transformer note *)

Inductive AntennaBody : Type :=
| YagiBody (y : YagiResult)
| SimpleBody (ideal adj : R) (extras : list AntennaExtra).

Record AntennaResult : Type := mkAntenna {
  ant_freqHz : R; ant_lam : R; ant_vf : R; ant_body : AntennaBody }.

Definition mults : list (string * R) :=
  [ ("Quarter-wave ground plane"%string, 0.25);
    ("Half-wave dipole"%string, 0.50);
    ("Five-eighths-wave vertical"%string, 0.625);
    ("Full-wave loop"%string, 1.00);
    ("J-pole (basic)"%string, 0.75);
    ("End-fed half-wave (basic)"%string, 0.50) ].

Definition calculate_antenna (i : AntennaInput) : Result AntennaResult :=
  let freqHz := freqToHz (ant_freq_val i) (ant_freq_unit i) in
  lam <- wavelengthMeters freqHz ;;
  let vf := velocityFactor (ant_material i) in
  if String.eqb (ant_type i) "Yagi-Uda beam" then
    let elements := ant_elements i in
    y <- yagi_calc lam elements vf ;;
    OK (mkAntenna freqHz lam vf (YagiBody y))
  else
    let mult := dict_get_default mults (ant_type i) 0.50 in
    let ideal := lam * mult in
    let adj := ideal * vf in
    let extras :=
      (if String.eqb (ant_type i) "Quarter-wave ground plane"
       then [RadialLength (lam * 0.25 * vf)] else [])
      ++ (if String.eqb (ant_type i) "J-pole (basic)"
          then [JPoleElements (lam * 0.5 * vf) (lam * 0.25 * vf)] else [])
      ++ (if String.eqb (ant_type i) "End-fed half-wave (basic)"
          then [EndFedRadiator (lam * 0.5 * vf)] else []) in
    OK (mkAntenna freqHz lam vf (SimpleBody ideal adj extras)).

(* ================================================================= *)
(** ** Radiation patterns *)

(** [b ** e] on floats for a base [b >= 0] and an exponent [e > 0], the only
    uses in [plot_pattern]. *)
Definition py_pow (b e : R) : R := if Reqb b 0 then 0 else Rpower b e.

(** The angles [t] and the radius [r] of one angle in [plot_pattern]. *)
Definition pattern_angles : list R :=
  map (fun i => INR i * 2 * PI / 720) (seq 0 721).

Definition pattern_radius (typ : string) (th : R) : R :=
  if String.eqb typ "Half-wave dipole" then Rabs (sin th)
  else if String.eqb typ "Quarter-wave vertical" then py_pow (Rabs (sin th)) 0.7
  else
    let forward := py_pow (py_max 0.0 (cos th)) 3 in
    let back := py_pow (py_max 0.0 (cos (th + PI))) 1.5 * 0.3 in
    forward + back.

Definition pattern_radii (typ : string) : list R :=
  map (pattern_radius typ) pattern_angles.

(* ================================================================= *)
(** ** The stage table of the Friis tab *)

(** The values of one row of [friis_tree]: the stage number of column 0 and
    the four columns that [calculate_friis] reads. *)
Record StageRow : Type := mkRow { row_number : Z; row_stage : NoiseStage }.

(** The state of the tab: the rows of the Treeview in display order, each
    with its item id, the id the widget gives to the next inserted item,
    and the four entry variables. *)
Record FriisTab : Type := mkFriisTab {
  friis_tree : list (nat * StageRow);
  next_item : nat;
  stage_gain : R; stage_nf : R; stage_temp : R; stage_use_temp : bool }.

Definition add_friis_stage (tab : FriisTab) : FriisTab :=
  let idx := (Z.of_nat (List.length (friis_tree tab)) + 1)%Z in
  mkFriisTab
    (friis_tree tab
     ++ [(next_item tab,
          mkRow idx (mkStage (stage_gain tab) (stage_nf tab) (stage_temp tab)
                             (stage_use_temp tab)))])
    (S (next_item tab))
    (stage_gain tab) (stage_nf tab) (stage_temp tab) (stage_use_temp tab).

(** [for i, item in enumerate(children, i0)]: column 0 becomes [i]. *)
Fixpoint renumber (i : Z) (tree : list (nat * StageRow)) : list (nat * StageRow) :=
  match tree with
  | [] => []
  | (item, row) :: rest => (item, mkRow i (row_stage row)) :: renumber (i + 1) rest
  end.

(** [sel] is [self.friis_tree.selection()]. *)
Definition remove_friis_stage (sel : list nat) (tab : FriisTab) : FriisTab :=
  let kept :=
    filter (fun it => negb (existsb (Nat.eqb (fst it)) sel)) (friis_tree tab) in
  mkFriisTab (renumber 1 kept) (next_item tab)
    (stage_gain tab) (stage_nf tab) (stage_temp tab) (stage_use_temp tab).

Definition clear_friis_stages (tab : FriisTab) : FriisTab :=
  mkFriisTab [] (next_item tab)
    (stage_gain tab) (stage_nf tab) (stage_temp tab) (stage_use_temp tab).

(** Lines 556-563 of [calculate_friis]: the stages read from the rows. *)
Definition friis_stages (tab : FriisTab) : list NoiseStage :=
  map (fun it => row_stage (snd it)) (friis_tree tab).

(** The stage numbers shown in column 0. *)
Definition stage_numbers (tab : FriisTab) : list Z :=
  map (fun it => row_number (snd it)) (friis_tree tab).

(* ================================================================= *)
(** ** Vocabulary of the further statements *)

(** The rows are numbered 1, 2, ..., n from the top. *)
Definition well_numbered (tab : FriisTab) : Prop :=
  stage_numbers tab
  = map (fun k => (1 + Z.of_nat k)%Z) (seq 0 (List.length (friis_tree tab))).

(** The units that [freqToMhz] and [freqToHz] recognise, after lowering. *)
Definition freq_units : list string :=
  ["hz"; "khz"; "k"; "mhz"; "m"; "ghz"; "g"]%string.

(** The loss values of a table do not decrease with the frequency keys. *)
Definition table_increasing (points : list (Z * R)) : Prop :=
  forall k k' l l',
    dict_get Z.eqb points k = Some l ->
    dict_get Z.eqb points k' = Some l' ->
    (k <= k')%Z -> l <= l'.

(** The sum of the stage gains in dB. *)
Definition total_gain_db (stages : list NoiseStage) : R :=
  fold_right (fun s acc => g_db s + acc) 0 stages.

(** A stage whose noise input is physical: a noise temperature of at least
    0 K when the temperature is used, a noise figure of at least 0 dB
    otherwise. *)
Definition physical_stage (s : NoiseStage) : Prop :=
  if use_t s then 0 <= t_k s else 0 <= nf_db s.

(** The same path with the query point moved to [pct] percent. *)
Definition at_point (i : FresnelInput) (pct : R) : FresnelInput :=
  mkFresnelInput (fr_freq_val i) (fr_freq_unit i) (fr_dist_val i) (fr_dist_unit i)
                 pct (fr_obstacle_h i).

(** The SWR of line 858 as a function of the magnitude; the division is
    defined whenever it is evaluated. *)
Definition swr_of (mag : R) : ExtFloat :=
  if Rltb mag 1 then Finite ((1 + mag) / (1 - mag)) else Infinity.

(* ================================================================= *)
(** ** Basic facts on the primitives *)

Lemma Rleb_true x y : x <= y -> Rleb x y = true.
Proof. intros H; unfold Rleb; destruct (Rle_dec x y); [reflexivity | contradiction]. Qed.

Lemma Rleb_false x y : y < x -> Rleb x y = false.
Proof. intros H; unfold Rleb; destruct (Rle_dec x y); [lra | reflexivity]. Qed.

Lemma Rltb_true x y : x < y -> Rltb x y = true.
Proof. intros H; unfold Rltb; destruct (Rlt_dec x y); [reflexivity | contradiction]. Qed.

Lemma Rltb_false x y : y <= x -> Rltb x y = false.
Proof. intros H; unfold Rltb; destruct (Rlt_dec x y); [lra | reflexivity]. Qed.

Lemma Reqb_true x y : x = y -> Reqb x y = true.
Proof. intros H; unfold Reqb; destruct (Req_dec_T x y); [reflexivity | contradiction]. Qed.

Lemma Reqb_false x y : x <> y -> Reqb x y = false.
Proof. intros H; unfold Reqb; destruct (Req_dec_T x y); [contradiction | reflexivity]. Qed.

Lemma py_div_ok a b : b <> 0 -> py_div a b = OK (a / b).
Proof. intros H; unfold py_div; now rewrite Reqb_false. Qed.

Lemma py_div_zero a : py_div a 0 = Err ZeroDivisionError.
Proof. unfold py_div; now rewrite Reqb_true. Qed.

Lemma log10_ok x : 0 < x -> log10 x = OK (ln x / ln 10).
Proof. intros H; unfold log10; now rewrite Rltb_true. Qed.

Lemma log10_err x : x <= 0 -> log10 x = Err MathDomainError.
Proof. intros H; unfold log10; now rewrite Rltb_false. Qed.

Lemma py_sqrt_ok x : 0 <= x -> py_sqrt x = OK (sqrt x).
Proof. intros H; unfold py_sqrt; now rewrite Rltb_false. Qed.

(* ================================================================= *)
(** ** Free-space path loss *)

(** C4. For distance > 0 and frequency > 0, [fspl] returns
    20 log10(d) + 20 log10(f) + 32.44, so [fspl 1 1] is 32.44; when the
    distance or the frequency is <= 0 it fails with the [ValueError] whose
    message says that distance and frequency must be positive. *)
Theorem fspl_spec :
  (forall d f, 0 < d -> 0 < f ->
     fspl d f = OK (20 * (ln d / ln 10) + 20 * (ln f / ln 10) + 32.44))
  /\ fspl 1 1 = OK 32.44
  /\ (forall d f, d <= 0 \/ f <= 0 ->
        fspl d f = Err (ValueError "Distance and frequency must be positive.")).
Proof.
  assert (Hpos : forall d f, 0 < d -> 0 < f ->
     fspl d f = OK (20 * (ln d / ln 10) + 20 * (ln f / ln 10) + 32.44)).
  { intros d f Hd Hf. unfold fspl.
    rewrite (Rleb_false d 0 Hd), (Rleb_false f 0 Hf). cbn.
    rewrite (log10_ok d Hd), (log10_ok f Hf). reflexivity. }
  split; [exact Hpos|]. split.
  - rewrite Hpos by lra. rewrite ln_1. f_equal. unfold Rdiv. lra.
  - intros d f [Hd | Hf]; unfold fspl.
    + now rewrite (Rleb_true d 0 Hd).
    + rewrite (Rleb_true f 0 Hf). now rewrite orb_true_r.
Qed.

Lemma fspl_spec_witness :
  fspl 10 433 = OK (20 * (ln 10 / ln 10) + 20 * (ln 433 / ln 10) + 32.44)
  /\ fspl 0 433 = Err (ValueError "Distance and frequency must be positive.").
Proof.
  split.
  - apply (proj1 fspl_spec); lra.
  - apply (proj2 (proj2 fspl_spec)); left; lra.
Defined.

(* ================================================================= *)
(** ** Yagi-Uda geometry *)

Lemma director_0 lam vf : director lam vf 0 = 0.48 * lam * vf.
Proof.
  unfold director. cbn [INR].
  rewrite Rltb_false by lra. lra.
Qed.

Lemma yagiSpacing_small lam elements :
  (elements < 3)%Z ->
  yagiSpacing lam elements = Err (ValueError "Yagi requires at least 3 elements.").
Proof.
  intros H. unfold yagiSpacing.
  now rewrite (proj2 (Z.ltb_lt elements 3) H).
Qed.

(** C8. With 3 elements the director list is the single length
    0.48 * lam * vf (the 0.44 floor does not apply) and the boom length is
    0.20 * lam + 0.15 * lam = 0.35 * lam, for every wavelength (in
    particular every positive one) and velocity factor; with fewer than 3
    elements the Yagi calculation fails with the [ValueError] of
    [yagiSpacing]. *)
Theorem yagi_three_elements (lam vf : R) :
  yagiLengths lam 3 vf = (lam * 0.53 * vf, lam * 0.50 * vf, [0.48 * lam * vf])
  /\ yagiSpacing lam 3 = OK ([0.20 * lam; 0.15 * lam], 0.20 * lam + 0.15 * lam)
  /\ 0.20 * lam + 0.15 * lam = 0.35 * lam
  /\ yagi_calc lam 3 vf
     = OK (mkYagi (lam * 0.53 * vf) (lam * 0.50 * vf) [0.48 * lam * vf]
                  [0.20 * lam; 0.15 * lam] (0.35 * lam))
  /\ (forall elements, (elements < 3)%Z ->
        yagi_calc lam elements vf
        = Err (ValueError "Yagi requires at least 3 elements.")).
Proof.
  assert (HL : yagiLengths lam 3 vf
               = (lam * 0.53 * vf, lam * 0.50 * vf, [0.48 * lam * vf])).
  { unfold yagiLengths. change (3 <=? 3)%Z with true.
    change (Z.to_nat (3 - 2)) with 1%nat. cbn [seq map].
    now rewrite director_0. }
  assert (HS : yagiSpacing lam 3
               = OK ([0.20 * lam; 0.15 * lam], 0.20 * lam + 0.15 * lam)).
  { unfold yagiSpacing. cbn. unfold py_sum. cbn. do 2 f_equal. lra. }
  repeat split; try assumption.
  - lra.
  - unfold yagi_calc. rewrite HL, HS. cbn. do 2 f_equal. lra.
  - intros elements H. unfold yagi_calc.
    destruct (yagiLengths lam elements vf) as [[r d] ds].
    now rewrite (yagiSpacing_small lam elements H).
Qed.

Lemma yagi_three_elements_witness :
  yagi_calc 2 2 0.95 = Err (ValueError "Yagi requires at least 3 elements.").
Proof.
  apply (proj2 (proj2 (proj2 (proj2 (yagi_three_elements 2 0.95))))). lia.
Defined.

(* ================================================================= *)
(** ** Sorting and dictionaries *)

Lemma insert_perm x l : Permutation (insert x l) (x :: l).
Proof.
  induction l as [|y l IH]; cbn.
  - reflexivity.
  - destruct (x <=? y)%Z.
    + reflexivity.
    + rewrite IH. apply perm_swap.
Qed.

Lemma sorted_perm l : Permutation (sorted l) l.
Proof.
  induction l as [|x l IH]; cbn.
  - constructor.
  - rewrite insert_perm. now constructor.
Qed.

Lemma insert_le_sorted x l :
  StronglySorted Z.le l -> StronglySorted Z.le (insert x l).
Proof.
  induction 1 as [|y l Hs IH Hall]; cbn.
  - repeat constructor.
  - destruct (x <=? y)%Z eqn:E.
    + apply Z.leb_le in E. constructor.
      * now constructor.
      * constructor; [exact E|].
        eapply Forall_impl; [|exact Hall]. intros; cbn in *; lia.
    + apply Z.leb_gt in E. constructor; [exact IH|].
      eapply Permutation_Forall; [symmetry; apply insert_perm|].
      constructor; [lia | exact Hall].
Qed.

Lemma sorted_le_sorted l : StronglySorted Z.le (sorted l).
Proof.
  induction l as [|x l IH]; cbn.
  - constructor.
  - now apply insert_le_sorted.
Qed.

Lemma le_sorted_NoDup_lt l :
  StronglySorted Z.le l -> NoDup l -> StronglySorted Z.lt l.
Proof.
  induction 1 as [|y l Hs IH Hall]; intros Hnd.
  - constructor.
  - inversion Hnd as [|? ? Hnotin Hnd']; subst.
    constructor; [now apply IH|].
    rewrite Forall_forall in *. intros k Hk.
    specialize (Hall k Hk).
    assert (k <> y) by (intros ->; contradiction). lia.
Qed.

Lemma sorted_ascending l : NoDup l -> StronglySorted Z.lt (sorted l).
Proof.
  intros Hnd. apply le_sorted_NoDup_lt.
  - apply sorted_le_sorted.
  - eapply Permutation_NoDup; [symmetry; apply sorted_perm | exact Hnd].
Qed.

Lemma last_cons_in (a : Z) l d : In (last (a :: l) d) (a :: l).
Proof.
  revert a. induction l as [|b l IH]; intros a.
  - now left.
  - right. apply (IH b).
Qed.

Lemma ascending_bounds a l d :
  StronglySorted Z.lt (a :: l) ->
  forall k, In k (a :: l) -> (a <= k <= last (a :: l) d)%Z.
Proof.
  revert a. induction l as [|b l IH]; intros a Hs k Hk.
  - destruct Hk as [<- | []]. cbn. lia.
  - inversion Hs as [|? ? Hs' Hall]; subst.
    rewrite Forall_forall in Hall.
    change (last (a :: b :: l) d) with (last (b :: l) d).
    assert (Hb : (a < b)%Z) by (apply Hall; now left).
    destruct Hk as [<- | Hk].
    + pose proof (IH b Hs' b (or_introl eq_refl)). lia.
    + pose proof (IH b Hs' k Hk). lia.
Qed.

Lemma dict_get_in {V : Type} (d : list (Z * V)) k :
  In k (keys d) -> exists v, dict_get Z.eqb d k = Some v /\ In v (values d).
Proof.
  unfold dict_get, keys, values.
  induction d as [|[k' v'] d IH]; cbn; intros Hin.
  - contradiction.
  - destruct (Z.eqb k' k) eqn:E.
    + exists v'. cbn. auto.
    + apply Z.eqb_neq in E. destruct Hin as [-> | Hin]; [contradiction|].
      destruct (IH Hin) as (v & Hv & Hvin). exists v. auto.
Qed.

Lemma dict_get_value {V : Type} (d : list (Z * V)) k v :
  dict_get Z.eqb d k = Some v -> In v (values d).
Proof.
  unfold dict_get, values.
  induction d as [|[k' v'] d IH]; cbn; intros H.
  - discriminate.
  - destruct (Z.eqb k' k); cbn in H.
    + injection H as <-. now left.
    + right. now apply IH.
Qed.

Lemma dict_item_ok {V : Type} (d : list (Z * V)) k v :
  dict_get Z.eqb d k = Some v -> dict_item d k = OK v.
Proof. intros H. unfold dict_item. now rewrite H. Qed.

(* ================================================================= *)
(** ** Coax loss interpolation *)

Lemma adjacent_cons_inv f1 f2 a l :
  adjacent f1 f2 (a :: l) ->
  (exists q, a = f1 /\ l = f2 :: q) \/ adjacent f1 f2 l.
Proof.
  intros (p & q & E). destruct p as [|x p]; cbn in E.
  - injection E as -> ->. left. now exists q.
  - injection E as -> ->. right. now exists p, q.
Qed.

Lemma adjacent_in f1 f2 l : adjacent f1 f2 l -> In f1 l /\ In f2 l.
Proof.
  intros (p & q & ->). split; apply in_or_app; right; cbn; auto.
Qed.

Lemma adjacent_lt f1 f2 l :
  StronglySorted Z.lt l -> adjacent f1 f2 l -> (f1 < f2)%Z.
Proof.
  induction 1 as [|a l Hs IH Hall]; intros Hadj.
  - destruct Hadj as (p & q & E). destruct p; discriminate.
  - apply adjacent_cons_inv in Hadj as [(q & -> & ->) | Hadj].
    + rewrite Forall_forall in Hall. apply Hall. now left.
    + now apply IH.
Qed.

Lemma interpolate_ok points f1 f2 l1 l2 f :
  dict_get Z.eqb points f1 = Some l1 ->
  dict_get Z.eqb points f2 = Some l2 ->
  (f1 < f2)%Z ->
  interpolate points f1 f2 f = OK (lerp l1 l2 f1 f2 f).
Proof.
  intros H1 H2 Hlt. unfold interpolate, lerp.
  rewrite (dict_item_ok _ _ _ H1), (dict_item_ok _ _ _ H2). cbn.
  rewrite py_div_ok.
  - cbn. now rewrite minus_IZR.
  - rewrite minus_IZR. apply IZR_lt in Hlt. lra.
Qed.

Lemma lerp_left l1 l2 f1 f2 : lerp l1 l2 f1 f2 (IZR f1) = l1.
Proof. unfold lerp. unfold Rdiv. lra. Qed.

Lemma lerp_right l1 l2 f1 f2 : (f1 < f2)%Z -> lerp l1 l2 f1 f2 (IZR f2) = l2.
Proof. intros H. apply IZR_lt in H. unfold lerp. field. lra. Qed.

Lemma lerp_between l1 l2 f1 f2 f :
  (f1 < f2)%Z -> IZR f1 <= f <= IZR f2 ->
  Rmin l1 l2 <= lerp l1 l2 f1 f2 f <= Rmax l1 l2.
Proof.
  intros H Hf. apply IZR_lt in H. unfold lerp.
  set (t := (f - IZR f1) / (IZR f2 - IZR f1)).
  assert (Ht : 0 <= t <= 1).
  { unfold t. split.
    - apply Rmult_le_pos; [lra|]. left. apply Rinv_0_lt_compat. lra.
    - apply Rmult_le_reg_r with (IZR f2 - IZR f1); [lra|].
      unfold Rdiv. rewrite Rmult_assoc, Rinv_l by lra. lra. }
  unfold Rmin, Rmax. destruct (Rle_dec l1 l2); nra.
Qed.

Lemma scan_adjacent points freqs f f1 f2 l1 l2 :
  StronglySorted Z.lt freqs ->
  (forall k, In k freqs -> exists l, dict_get Z.eqb points k = Some l) ->
  adjacent f1 f2 freqs ->
  IZR f1 <= f <= IZR f2 ->
  dict_get Z.eqb points f1 = Some l1 ->
  dict_get Z.eqb points f2 = Some l2 ->
  interp_scan points freqs f = Some (OK (lerp l1 l2 f1 f2 f)).
Proof.
  intros Hs. revert f1 f2 l1 l2.
  induction Hs as [|a l Hs IH Hall]; intros f1 f2 l1 l2 Hdom Hadj Hf H1 H2.
  - destruct Hadj as (p & q & E). destruct p; discriminate.
  - assert (Hlt12 : (f1 < f2)%Z).
    { eapply adjacent_lt; [constructor; eassumption | exact Hadj]. }
    destruct l as [|b l'].
    + destruct Hadj as (p & q & E). destruct p as [|? [|? ?]]; discriminate.
    + cbn [interp_scan].
      rewrite Forall_forall in Hall.
      assert (Hab : (a < b)%Z) by (apply Hall; now left).
      destruct (Rleb (IZR a) f && Rleb f (IZR b)) eqn:E.
      * apply andb_prop in E as [Ea Eb].
        unfold Rleb in Ea, Eb.
        destruct (Rle_dec (IZR a) f) as [Haf|]; [|discriminate].
        destruct (Rle_dec f (IZR b)) as [Hfb|]; [|discriminate].
        destruct (Hdom a (or_introl eq_refl)) as (la & Hla).
        destruct (Hdom b (or_intror (or_introl eq_refl))) as (lb & Hlb).
        rewrite (interpolate_ok _ _ _ _ _ _ Hla Hlb Hab).
        apply adjacent_cons_inv in Hadj as [(q & <- & Eq) | Hadj].
        -- injection Eq as <- _. congruence.
        -- (* the scan stopped one pair early: [f] is the shared key *)
           destruct (adjacent_in _ _ _ Hadj) as [Hin1 _].
           pose proof (ascending_bounds b l' 0%Z Hs f1 Hin1) as [Hbf1 _].
           apply IZR_le in Hbf1.
           assert (Efb : f = IZR b) by lra.
           assert (Ebf1 : b = f1) by (apply eq_IZR; lra).
           subst f1 f. rewrite lerp_right by exact Hab.
           rewrite lerp_left. congruence.
      * apply adjacent_cons_inv in Hadj as [(q & <- & Eq) | Hadj].
        -- injection Eq as <- _.
           rewrite (Rleb_true _ _ (proj1 Hf)), (Rleb_true _ _ (proj2 Hf)) in E.
           discriminate.
        -- apply IH; auto. intros k Hk. apply Hdom. now right.
Qed.

Lemma scan_bracket a l f :
  IZR a <= f <= IZR (last (a :: l) 0%Z) ->
  l <> [] ->
  exists f1 f2, adjacent f1 f2 (a :: l) /\ IZR f1 <= f <= IZR f2.
Proof.
  revert a. induction l as [|b l IH]; intros a Hf Hne.
  - contradiction.
  - change (last (a :: b :: l) 0%Z) with (last (b :: l) 0%Z) in Hf.
    destruct (Rle_dec f (IZR b)) as [Hfb | Hfb].
    + exists a, b. split; [now exists [], l | lra].
    + destruct l as [|c l'].
      * cbn in Hf. lra.
      * destruct (IH b) as (f1 & f2 & (p & q & E) & Hb); [lra | discriminate |].
        exists f1, f2. split; [|exact Hb].
        exists (a :: p), q. cbn. now rewrite E.
Qed.

(** What [coax_loss_in] computes on a known type whose table is not empty. *)
Lemma coax_loss_table db coax_type points f :
  dict_get String.eqb db coax_type = Some points ->
  points <> [] ->
  NoDup (keys points) ->
  exists fmin fmax lmin lmax,
    hd_error (sorted (keys points)) = Some fmin
    /\ last (sorted (keys points)) 0%Z = fmax
    /\ (In fmin (keys points) /\ In fmax (keys points)
        /\ forall k, In k (keys points) -> (fmin <= k <= fmax)%Z)
    /\ dict_get Z.eqb points fmin = Some lmin
    /\ dict_get Z.eqb points fmax = Some lmax
    /\ (f <= IZR fmin -> coax_loss_in db coax_type f = OK lmin)
    /\ (IZR fmax <= f -> coax_loss_in db coax_type f = OK lmax)
    /\ (IZR fmin < f < IZR fmax ->
        (exists f1 f2, adjacent f1 f2 (sorted (keys points))
                       /\ IZR f1 <= f <= IZR f2)
        /\ (forall f1 f2 l1 l2,
              adjacent f1 f2 (sorted (keys points)) ->
              IZR f1 <= f <= IZR f2 ->
              dict_get Z.eqb points f1 = Some l1 ->
              dict_get Z.eqb points f2 = Some l2 ->
              coax_loss_in db coax_type f = OK (lerp l1 l2 f1 f2 f))).
Proof.
  intros Hget Hne Hnd.
  pose proof (sorted_perm (keys points)) as Hperm.
  pose proof (sorted_ascending _ Hnd) as Hasc.
  assert (Hdom : forall k, In k (sorted (keys points)) ->
                           exists l, dict_get Z.eqb points k = Some l).
  { intros k Hk. destruct (dict_get_in points k) as (v & Hv & _).
    - eapply Permutation_in; eassumption.
    - now exists v. }
  unfold coax_loss_in. rewrite Hget.
  destruct points as [|p ps]; [contradiction|].
  set (pts := p :: ps) in *.
  destruct (sorted (keys pts)) as [|a l] eqn:Es.
  { apply Permutation_nil in Hperm. discriminate. }
  set (fmax := last (a :: l) 0%Z).
  destruct (Hdom a (or_introl eq_refl)) as (lmin & Hlmin).
  destruct (Hdom fmax (last_cons_in a l 0%Z)) as (lmax & Hlmax).
  pose proof (ascending_bounds a l 0%Z Hasc) as Hb.
  assert (Hamax : (a <= fmax)%Z) by (apply (Hb a); now left).
  exists a, fmax, lmin, lmax.
  cbn [hd_error hd].
  repeat match goal with |- _ /\ _ => split end; try reflexivity; try assumption.
  - eapply Permutation_in; [exact Hperm | now left].
  - eapply Permutation_in; [exact Hperm | apply last_cons_in].
  - intros k Hk. apply Hb. eapply Permutation_in; [symmetry; exact Hperm | exact Hk].
  - intros Hf. rewrite (Rleb_true _ _ Hf). now apply dict_item_ok.
  - intros Hf. destruct (Rle_dec f (IZR a)) as [Hfa | Hfa].
    + (* both guards hold: the table has a single key *)
      apply IZR_le in Hamax.
      assert (E : a = fmax) by (apply eq_IZR; lra).
      rewrite (Rleb_true _ _ Hfa). fold fmax in Hlmax.
      rewrite <- E in Hlmax. rewrite (dict_item_ok _ _ _ Hlmin). congruence.
    + rewrite (Rleb_false f (IZR a)) by lra.
      fold fmax. rewrite (Rleb_true _ _ Hf). now apply dict_item_ok.
  - intros Hf. split.
    + apply scan_bracket; [fold fmax; lra|].
      intros ->. cbn in fmax. subst fmax. lra.
    + intros f1 f2 l1 l2 Hadj Hbr H1 H2.
      rewrite (Rleb_false f (IZR a)) by lra.
      fold fmax. rewrite (Rleb_false (IZR fmax) f) by lra.
      now rewrite (scan_adjacent pts (a :: l) f f1 f2 l1 l2).
Qed.

Lemma COAX_DB_tables_ok coax_type points :
  dict_get String.eqb COAX_DB coax_type = Some points -> table_ok points.
Proof.
  unfold COAX_DB, dict_get. cbn [find fst].
  repeat (destruct (String.eqb _ coax_type);
          [ cbn [option_map snd]; intros H; injection H as <-; split;
            [ discriminate
            | cbn [keys map fst];
              repeat (constructor; [cbn [In]; intuition discriminate|]);
              constructor ]
          | ]).
  discriminate.
Qed.

Lemma coax_loss_single db coax_type k l f :
  dict_get String.eqb db coax_type = Some [(k, l)] ->
  coax_loss_in db coax_type f = OK l.
Proof.
  intros H. unfold coax_loss_in. rewrite H. cbn [keys map fst sorted fold_right insert hd last].
  assert (Hk : dict_item [(k, l)] k = OK l).
  { apply dict_item_ok. unfold dict_get. cbn. now rewrite Z.eqb_refl. }
  destruct (Rle_dec f (IZR k)) as [Hf | Hf].
  - now rewrite (Rleb_true _ _ Hf).
  - rewrite (Rleb_false f (IZR k)) by lra.
    now rewrite (Rleb_true (IZR k) f) by lra.
Qed.

(** C3. [coax_loss_db_per_100ft], over any database [db] (the source's
    [COAX_DB] is one whose tables are all well formed): an unknown type
    gives 0.0; on a known type with a well-formed table, with the keys
    sorted ascending, a frequency at or below the minimum key gives the
    minimum key's loss, a frequency at or above the maximum key gives the
    maximum key's loss, and a frequency strictly between them has two
    bracketing neighbour keys and the result is
    l1 + (f - f1) / (f2 - f1) * (l2 - l1) for them; a one-entry table always
    gives that entry's loss. *)
Theorem coax_loss_interpolation :
  (forall coax_type points,
      dict_get String.eqb COAX_DB coax_type = Some points -> table_ok points)
  /\ forall db coax_type f,
    (dict_get String.eqb db coax_type = None ->
       coax_loss_in db coax_type f = OK 0.0)
    /\ (forall points,
          dict_get String.eqb db coax_type = Some points ->
          table_ok points ->
          exists freqs fmin fmax lmin lmax,
            freqs = sorted (keys points)
            /\ Permutation freqs (keys points)
            /\ StronglySorted Z.lt freqs
            /\ hd_error freqs = Some fmin
            /\ last freqs 0%Z = fmax
            /\ (forall k, In k (keys points) -> (fmin <= k <= fmax)%Z)
            /\ dict_get Z.eqb points fmin = Some lmin
            /\ dict_get Z.eqb points fmax = Some lmax
            /\ (f <= IZR fmin -> coax_loss_in db coax_type f = OK lmin)
            /\ (IZR fmax <= f -> coax_loss_in db coax_type f = OK lmax)
            /\ (IZR fmin < f < IZR fmax ->
                (exists f1 f2, adjacent f1 f2 freqs /\ IZR f1 <= f <= IZR f2)
                /\ (forall f1 f2 l1 l2,
                      adjacent f1 f2 freqs ->
                      IZR f1 <= f <= IZR f2 ->
                      dict_get Z.eqb points f1 = Some l1 ->
                      dict_get Z.eqb points f2 = Some l2 ->
                      coax_loss_in db coax_type f
                      = OK (l1 + (f - IZR f1) / (IZR f2 - IZR f1) * (l2 - l1)))))
    /\ (forall k l,
          dict_get String.eqb db coax_type = Some [(k, l)] ->
          coax_loss_in db coax_type f = OK l).
Proof.
  split; [exact COAX_DB_tables_ok|].
  intros db coax_type f. split; [|split].
  - intros H. unfold coax_loss_in. now rewrite H.
  - intros points Hget [Hne Hnd].
    destruct (coax_loss_table db coax_type points f Hget Hne Hnd)
      as (fmin & fmax & lmin & lmax & Hhd & Hlast & (_ & _ & Hb) & Hlmin & Hlmax
          & Hlow & Hhigh & Hmid).
    exists (sorted (keys points)), fmin, fmax, lmin, lmax.
    repeat match goal with |- _ /\ _ => split end; auto.
    + apply sorted_perm.
    + now apply sorted_ascending.
  - intros k l. apply coax_loss_single.
Qed.

Lemma coax_loss_interpolation_witness :
  coax_loss_db_per_100ft "RG-58"%string 30 = OK 1.9
  /\ coax_loss_db_per_100ft "RG-58"%string 2000 = OK 13.5
  /\ coax_loss_db_per_100ft "RG-58"%string 100
     = OK (1.9 + (100 - IZR 50) / (IZR 150 - IZR 50) * (3.8 - 1.9))
  /\ coax_loss_db_per_100ft "RG-8X"%string 100 = OK 0.0
  /\ coax_loss_in [("one"%string, [(50%Z, 1.9)])] "one"%string 100 = OK 1.9.
Proof.
  pose (pts := [(50%Z, 1.9); (150%Z, 3.8); (450%Z, 7.0); (900%Z, 10.3); (1500%Z, 13.5)]).
  assert (Hget : dict_get String.eqb COAX_DB "RG-58"%string = Some pts) by reflexivity.
  pose proof (proj1 coax_loss_interpolation "RG-58"%string pts Hget) as Hok.
  destruct (proj2 coax_loss_interpolation COAX_DB "RG-58"%string 30) as (_ & H30 & _).
  destruct (proj2 coax_loss_interpolation COAX_DB "RG-58"%string 2000) as (_ & H2000 & _).
  destruct (proj2 coax_loss_interpolation COAX_DB "RG-58"%string 100) as (_ & H100 & _).
  destruct (H30 pts Hget Hok)
    as (fr & fmin & fmax & lmin & lmax & -> & _ & _ & Hhd & Hl & _ & Hmin & _ & Hlow & _).
  destruct (H2000 pts Hget Hok)
    as (fr' & fmin' & fmax' & lmin' & lmax' & -> & _ & _ & _ & Hl' & _ & _ & Hmax' & _ & Hhigh & _).
  destruct (H100 pts Hget Hok)
    as (fr2 & fmin2 & fmax2 & lmin2 & lmax2 & -> & _ & _ & Hhd2 & Hl2 & _ & _ & _ & _ & _ & Hmid).
  cbn in Hhd, Hl, Hl', Hhd2, Hl2.
  injection Hhd as <-. injection Hhd2 as <-. subst fmax fmax' fmax2.
  assert (E1 : lmin = 1.9) by (unfold dict_get in Hmin; cbn in Hmin; congruence).
  assert (E2 : lmax' = 13.5) by (unfold dict_get in Hmax'; cbn in Hmax'; congruence).
  split; [|split; [|split; [|split]]].
  - unfold coax_loss_db_per_100ft. rewrite Hlow by lra. now rewrite E1.
  - unfold coax_loss_db_per_100ft. rewrite Hhigh by lra. now rewrite E2.
  - unfold coax_loss_db_per_100ft.
    destruct Hmid as [_ Hmid]; [lra|].
    apply (Hmid 50%Z 150%Z 1.9 3.8); try reflexivity; [|lra].
    now exists [], [450%Z; 900%Z; 1500%Z].
  - apply (proj1 (proj2 coax_loss_interpolation COAX_DB "RG-8X"%string 100)).
    reflexivity.
  - apply (proj2 (proj2 (proj2 coax_loss_interpolation
                           [("one"%string, [(50%Z, 1.9)])] "one"%string 100)) 50%Z).
    reflexivity.
Defined.

(* ================================================================= *)
(** ** The interpolated loss stays within the table's range *)

Lemma fold_Rmin_le l a :
  fold_left Rmin l a <= a /\ forall v, In v l -> fold_left Rmin l a <= v.
Proof.
  revert a. induction l as [|x l IH]; intros a; cbn.
  - split; [lra | contradiction].
  - destruct (IH (Rmin a x)) as [H1 H2].
    pose proof (Rmin_l a x). pose proof (Rmin_r a x).
    split; [lra|]. intros v [<- | Hv]; [lra | now apply H2].
Qed.

Lemma fold_Rmax_ge l a :
  a <= fold_left Rmax l a /\ forall v, In v l -> v <= fold_left Rmax l a.
Proof.
  revert a. induction l as [|x l IH]; intros a; cbn.
  - split; [lra | contradiction].
  - destruct (IH (Rmax a x)) as [H1 H2].
    pose proof (Rmax_l a x). pose proof (Rmax_r a x).
    split; [lra|]. intros v [<- | Hv]; [lra | now apply H2].
Qed.

Lemma loss_in_range points v :
  In v (values points) -> min_loss points <= v <= max_loss points.
Proof.
  unfold min_loss, max_loss. destruct (values points) as [|a l]; [contradiction|].
  destruct (fold_Rmin_le l a) as [Hmin1 Hmin2].
  destruct (fold_Rmax_ge l a) as [Hmax1 Hmax2].
  intros [<- | Hv]; split; auto.
Qed.

(** The result is a value of the table or an interpolation between the loss
    values of two neighbour keys, and in both cases within the table's
    range. *)
Lemma coax_loss_in_range db coax_type points f :
  dict_get String.eqb db coax_type = Some points ->
  table_ok points ->
  exists v, coax_loss_in db coax_type f = OK v
    /\ (In v (values points)
        \/ exists f1 f2 l1 l2,
             adjacent f1 f2 (sorted (keys points))
             /\ IZR f1 <= f <= IZR f2
             /\ dict_get Z.eqb points f1 = Some l1
             /\ dict_get Z.eqb points f2 = Some l2
             /\ v = lerp l1 l2 f1 f2 f
             /\ Rmin l1 l2 <= v <= Rmax l1 l2)
    /\ min_loss points <= v <= max_loss points.
Proof.
  intros Hget [Hne Hnd].
  destruct (coax_loss_table db coax_type points f Hget Hne Hnd)
    as (fmin & fmax & lmin & lmax & _ & _ & _ & Hlmin & Hlmax
        & Hlow & Hhigh & Hmid).
  destruct (Rle_dec f (IZR fmin)) as [Hf1 | Hf1].
  { exists lmin. pose proof (dict_get_value _ _ _ Hlmin) as Hin.
    split; [auto|]. split; [now left | now apply loss_in_range]. }
  destruct (Rle_dec (IZR fmax) f) as [Hf2 | Hf2].
  { exists lmax. pose proof (dict_get_value _ _ _ Hlmax) as Hin.
    split; [auto|]. split; [now left | now apply loss_in_range]. }
  destruct Hmid as [(f1 & f2 & Hadj & Hbr) Hval]; [lra|].
  destruct (adjacent_in _ _ _ Hadj) as [Hin1 Hin2].
  pose proof (sorted_perm (keys points)) as Hperm.
  destruct (dict_get_in points f1) as (l1 & Hl1 & Hv1);
    [eapply Permutation_in; eassumption|].
  destruct (dict_get_in points f2) as (l2 & Hl2 & Hv2);
    [eapply Permutation_in; eassumption|].
  pose proof (adjacent_lt _ _ _ (sorted_ascending _ Hnd) Hadj) as Hlt.
  pose proof (lerp_between l1 l2 f1 f2 f Hlt Hbr) as Hbetween.
  exists (lerp l1 l2 f1 f2 f). split; [now apply Hval|]. split.
  - right. exists f1, f2, l1, l2. tauto.
  - pose proof (loss_in_range points l1 Hv1).
    pose proof (loss_in_range points l2 Hv2).
    unfold Rmin, Rmax in Hbetween. destruct (Rle_dec l1 l2); lra.
Qed.

(** C10. For every coax type of [COAX_DB] and every query frequency the
    interpolator returns a loss between the least and the greatest loss
    value of that type's table: it is either a value of the table (endpoint
    clamping) or an interpolation that lies between the loss values of the
    two bracketing keys. *)
Theorem coax_loss_within_table_range coax_type points f :
  dict_get String.eqb COAX_DB coax_type = Some points ->
  exists v, coax_loss_db_per_100ft coax_type f = OK v
    /\ (In v (values points)
        \/ exists f1 f2 l1 l2,
             adjacent f1 f2 (sorted (keys points))
             /\ IZR f1 <= f <= IZR f2
             /\ dict_get Z.eqb points f1 = Some l1
             /\ dict_get Z.eqb points f2 = Some l2
             /\ v = l1 + (f - IZR f1) / (IZR f2 - IZR f1) * (l2 - l1)
             /\ Rmin l1 l2 <= v <= Rmax l1 l2)
    /\ min_loss points <= v <= max_loss points.
Proof.
  intros Hget.
  exact (coax_loss_in_range COAX_DB coax_type points f Hget
           (COAX_DB_tables_ok coax_type points Hget)).
Qed.

Lemma coax_loss_within_table_range_witness :
  exists v, coax_loss_db_per_100ft "LMR-400"%string 300 = OK v
    /\ min_loss [(50%Z, 0.3); (150%Z, 0.7); (450%Z, 1.5); (900%Z, 2.3); (1500%Z, 3.0)]
       <= v
       <= max_loss [(50%Z, 0.3); (150%Z, 0.7); (450%Z, 1.5); (900%Z, 2.3); (1500%Z, 3.0)].
Proof.
  destruct (coax_loss_within_table_range "LMR-400"%string
              [(50%Z, 0.3); (150%Z, 0.7); (450%Z, 1.5); (900%Z, 2.3); (1500%Z, 3.0)]
              300 eq_refl) as (v & Hv & _ & Hrange).
  exists v. split; [exact Hv | exact Hrange].
Defined.

(* ================================================================= *)
(** ** Friis cascade *)

Lemma pow10_pos x : 0 < pow10 x.
Proof. unfold pow10, Rpower. apply exp_pos. Qed.

Lemma pow10_inj x y : pow10 x = pow10 y -> x = y.
Proof.
  unfold pow10. intros H.
  destruct (Rtotal_order x y) as [Hlt | [Heq | Hgt]]; [|exact Heq|].
  - pose proof (Rpower_lt 10 x y ltac:(lra) Hlt). lra.
  - pose proof (Rpower_lt 10 y x ltac:(lra) Hgt). lra.
Qed.

Lemma pow10_0 : pow10 (0 / 10.0) = 1.
Proof. unfold pow10. replace (0 / 10.0) with 0 by lra. apply Rpower_O. lra. Qed.

Lemma pow10_1 : pow10 (10 / 10.0) = 10.
Proof. unfold pow10. replace (10 / 10.0) with 1 by lra. apply Rpower_1. lra. Qed.

Lemma linear_gains_pos stages : Forall (fun g => 0 < g) (map linear_gain stages).
Proof.
  induction stages as [|s l IH]; cbn; constructor; auto. apply pow10_pos.
Qed.

Lemma prod_pos_from arr a :
  0 < a -> Forall (fun g => 0 < g) arr -> 0 < fold_left Rmult arr a.
Proof.
  intros Ha H. revert a Ha.
  induction H as [|g l Hg Hl IH]; intros a Ha; cbn; [exact Ha|].
  apply IH. now apply Rmult_lt_0_compat.
Qed.

Lemma _prod_pos arr : Forall (fun g => 0 < g) arr -> 0 < _prod arr.
Proof. intros H. unfold _prod. apply prod_pos_from; [lra | exact H]. Qed.

Lemma gain_before_pos G i : Forall (fun g => 0 < g) G -> 0 < gain_before G i.
Proof.
  intros H. revert i. unfold gain_before.
  induction H as [|g l Hg Hl IH]; intros [|i]; cbn; try lra.
  apply Rmult_lt_0_compat; auto.
Qed.

Lemma tail_sum_cons Fi Fs Gp Gs gain_prod :
  tail_sum (Fi :: Fs) (Gp :: Gs) gain_prod
  = (Fi - 1) / (gain_prod * Gp) + tail_sum Fs Gs (gain_prod * Gp).
Proof.
  unfold tail_sum. cbn [List.length seq map fold_right nth].
  f_equal.
  - unfold gain_before. cbn. f_equal. lra.
  - rewrite <- seq_shift, map_map. f_equal.
    apply map_ext. intros i. cbn [nth].
    unfold gain_before. cbn [firstn fold_right]. f_equal. lra.
Qed.

Lemma friis_loop_sum Fs : forall Gs acc gain_prod,
  0 < gain_prod ->
  Forall (fun g => 0 < g) Gs ->
  (List.length Fs <= List.length Gs)%nat ->
  friis_loop Fs Gs acc gain_prod = OK (acc + tail_sum Fs Gs gain_prod).
Proof.
  induction Fs as [|Fi Fs IH]; intros Gs acc gp Hgp HG Hlen.
  - cbn. unfold tail_sum. cbn. f_equal. lra.
  - destruct Gs as [|Gp Gs]; [cbn in Hlen; lia|].
    inversion HG as [|? ? HGp HGs]; subst.
    assert (Hpos : 0 < gp * Gp) by now apply Rmult_lt_0_compat.
    cbn [friis_loop]. rewrite py_div_ok by lra. cbn [bind].
    rewrite IH; [| exact Hpos | exact HGs | cbn in Hlen; lia].
    rewrite tail_sum_cons. f_equal.
    replace 1.0 with 1 by lra. lra.
Qed.

Lemma friis_formula_cons F0 Fs G :
  friis_formula (F0 :: Fs) G = F0 + tail_sum Fs G 1.
Proof.
  unfold friis_formula, tail_sum. cbn [nth List.length].
  replace (S (List.length Fs) - 1)%nat with (List.length Fs) by lia.
  f_equal. rewrite <- seq_shift, map_map. f_equal.
  apply map_ext. intros i. cbn [nth]. f_equal. lra.
Qed.

(** The accumulation of lines 577-581 computes the cascade formula, and
    never divides by zero. *)
Lemma friis_F_total_formula stages :
  stages <> [] ->
  friis_F_total stages
  = OK (friis_formula (map noise_factor stages) (map linear_gain stages)).
Proof.
  intros Hne. destruct stages as [|s l]; [contradiction|].
  unfold friis_F_total. cbn [map hd tl].
  rewrite friis_loop_sum.
  - rewrite friis_formula_cons. do 2 f_equal.
    + replace 1.0 with 1 by lra. reflexivity.
  - lra.
  - apply (linear_gains_pos (s :: l)).
  - cbn. rewrite !length_map. lia.
Qed.

Lemma calculate_friis_ok stages :
  stages <> [] ->
  let Ft := friis_formula (map noise_factor stages) (map linear_gain stages) in
  0 < Ft ->
  calculate_friis stages
  = OK (mkFriis (10 * (ln (_prod (map linear_gain stages)) / ln 10)) Ft
                (10 * (ln Ft / ln 10)) ((Ft - 1) * 290)).
Proof.
  intros Hne Ft HFt. unfold calculate_friis.
  destruct stages as [|s l]; [contradiction|].
  rewrite friis_F_total_formula by exact Hne. cbn [bind]. fold Ft.
  rewrite (log10_ok Ft HFt). cbn [bind].
  rewrite log10_ok by (apply _prod_pos, linear_gains_pos). cbn [bind].
  do 2 f_equal. lra.
Qed.

Lemma calculate_friis_domain_error stages :
  stages <> [] ->
  friis_formula (map noise_factor stages) (map linear_gain stages) <= 0 ->
  calculate_friis stages = Err MathDomainError.
Proof.
  intros Hne HFt. unfold calculate_friis.
  destruct stages as [|s l]; [contradiction|].
  rewrite friis_F_total_formula by exact Hne. cbn [bind].
  now rewrite (log10_err _ HFt).
Qed.

(** A stage whose noise temperature is -290 K has noise factor 0; the
    cascade then stops at [log10(F_total)]. *)
Lemma friis_zero_noise_factor :
  calculate_friis [mkStage 0 0 (-290) true] = Err MathDomainError.
Proof.
  apply calculate_friis_domain_error; [discriminate|].
  cbn [map]. rewrite friis_formula_cons. unfold tail_sum, noise_factor. cbn. lra.
Qed.

(** C2, as stated, fails: not every non-empty stage list makes the cascade
    return its total noise factor. *)
Lemma friis_returns_counterexample :
  calculate_friis [mkStage 0 0 (-290) true] = Err MathDomainError
  /\ ~ (forall stages, stages <> [] ->
         exists r, calculate_friis stages = OK r
                   /\ F_total r = friis_formula (map noise_factor stages)
                                                (map linear_gain stages)).
Proof.
  split; [exact friis_zero_noise_factor|].
  intros H.
  destruct (H [mkStage 0 0 (-290) true]) as (r & Hr & _); [discriminate|].
  rewrite friis_zero_noise_factor in Hr. discriminate.
Qed.

(** C2, amended. For every non-empty stage list, with
    F_i = 1 + T/290 when the temperature flag is set and 10^(NF_dB/10)
    otherwise, and G_i = 10^(gain_dB/10), the accumulation yields
    F_total = F_1 + sum for i = 2..n of (F_i - 1) / (G_1 * ... * G_(i-1));
    the calculator returns it, with the derived outputs, when F_total > 0,
    and fails on [log10] with a math domain error when F_total <= 0; the
    empty list fails with the [ValueError] "Add at least one stage.". *)
Theorem friis_cascade_spec :
  (forall stages, stages <> [] ->
     let F := map (fun s => if use_t s then 1 + t_k s / 290
                            else Rpower 10 (nf_db s / 10)) stages in
     let G := map (fun s => Rpower 10 (g_db s / 10)) stages in
     friis_F_total stages = OK (friis_formula F G)
     /\ (0 < friis_formula F G ->
         exists r, calculate_friis stages = OK r
                   /\ F_total r = friis_formula F G
                   /\ NF_total_db r = 10 * (ln (friis_formula F G) / ln 10)
                   /\ T_total r = (friis_formula F G - 1) * 290
                   /\ G_total_db r = 10 * (ln (fold_left Rmult G 1) / ln 10))
     /\ (friis_formula F G <= 0 ->
         calculate_friis stages = Err MathDomainError))
  /\ calculate_friis [] = Err (ValueError "Add at least one stage.").
Proof.
  split; [|reflexivity].
  intros stages Hne F G.
  assert (EF : F = map noise_factor stages).
  { unfold F. apply map_ext. intros s. unfold noise_factor, pow10.
    destruct (use_t s); f_equal; lra. }
  assert (EG : G = map linear_gain stages).
  { unfold G. apply map_ext. intros s. unfold linear_gain, pow10. f_equal. lra. }
  rewrite EF, EG. split; [|split].
  - now apply friis_F_total_formula.
  - intros HFt. eexists. split; [now apply calculate_friis_ok|].
    cbn. repeat split. unfold _prod. now replace 1.0 with 1 by lra.
  - now apply calculate_friis_domain_error.
Qed.

Lemma friis_cascade_spec_witness :
  exists r, calculate_friis [mkStage 10 0 290 true; mkStage 0 0 290 true] = OK r
            /\ F_total r = 2.1.
Proof.
  pose (stages := [mkStage 10 0 290 true; mkStage 0 0 290 true]).
  assert (Hne : stages <> []) by discriminate.
  destruct (proj1 friis_cascade_spec stages Hne) as (_ & Hok & _).
  assert (E : friis_formula
            (map (fun s => if use_t s then 1 + t_k s / 290
                           else Rpower 10 (nf_db s / 10)) stages)
            (map (fun s => Rpower 10 (g_db s / 10)) stages) = 2.1).
  { unfold friis_formula, gain_before. cbn.
    replace (10 / 10) with 1 by lra. rewrite Rpower_1 by lra. lra. }
  rewrite E in Hok.
  destruct Hok as (r & Hr & HF & _); [lra|].
  exists r. split; [exact Hr | exact HF].
Defined.

Lemma friis_two_stages s1 s2 :
  friis_F_total [s1; s2]
  = OK (noise_factor s1 + (noise_factor s2 - 1) / linear_gain s1).
Proof.
  rewrite friis_F_total_formula by discriminate.
  unfold friis_formula, gain_before. cbn.
  pose proof (pow10_pos (g_db s1 / 10.0)) as Hpos.
  f_equal. unfold linear_gain. field. lra.
Qed.

Lemma OK_inj {A : Type} (a b : A) : OK a = OK b -> a = b.
Proof. now intros [= ->]. Qed.

(** C7. The cascade depends on the order of the stages: there are two
    stages of unequal gain whose two orders give different total noise
    factors.  For a two-stage list the two orders agree exactly when
    (F_1 - 1)(1 - 1/G_2) = (F_2 - 1)(1 - 1/G_1); in particular two stages
    with the same noise factor other than 1 and unequal gains always give
    different totals when swapped. *)
Theorem friis_order_sensitive :
  (exists s1 s2 r12 r21,
      g_db s1 <> g_db s2
      /\ calculate_friis [s1; s2] = OK r12
      /\ calculate_friis [s2; s1] = OK r21
      /\ F_total r12 <> F_total r21)
  /\ (forall s1 s2,
        friis_F_total [s1; s2] = friis_F_total [s2; s1]
        <-> (noise_factor s1 - 1) * (1 - / linear_gain s2)
            = (noise_factor s2 - 1) * (1 - / linear_gain s1))
  /\ (forall s1 s2,
        noise_factor s1 = noise_factor s2 ->
        noise_factor s1 <> 1 ->
        g_db s1 <> g_db s2 ->
        friis_F_total [s1; s2] <> friis_F_total [s2; s1]).
Proof.
  assert (Hiff : forall s1 s2,
        friis_F_total [s1; s2] = friis_F_total [s2; s1]
        <-> (noise_factor s1 - 1) * (1 - / linear_gain s2)
            = (noise_factor s2 - 1) * (1 - / linear_gain s1)).
  { intros s1 s2. rewrite !friis_two_stages. unfold Rdiv.
    split; intros H.
    - apply OK_inj in H. lra.
    - f_equal. lra. }
  split; [|split; [exact Hiff|]].
  - pose (s1 := mkStage 10 0 290 true). pose (s2 := mkStage 0 0 290 true).
    assert (F12 : friis_formula (map noise_factor [s1; s2])
                                (map linear_gain [s1; s2]) = 2.1).
    { unfold friis_formula, gain_before, linear_gain, noise_factor. cbn.
      rewrite pow10_1. lra. }
    assert (F21 : friis_formula (map noise_factor [s2; s1])
                                (map linear_gain [s2; s1]) = 3).
    { unfold friis_formula, gain_before, linear_gain, noise_factor. cbn.
      rewrite pow10_0. lra. }
    exists s1, s2. do 2 eexists.
    split; [cbn; lra|].
    split; [apply calculate_friis_ok; [discriminate | rewrite F12; lra]|].
    split; [apply calculate_friis_ok; [discriminate | rewrite F21; lra]|].
    cbn [F_total]. rewrite F12, F21. lra.
  - intros s1 s2 HF Hne Hg Heq. apply Hiff in Heq. rewrite <- HF in Heq.
    assert (HG : linear_gain s1 <> linear_gain s2).
    { unfold linear_gain. intros E. apply pow10_inj in E. lra. }
    pose proof (pow10_pos (g_db s1 / 10.0)) as H1.
    pose proof (pow10_pos (g_db s2 / 10.0)) as H2.
    fold (linear_gain s1) in H1. fold (linear_gain s2) in H2.
    assert (E : / linear_gain s1 = / linear_gain s2).
    { apply Rmult_eq_reg_l with (noise_factor s1 - 1); lra. }
    apply HG. rewrite <- (Rinv_inv (linear_gain s1)), <- (Rinv_inv (linear_gain s2)).
    now rewrite E.
Qed.

Lemma friis_order_sensitive_witness :
  friis_F_total [mkStage 10 0 290 true; mkStage 0 0 290 true]
  <> friis_F_total [mkStage 0 0 290 true; mkStage 10 0 290 true].
Proof.
  apply (proj2 (proj2 friis_order_sensitive)).
  - reflexivity.
  - unfold noise_factor; cbn; lra.
  - cbn; lra.
Defined.

(* ================================================================= *)
(** ** Fresnel zone *)

Lemma py_max_Rmax a b : py_max a b = Rmax a b.
Proof.
  unfold py_max, Rmax, Rltb.
  destruct (Rlt_dec a b), (Rle_dec a b); try reflexivity; lra.
Qed.

Lemma py_min_Rmin a b : py_min a b = Rmin a b.
Proof.
  unfold py_min, Rmin, Rltb.
  destruct (Rlt_dec b a), (Rle_dec a b); try reflexivity; lra.
Qed.

Lemma fresnel_f_mhz_pos i : 0 < fr_freq_val i -> 0 < fresnel_f_mhz i.
Proof. unfold fresnel_f_mhz. destruct (String.eqb _ _); lra. Qed.

Lemma fresnel_d_km_pos i : 0 < fr_dist_val i -> 0 < fresnel_d_km i.
Proof. unfold fresnel_d_km. destruct (String.eqb _ _); lra. Qed.

Lemma calculate_fresnel_bad_pct i :
  ~ (0 < fr_point_pct i < 100) ->
  calculate_fresnel i
  = Err (ValueError "Point % must be between 0 and 100 (exclusive).").
Proof.
  intros H. unfold calculate_fresnel.
  destruct (Rlt_dec 0 (fr_point_pct i)) as [H0 | H0].
  - rewrite (Rltb_false (fr_point_pct i / 100.0) 1.0) by lra.
    now rewrite andb_false_r.
  - now rewrite (Rltb_false 0.0 (fr_point_pct i / 100.0)) by lra.
Qed.

Lemma fresnel_radicand_pos lam d pct :
  0 < lam -> 0 < d -> 0 < pct < 1 ->
  0 < lam * (d * pct * 1000) * (d * (1 - pct) * 1000)
      / (d * pct * 1000 + d * (1 - pct) * 1000).
Proof.
  intros Hl Hd Hp.
  assert (H1 : 0 < d * pct * 1000) by nra.
  assert (H2 : 0 < d * (1 - pct) * 1000) by nra.
  apply Rdiv_lt_0_compat; [|lra].
  apply Rmult_lt_0_compat; [|exact H2].
  now apply Rmult_lt_0_compat.
Qed.

Lemma calculate_fresnel_ok i :
  0 < fr_freq_val i -> 0 < fr_dist_val i -> 0 < fr_point_pct i < 100 ->
  let pct := fr_point_pct i / 100 in
  let d1 := fresnel_d_km i * pct in
  let d2 := fresnel_d_km i * (1 - pct) in
  let lam := 299792458 / (fresnel_f_mhz i * 1e6) in
  let r1 := fresnel_r1 lam (d1 * 1000) (d2 * 1000) in
  0 < r1
  /\ calculate_fresnel i
     = OK (mkFresnel (fresnel_f_mhz i) (fresnel_d_km i) pct d1 d2 lam r1
                     (fr_obstacle_h i)
                     (clamp 0 100 ((1 - fr_obstacle_h i / r1) * 100))).
Proof.
  intros Hf Hd Hp pct d1 d2 lam r1.
  pose proof (fresnel_f_mhz_pos i Hf) as Hfm.
  pose proof (fresnel_d_km_pos i Hd) as Hdk.
  assert (Hpct : 0 < pct < 1) by (unfold pct; lra).
  assert (Hlam : 0 < lam).
  { unfold lam. apply Rdiv_lt_0_compat; lra. }
  pose proof (fresnel_radicand_pos lam (fresnel_d_km i) pct Hlam Hdk Hpct) as Hrad.
  assert (Hr1 : 0 < r1) by (unfold r1, fresnel_r1, d1, d2; now apply sqrt_lt_R0).
  split; [exact Hr1|].
  unfold calculate_fresnel.
  replace (fr_freq_val i * 1000.0) with (fr_freq_val i * 1000) by lra.
  fold (fresnel_f_mhz i). fold (fresnel_d_km i).
  replace (fr_point_pct i / 100.0) with pct by (unfold pct; lra).
  rewrite (Rltb_true 0.0 pct) by lra.
  rewrite (Rltb_true pct 1.0) by lra.
  cbn [andb negb]. unfold wavelengthMeters.
  rewrite Rleb_false by lra. cbn [bind].
  replace (299792458.0 / (fresnel_f_mhz i * 1e6)) with lam by (unfold lam; lra).
  fold d1 d2.
  replace (d1 * 1000.0) with (d1 * 1000) by lra.
  replace (d2 * 1000.0) with (d2 * 1000) by lra.
  assert (Hsum : d1 * 1000 + d2 * 1000 <> 0) by (unfold d1, d2; nra).
  rewrite py_div_ok by exact Hsum. cbn [bind].
  rewrite py_sqrt_ok by (unfold d1, d2; lra). cbn [bind].
  fold (fresnel_r1 lam (d1 * 1000) (d2 * 1000)). fold r1.
  rewrite (Rltb_true 0 r1 Hr1).
  rewrite py_div_ok by lra. cbn [bind].
  rewrite py_max_Rmax, py_min_Rmin. unfold clamp.
  replace 0.0 with 0 by lra. replace 100.0 with 100 by lra.
  reflexivity.
Qed.

(** C6. For a positive frequency and a positive distance: a query point
    that is not strictly between 0 and 100 percent fails with the
    [ValueError] of line 665; otherwise the calculator returns, with
    d1_m and d2_m the two path segments in meters and lam the wavelength,
    r1 = sqrt(lam * d1_m * d2_m / (d1_m + d2_m)), which is positive, and
    the clearance clamp(0, 100, (1 - obstacle / r1) * 100) (the branch for
    r1 > 0), which is 100 when the obstacle height is 0; at the midpoint
    r1 = sqrt(lam * d / 4). *)
Theorem fresnel_spec (i : FresnelInput) :
  0 < fr_freq_val i -> 0 < fr_dist_val i ->
  (~ (0 < fr_point_pct i < 100) ->
     calculate_fresnel i
     = Err (ValueError "Point % must be between 0 and 100 (exclusive)."))
  /\ (0 < fr_point_pct i < 100 ->
      exists r, calculate_fresnel i = OK r
        /\ let d1_m := fresnel_d_km i * (fr_point_pct i / 100) * 1000 in
           let d2_m := fresnel_d_km i * (1 - fr_point_pct i / 100) * 1000 in
           let lam := 299792458 / (fresnel_f_mhz i * 1e6) in
           r1_m r = sqrt (lam * d1_m * d2_m / (d1_m + d2_m))
           /\ 0 < r1_m r
           /\ clearance_pct r
              = (if Rltb 0 (r1_m r)
                 then clamp 0 100 ((1 - fr_obstacle_h i / r1_m r) * 100)
                 else 0)
           /\ (fr_obstacle_h i = 0 -> clearance_pct r = 100)
           /\ (fr_point_pct i = 50 ->
               r1_m r = sqrt (lam * (fresnel_d_km i * 1000) / 4))).
Proof.
  intros Hf Hd. split; [apply calculate_fresnel_bad_pct|].
  intros Hp.
  destruct (calculate_fresnel_ok i Hf Hd Hp) as [Hr1 Hcalc].
  eexists. split; [exact Hcalc|].
  cbn [r1_m clearance_pct]. unfold fresnel_r1 in *.
  split; [reflexivity|]. split; [exact Hr1|]. split; [|split].
  - now rewrite (Rltb_true _ _ Hr1).
  - intros ->. unfold clamp, Rdiv. rewrite Rmult_0_l.
    replace ((1 - 0) * 100) with 100 by lra.
    unfold Rmin, Rmax.
    destruct (Rle_dec 100 100); destruct (Rle_dec 0 100); lra.
  - intros E. f_equal. rewrite E.
    pose proof (fresnel_d_km_pos i Hd). pose proof (fresnel_f_mhz_pos i Hf).
    field. repeat split; lra.
Qed.

Lemma fresnel_spec_witness :
  calculate_fresnel (mkFresnelInput 2400 "MHz" 10 "km" 100 0)
  = Err (ValueError "Point % must be between 0 and 100 (exclusive).")
  /\ exists r, calculate_fresnel (mkFresnelInput 2400 "MHz" 10 "km" 50 0) = OK r
               /\ clearance_pct r = 100.
Proof.
  split.
  - apply (proj1 (fresnel_spec (mkFresnelInput 2400 "MHz" 10 "km" 100 0)
                    ltac:(cbn; lra) ltac:(cbn; lra))).
    cbn. lra.
  - destruct (proj2 (fresnel_spec (mkFresnelInput 2400 "MHz" 10 "km" 50 0)
                       ltac:(cbn; lra) ltac:(cbn; lra)))
      as (r & Hr & _ & _ & _ & H100 & _).
    + cbn. lra.
    + exists r. split; [exact Hr | now apply H100].
Defined.

(* ================================================================= *)
(** ** Reflection coefficient and SWR *)

Lemma c_div_ok a b :
  re b <> 0 \/ im b <> 0 ->
  c_div a b
  = OK (mkComplex ((re a * re b + im a * im b) / (re b * re b + im b * im b))
                  ((im a * re b - re a * im b) / (re b * re b + im b * im b))).
Proof.
  intros H. unfold c_div.
  destruct H as [H | H].
  - now rewrite (Reqb_false _ _ H).
  - rewrite (Reqb_false (im b) 0 H). now rewrite andb_false_r.
Qed.

Lemma c_div_by_zero a b :
  re b = 0 -> im b = 0 -> c_div a b = Err ZeroDivisionError.
Proof.
  intros H1 H2. unfold c_div.
  now rewrite (Reqb_true _ _ H1), (Reqb_true _ _ H2).
Qed.

Lemma norm2_pos b : re b <> 0 \/ im b <> 0 -> 0 < re b * re b + im b * im b.
Proof. intros [H | H]; nra. Qed.

(** The quotient of [c_div] is the complex number whose product with the
    divisor is the dividend. *)
Lemma c_div_mul a b q : c_div a b = OK q -> c_mul q b = a.
Proof.
  unfold c_div.
  destruct (Reqb (re b) 0 && Reqb (im b) 0) eqn:E; [discriminate|].
  intros [= <-].
  assert (Hb : re b <> 0 \/ im b <> 0).
  { apply andb_false_iff in E as [E | E]; unfold Reqb in E;
      [left | right]; destruct (Req_dec_T _ 0); congruence. }
  pose proof (norm2_pos b Hb) as Hn.
  destruct a as [ar ai], b as [br bi]. unfold c_mul. cbn in *.
  f_equal; field; lra.
Qed.

Lemma c_abs_nonneg z : 0 <= c_abs z.
Proof. unfold c_abs. apply sqrt_pos. Qed.

Lemma smith_reflection_ok R_ X Z0 :
  R_ + Z0 <> 0 \/ X <> 0 ->
  exists g,
    c_div (mkComplex (R_ - Z0) X) (mkComplex (R_ + Z0) X) = OK g
    /\ smith_reflection R_ X Z0 = OK (g, c_abs g, swr_of (c_abs g)).
Proof.
  intros H. unfold smith_reflection, c_sub_float, c_add_float. cbn [re im].
  rewrite c_div_ok by exact H. cbn [bind re im].
  eexists. split; [reflexivity|].
  unfold swr_of.
  match goal with |- context [Rltb ?m 1] => set (mag := m) end.
  destruct (Rlt_dec mag 1) as [Hm | Hm].
  - rewrite (Rltb_true _ _ Hm). rewrite py_div_ok by lra. reflexivity.
  - rewrite (Rltb_false mag 1) by lra. reflexivity.
Qed.

Lemma smith_reflection_zero_div R_ X Z0 :
  R_ + Z0 = 0 -> X = 0 -> smith_reflection R_ X Z0 = Err ZeroDivisionError.
Proof.
  intros H1 H2. unfold smith_reflection.
  now rewrite c_div_by_zero.
Qed.

Lemma calculate_smith_bind R_ X Z0 f g mag s :
  smith_reflection R_ X Z0 = OK (g, mag, s) ->
  calculate_smith R_ X Z0 f
  = (m <- suggest_l_match R_ X Z0 f ;; OK (mkSmith g mag s m)).
Proof. intros H. unfold calculate_smith. now rewrite H. Qed.

Lemma suggest_l_match_invalid R_ X Z0 f :
  R_ <= 0 -> suggest_l_match R_ X Z0 f = OK InvalidR.
Proof. intros H. unfold suggest_l_match. now rewrite (Rleb_true _ _ H). Qed.

(** The reference load of the specification: 25 ohm on a 50 ohm line. *)
Lemma smith_reflection_25_50 :
  smith_reflection 25 0 50 = OK (mkComplex (- (1 / 3)) 0, 1 / 3, Finite 2).
Proof.
  destruct (smith_reflection_ok 25 0 50) as (g & Hg & Hr); [left; lra|].
  rewrite c_div_ok in Hg by (left; cbn; lra). cbn [re im] in Hg.
  apply OK_inj in Hg.
  assert (Eg : g = mkComplex (- (1 / 3)) 0).
  { rewrite <- Hg. f_equal; field. }
  assert (Eabs : c_abs g = 1 / 3).
  { rewrite Eg. unfold c_abs. cbn [re im].
    replace (- (1 / 3) * - (1 / 3) + 0 * 0) with ((1 / 3) * (1 / 3)) by lra.
    apply sqrt_square. lra. }
  rewrite Hr, Eabs, Eg. unfold swr_of.
  rewrite Rltb_true by lra. do 3 f_equal. field.
Qed.

Lemma suggest_l_match_25_50 X f :
  f <> 0 ->
  exists cancel Ls Cp,
    suggest_l_match 25 X 50 f = OK (LowPassL cancel Ls Cp 1).
Proof.
  intros Hf. unfold suggest_l_match.
  rewrite (Rleb_false 25 0) by lra.
  rewrite (Rltb_true 25 50) by lra.
  rewrite py_div_ok by lra. cbn [bind].
  replace (50 / 25 - 1) with 1 by lra.
  rewrite py_sqrt_ok by lra. cbn [bind]. rewrite sqrt_1.
  rewrite py_div_ok by lra. cbn [bind].
  pose proof PI_RGT_0 as Hpi.
  assert (H2 : 2 * PI * (f * 1e6) <> 0).
  { apply Rmult_integral_contrapositive_currified; lra. }
  rewrite py_div_ok by exact H2. cbn [bind].
  rewrite py_div_ok.
  - cbn [bind]. do 3 eexists. reflexivity.
  - apply Rmult_integral_contrapositive_currified; [exact H2 | lra].
Qed.

(** A short circuit on a 50 ohm line: |gamma| = 1, the SWR is the infinite
    sentinel and the match text is "Invalid R.". *)
Lemma calculate_smith_short_circuit f :
  calculate_smith 0 0 50 f = OK (mkSmith (mkComplex (-1) 0) 1 Infinity InvalidR).
Proof.
  destruct (smith_reflection_ok 0 0 50) as (g & Hg & Hr); [left; lra|].
  rewrite c_div_ok in Hg by (left; cbn; lra). cbn [re im] in Hg.
  apply OK_inj in Hg.
  assert (Eg : g = mkComplex (-1) 0) by (rewrite <- Hg; f_equal; field).
  assert (Eabs : c_abs g = 1).
  { rewrite Eg. unfold c_abs. cbn [re im].
    replace (-1 * -1 + 0 * 0) with 1 by lra. apply sqrt_1. }
  rewrite (calculate_smith_bind _ _ _ f _ _ _ Hr).
  rewrite suggest_l_match_invalid by lra. cbn [bind].
  rewrite Eabs, Eg. unfold swr_of. now rewrite Rltb_false by lra.
Qed.

(** C9. The quotient on line 856 has no guard: for R = -Z0 and X = 0 (for
    example R = -50, X = 0, Z0 = 50) the reflection step, and with it the
    whole calculation, raises ZeroDivisionError instead of returning a
    result or the infinite sentinel, although a fully mismatched load such
    as a short circuit is reported with the sentinel. *)
Theorem reflection_division_by_zero :
  (forall Z0 f,
      smith_reflection (- Z0) 0 Z0 = Err ZeroDivisionError
      /\ calculate_smith (- Z0) 0 Z0 f = Err ZeroDivisionError)
  /\ smith_reflection (-50) 0 50 = Err ZeroDivisionError
  /\ (forall f, calculate_smith (-50) 0 50 f = Err ZeroDivisionError)
  /\ (forall f, calculate_smith 0 0 50 f
                = OK (mkSmith (mkComplex (-1) 0) 1 Infinity InvalidR)).
Proof.
  assert (H : forall Z0 f,
      smith_reflection (- Z0) 0 Z0 = Err ZeroDivisionError
      /\ calculate_smith (- Z0) 0 Z0 f = Err ZeroDivisionError).
  { intros Z0 f.
    assert (E : smith_reflection (- Z0) 0 Z0 = Err ZeroDivisionError)
      by (apply smith_reflection_zero_div; lra).
    split; [exact E|]. unfold calculate_smith. now rewrite E. }
  split; [exact H|]. split; [|split].
  - apply smith_reflection_zero_div; lra.
  - intros f. unfold calculate_smith.
    rewrite smith_reflection_zero_div by lra. reflexivity.
  - exact calculate_smith_short_circuit.
Qed.

(* ================================================================= *)
(** ** L-match synthesis on a non-positive resistance *)

(** C1, as stated, fails: a short circuit (R = 0) on a 50 ohm line makes
    neither [suggest_l_match] nor [calculate_smith] fail. *)
Lemma l_match_invalid_r_counterexample :
  suggest_l_match 0 0 50 14 = OK InvalidR
  /\ calculate_smith 0 0 50 14
     = OK (mkSmith (mkComplex (-1) 0) 1 Infinity InvalidR)
  /\ ~ (forall R_ X Z0 f, R_ <= 0 -> 0 < Z0 ->
         exists e, suggest_l_match R_ X Z0 f = Err e
                   /\ calculate_smith R_ X Z0 f = Err e).
Proof.
  split; [apply suggest_l_match_invalid; lra|].
  split; [apply calculate_smith_short_circuit|].
  intros H. destruct (H 0 0 50 14) as (e & He & _); try lra.
  rewrite suggest_l_match_invalid in He by lra. discriminate.
Qed.

(** C1, amended. For every load with R <= 0 (any X, Z0 and frequency)
    [suggest_l_match] returns the text "Invalid R." and raises nothing, and
    whenever R + jX + Z0 is not zero [calculate_smith] completes and
    reports that text together with gamma, |gamma| and the SWR. *)
Theorem l_match_invalid_r (R_ X Z0 f : R) :
  R_ <= 0 ->
  suggest_l_match R_ X Z0 f = OK InvalidR
  /\ (R_ + Z0 <> 0 \/ X <> 0 ->
      exists g,
        c_div (mkComplex (R_ - Z0) X) (mkComplex (R_ + Z0) X) = OK g
        /\ calculate_smith R_ X Z0 f
           = OK (mkSmith g (c_abs g) (swr_of (c_abs g)) InvalidR)).
Proof.
  intros HR. split; [now apply suggest_l_match_invalid|].
  intros H. destruct (smith_reflection_ok R_ X Z0 H) as (g & Hg & Hr).
  exists g. split; [exact Hg|].
  rewrite (calculate_smith_bind _ _ _ f _ _ _ Hr).
  now rewrite suggest_l_match_invalid.
Qed.

Lemma l_match_invalid_r_witness :
  suggest_l_match (-10) 5 50 14 = OK InvalidR
  /\ exists g, calculate_smith (-10) 5 50 14
               = OK (mkSmith g (c_abs g) (swr_of (c_abs g)) InvalidR).
Proof.
  destruct (l_match_invalid_r (-10) 5 50 14 ltac:(lra)) as [H1 H2].
  split; [exact H1|].
  destruct H2 as (g & _ & Hg); [left; lra|].
  exists g. exact Hg.
Defined.

(* ================================================================= *)
(** ** Unit conversions *)

Lemma ln10_pos : 0 < ln 10.
Proof. rewrite <- ln_1. apply ln_increasing; lra. Qed.

Lemma pow10_log10 x : 0 < x -> pow10 (ln x / ln 10) = x.
Proof.
  intros Hx. pose proof ln10_pos. unfold pow10, Rpower.
  replace (ln x / ln 10 * ln 10) with (ln x) by (field; lra).
  now apply exp_ln.
Qed.

Lemma log10_pow10 y : ln (pow10 y) / ln 10 = y.
Proof.
  pose proof ln10_pos. unfold pow10. rewrite ln_Rpower. field. lra.
Qed.

Lemma pow10_plus x y : pow10 (x + y) = pow10 x * pow10 y.
Proof. unfold pow10. apply Rpower_plus. Qed.


Lemma pow10_zero : pow10 0 = 1.
Proof. unfold pow10. apply Rpower_O. lra. Qed.

Lemma pow10_lt x y : x < y -> pow10 x < pow10 y.
Proof. intros H. unfold pow10. apply Rpower_lt; lra. Qed.


(** X1. On every recognised unit, in any letter case, [freqToHz] is 10^6
    times [freqToMhz]; on any other unit text made of ASCII characters both
    return the value unchanged, so the two then differ by no factor at
    all. *)
Theorem freq_conversions_agree (value : R) (unit : string) :
  (In (lower unit) freq_units ->
     freqToHz value unit = freqToMhz value unit * 1e6)
  /\ (is_ascii_text unit = true -> ~ In (lower unit) freq_units ->
        freqToHz value unit = value /\ freqToMhz value unit = value).
Proof.
  unfold freqToHz, freqToMhz, freq_units. cbn [In].
  destruct (String.eqb (lower unit) "hz") eqn:E1;
  destruct (String.eqb (lower unit) "khz") eqn:E2;
  destruct (String.eqb (lower unit) "k") eqn:E3;
  destruct (String.eqb (lower unit) "mhz") eqn:E4;
  destruct (String.eqb (lower unit) "m") eqn:E5;
  destruct (String.eqb (lower unit) "ghz") eqn:E6;
  destruct (String.eqb (lower unit) "g") eqn:E7;
  cbn [orb];
  repeat match goal with
         | H : String.eqb _ _ = true |- _ => apply String.eqb_eq in H
         | H : String.eqb _ _ = false |- _ => apply String.eqb_neq in H
         end;
  (split; [intros H; try lra | intros _ H; try (exfalso; apply H; auto 10; fail)]);
  try (split; reflexivity);
  exfalso; intuition congruence.
Qed.

Lemma freq_conversions_agree_witness :
  freqToHz 146.52 "MHz" = freqToMhz 146.52 "MHz" * 1e6
  /\ freqToHz 7 "cycles" = 7 /\ freqToMhz 7 "cycles" = 7.
Proof.
  split.
  - apply (proj1 (freq_conversions_agree 146.52 "MHz")). cbn. auto 10.
  - apply (proj2 (freq_conversions_agree 7 "cycles")); [reflexivity|]. cbn.
    intuition discriminate.
Defined.

Lemma powerToDbm_W value :
  powerToDbm value "W"
  = if Rltb 0 value then l <- log10 (value * 1000.0) ;; OK (10 * l) else OK (-300).
Proof. reflexivity. Qed.

Lemma powerToDbm_mW value :
  powerToDbm value "mW"
  = if Rltb 0 value then l <- log10 value ;; OK (10 * l) else OK (-300).
Proof. reflexivity. Qed.






Lemma powerToDbm_total value unit : exists d, powerToDbm value unit = OK d.
Proof.
  unfold powerToDbm.
  destruct (String.eqb (lower unit) "dbm"); [eauto|].
  destruct (String.eqb (lower unit) "w").
  { destruct (Rlt_dec 0 value) as [H | H].
    - rewrite (Rltb_true _ _ H), log10_ok by lra. cbn. eauto.
    - rewrite Rltb_false by lra. eauto. }
  destruct (String.eqb (lower unit) "mw"); [|eauto].
  destruct (Rlt_dec 0 value) as [H | H].
  - rewrite (Rltb_true _ _ H), log10_ok by lra. cbn. eauto.
  - rewrite Rltb_false by lra. eauto.
Qed.

(** X3. [powerToDbm] never raises, whatever the value and the unit text: a
    power of zero or less in W or mW becomes the sentinel -300 dBm, and
    [dbmToWatts] turns that sentinel into 10^-33 W. *)
Theorem power_sentinel :
  (forall value unit, exists d, powerToDbm value unit = OK d)
  /\ (forall value, value <= 0 ->
        powerToDbm value "W" = OK (-300) /\ powerToDbm value "mW" = OK (-300))
  /\ dbmToWatts (-300) = pow10 (-33).
Proof.
  split; [exact powerToDbm_total|]. split.
  - intros value H. rewrite powerToDbm_W, powerToDbm_mW.
    now rewrite (Rltb_false 0 value H).
  - unfold dbmToWatts. f_equal. lra.
Qed.

Lemma power_sentinel_witness :
  powerToDbm 0 "W" = OK (-300) /\ powerToDbm 0 "mW" = OK (-300).
Proof. apply (proj1 (proj2 power_sentinel) 0). lra. Defined.

(* ================================================================= *)
(** ** Free-space path loss and the link budget *)

Lemma fspl_value d f :
  0 < d -> 0 < f ->
  fspl d f = OK (20 * (ln d / ln 10) + 20 * (ln f / ln 10) + 32.44).
Proof.
  intros Hd Hf. unfold fspl.
  rewrite (Rleb_false d 0 Hd), (Rleb_false f 0 Hf). cbn [orb].
  now rewrite (log10_ok d Hd), (log10_ok f Hf).
Qed.

Lemma fspl_domain_error d f :
  d <= 0 \/ f <= 0 ->
  fspl d f = Err (ValueError "Distance and frequency must be positive.").
Proof.
  intros [H | H]; unfold fspl.
  - now rewrite (Rleb_true d 0 H).
  - rewrite (Rleb_true f 0 H). now rewrite orb_true_r.
Qed.

Lemma log_ratio_lt x y : 0 < x -> x < y -> ln x / ln 10 < ln y / ln 10.
Proof.
  intros Hx Hxy. pose proof ln10_pos. pose proof (ln_increasing x y Hx Hxy).
  apply Rmult_lt_compat_r; [apply Rinv_0_lt_compat; lra | lra].
Qed.

(** X4. On its domain the path loss is strictly increasing in the distance
    and strictly increasing in the frequency. *)
Theorem fspl_strictly_increasing :
  (forall d1 d2 f, 0 < d1 -> d1 < d2 -> 0 < f ->
     exists a b, fspl d1 f = OK a /\ fspl d2 f = OK b /\ a < b)
  /\ (forall d f1 f2, 0 < d -> 0 < f1 -> f1 < f2 ->
        exists a b, fspl d f1 = OK a /\ fspl d f2 = OK b /\ a < b).
Proof.
  split.
  - intros d1 d2 f H1 H12 Hf.
    rewrite !fspl_value by lra. do 2 eexists. do 2 (split; [reflexivity|]).
    pose proof (log_ratio_lt d1 d2 H1 H12). lra.
  - intros d f1 f2 Hd H1 H12.
    rewrite !fspl_value by lra. do 2 eexists. do 2 (split; [reflexivity|]).
    pose proof (log_ratio_lt f1 f2 H1 H12). lra.
Qed.

Lemma fspl_strictly_increasing_witness :
  exists a b, fspl 1 433 = OK a /\ fspl 10 433 = OK b /\ a < b.
Proof. apply (proj1 fspl_strictly_increasing 1 10 433); lra. Defined.

(** X5. Scaling the distance (or the frequency) by [k > 0] adds
    20 log10(k) dB to the path loss: ten times the distance is exactly
    20 dB more, and the loss depends on distance and frequency only
    through their product. *)
Theorem fspl_scaling :
  (forall k d f, 0 < k -> 0 < d -> 0 < f ->
     exists a, fspl d f = OK a
               /\ fspl (k * d) f = OK (a + 20 * (ln k / ln 10))
               /\ fspl d (k * f) = OK (a + 20 * (ln k / ln 10)))
  /\ (forall d f, 0 < d -> 0 < f ->
        exists a, fspl d f = OK a /\ fspl (10 * d) f = OK (a + 20))
  /\ (forall d f d' f', 0 < d -> 0 < f -> 0 < d' -> 0 < f' ->
        d * f = d' * f' -> fspl d f = fspl d' f').
Proof.
  assert (Hk : forall k d f, 0 < k -> 0 < d -> 0 < f ->
     exists a, fspl d f = OK a
               /\ fspl (k * d) f = OK (a + 20 * (ln k / ln 10))
               /\ fspl d (k * f) = OK (a + 20 * (ln k / ln 10))).
  { intros k d f Hk Hd Hf. pose proof ln10_pos.
    assert (0 < k * d) by now apply Rmult_lt_0_compat.
    assert (0 < k * f) by now apply Rmult_lt_0_compat.
    rewrite !fspl_value by lra. eexists. split; [reflexivity|].
    rewrite !ln_mult by lra. split; f_equal; field; lra. }
  split; [exact Hk|]. split.
  - intros d f Hd Hf.
    destruct (Hk 10 d f ltac:(lra) Hd Hf) as (a & Ha & H10 & _).
    exists a. split; [exact Ha|]. rewrite H10. pose proof ln10_pos.
    do 2 f_equal. field. lra.
  - intros d f d' f' Hd Hf Hd' Hf' E. pose proof ln10_pos.
    rewrite !fspl_value by lra. f_equal.
    assert (El : ln d + ln f = ln d' + ln f').
    { rewrite <- !ln_mult by lra. now rewrite E. }
    replace (20 * (ln d / ln 10) + 20 * (ln f / ln 10))
      with (20 * ((ln d + ln f) / ln 10)) by (field; lra).
    rewrite El. field. lra.
Qed.

Lemma fspl_scaling_witness :
  exists a, fspl 3 433 = OK a /\ fspl (10 * 3) 433 = OK (a + 20).
Proof. apply (proj1 (proj2 fspl_scaling) 3 433); lra. Defined.

Lemma freqToMhz_sign value unit :
  (0 < value -> 0 < freqToMhz value unit)
  /\ (value <= 0 -> freqToMhz value unit <= 0).
Proof.
  unfold freqToMhz.
  destruct (String.eqb (lower unit) "hz");
  [|destruct (String.eqb (lower unit) "khz" || String.eqb (lower unit) "k");
    [|destruct (String.eqb (lower unit) "mhz" || String.eqb (lower unit) "m");
      [|destruct (String.eqb (lower unit) "ghz" || String.eqb (lower unit) "g")]]];
  split; intros; lra.
Qed.

Lemma freqToHz_sign value unit :
  (0 < value -> 0 < freqToHz value unit)
  /\ (value <= 0 -> freqToHz value unit <= 0).
Proof.
  unfold freqToHz.
  destruct (String.eqb (lower unit) "hz");
  [|destruct (String.eqb (lower unit) "khz" || String.eqb (lower unit) "k");
    [|destruct (String.eqb (lower unit) "mhz" || String.eqb (lower unit) "m");
      [|destruct (String.eqb (lower unit) "ghz" || String.eqb (lower unit) "g")]]];
  split; intros; lra.
Qed.

Lemma distToKm_sign value unit :
  (0 < value -> 0 < distToKm value unit)
  /\ (value <= 0 -> distToKm value unit <= 0).
Proof.
  unfold distToKm.
  destruct (String.eqb (lower unit) "km");
  [|destruct (String.eqb (lower unit) "m");
    [|destruct (String.eqb (lower unit) "mi");
      [|destruct (String.eqb (lower unit) "ft")]]];
  split; intros; lra.
Qed.

Lemma pow10_le_1 x : x <= 0 -> pow10 x <= 1.
Proof.
  intros H. destruct (Req_dec x 0) as [-> | Hne].
  - rewrite pow10_zero. lra.
  - rewrite <- pow10_zero. left. apply pow10_lt. lra.
Qed.

Lemma pow10_le x y : x <= y -> pow10 x <= pow10 y.
Proof.
  intros [H | ->]; [left; now apply pow10_lt | right; reflexivity].
Qed.

Lemma pow10_minus_5 : pow10 (-5) = 0.00001.
Proof.
  assert (E5 : pow10 5 = 100000).
  { unfold pow10. replace 5 with (INR 5) by (simpl; lra).
    rewrite Rpower_pow by lra. simpl. lra. }
  assert (E : pow10 (-5) * pow10 5 = 1).
  { rewrite <- pow10_plus, <- pow10_zero. f_equal. lra. }
  rewrite E5 in E. lra.
Qed.

Lemma availability_nonneg_margin m :
  0 <= m ->
  availability m = Rmax 0 (Rmin (1 - pow10 (- m / 10)) 0.99999).
Proof.
  intros H. unfold availability. rewrite Rltb_false by lra.
  rewrite py_max_Rmax, py_min_Rmin.
  replace 0.0 with 0 by lra. replace (- m / 10.0) with (- m / 10) by lra.
  reflexivity.
Qed.

(** X6. The availability estimate of the link budget lies in
    [0, 0.99999]; it is 0 exactly when the margin is not positive, grows
    with the margin, and is capped at 0.99999 exactly from a margin of
    50 dB upwards. *)
Theorem availability_range :
  (forall m, 0 <= availability m <= 0.99999)
  /\ (forall m, availability m = 0 <-> m <= 0)
  /\ (forall m m', m <= m' -> availability m <= availability m')
  /\ (forall m, availability m = 0.99999 <-> 50 <= m).
Proof.
  assert (Hneg : forall m, m < 0 -> availability m = 0).
  { intros m H. unfold availability. rewrite Rltb_true by lra. lra. }
  assert (Hval : forall m, 0 <= m ->
            0 < pow10 (- m / 10) <= 1
            /\ availability m = Rmin (1 - pow10 (- m / 10)) 0.99999).
  { intros m H. pose proof (pow10_pos (- m / 10)).
    pose proof (pow10_le_1 (- m / 10) ltac:(lra)).
    split; [lra|]. rewrite availability_nonneg_margin by exact H.
    apply Rmax_right. apply Rmin_glb; lra. }
  split; [|split; [|split]].
  - intros m. destruct (Rlt_dec m 0) as [H | H].
    + rewrite Hneg by exact H. lra.
    + destruct (Hval m ltac:(lra)) as [Hp ->].
      pose proof (Rmin_r (1 - pow10 (- m / 10)) 0.99999).
      assert (0 <= Rmin (1 - pow10 (- m / 10)) 0.99999) by (apply Rmin_glb; lra).
      lra.
  - intros m. split.
    + intros E. destruct (Rle_dec m 0) as [H | H]; [exact H|]. exfalso.
      destruct (Hval m ltac:(lra)) as [Hp Ha]. rewrite Ha in E.
      assert (Hlt : pow10 (- m / 10) < 1).
      { rewrite <- pow10_zero. apply pow10_lt. lra. }
      unfold Rmin in E. destruct (Rle_dec _ _); lra.
    + intros H. destruct (Rlt_dec m 0) as [Hlt | Hge]; [now apply Hneg|].
      assert (m = 0) by lra. subst m.
      destruct (Hval 0 ltac:(lra)) as [_ ->].
      replace (- 0 / 10) with 0 by lra. rewrite pow10_zero.
      unfold Rmin. destruct (Rle_dec _ _); lra.
  - intros m m' Hle.
    destruct (Rlt_dec m 0) as [H | H].
    + rewrite (Hneg m H).
      destruct (Rlt_dec m' 0) as [H' | H']; [rewrite (Hneg m' H'); lra|].
      destruct (Hval m' ltac:(lra)) as [Hp ->]. apply Rmin_glb; lra.
    + destruct (Hval m ltac:(lra)) as [_ ->].
      destruct (Hval m' ltac:(lra)) as [_ ->].
      pose proof (pow10_le (- m' / 10) (- m / 10) ltac:(lra)).
      apply Rle_min_compat_r. lra.
  - intros m. split.
    + intros E. destruct (Rle_dec 50 m) as [H | H]; [exact H|]. exfalso.
      destruct (Rlt_dec m 0) as [Hlt | Hge]; [rewrite Hneg in E by exact Hlt; lra|].
      destruct (Hval m ltac:(lra)) as [_ Ha]. rewrite Ha in E.
      assert (Hlt : pow10 (-5) < pow10 (- m / 10)) by (apply pow10_lt; lra).
      rewrite pow10_minus_5 in Hlt.
      unfold Rmin in E. destruct (Rle_dec _ _); lra.
    + intros H. destruct (Hval m ltac:(lra)) as [_ ->].
      pose proof (pow10_le (- m / 10) (-5) ltac:(lra)) as Hle.
      rewrite pow10_minus_5 in Hle.
      apply Rmin_right. lra.
Qed.

Lemma availability_range_witness :
  availability 3 <= availability 60 /\ availability 60 = 0.99999.
Proof.
  split.
  - apply (proj1 (proj2 (proj2 availability_range)) 3 60). lra.
  - apply (proj2 (proj2 (proj2 availability_range)) 60). lra.
Defined.


(** In exact arithmetic the link budget returns whenever the frequency
    value and the distance value are positive. *)
Lemma calculate_rf_exact (i : RfInput) :
  0 < rf_freq_val i -> 0 < rf_dist_val i ->
  exists p lfs,
    powerToDbm (rf_ptx_val i) (rf_ptx_unit i) = OK p
    /\ fspl (distToKm (rf_dist_val i) (rf_dist_unit i))
            (freqToMhz (rf_freq_val i) (rf_freq_unit i)) = OK lfs
    /\ calculate_rf i
       = OK (mkRf p (freqToMhz (rf_freq_val i) (rf_freq_unit i))
                  (distToKm (rf_dist_val i) (rf_dist_unit i)) lfs
                  (p + rf_gtx i - rf_ltx i - lfs + rf_grx i - rf_lrx i
                   - rf_misc_loss i)
                  (dbmToWatts (p + rf_gtx i - rf_ltx i - lfs + rf_grx i
                               - rf_lrx i - rf_misc_loss i))
                  (p + rf_gtx i - rf_ltx i - lfs + rf_grx i - rf_lrx i
                   - rf_misc_loss i - rf_sensitivity_dbm i)
                  (availability (p + rf_gtx i - rf_ltx i - lfs + rf_grx i
                                 - rf_lrx i - rf_misc_loss i
                                 - rf_sensitivity_dbm i))).
Proof.
  intros Hf Hd.
  destruct (powerToDbm_total (rf_ptx_val i) (rf_ptx_unit i)) as (p & Hp).
  pose proof (proj1 (freqToMhz_sign (rf_freq_val i) (rf_freq_unit i)) Hf) as Hf'.
  pose proof (proj1 (distToKm_sign (rf_dist_val i) (rf_dist_unit i)) Hd) as Hd'.
  do 2 eexists. split; [exact Hp|]. split; [now apply fspl_value|].
  unfold calculate_rf. rewrite Hp. cbn [bind].
  rewrite (fspl_value _ _ Hd' Hf'). reflexivity.
Qed.

Lemma calculate_rf_value_error (i : RfInput) :
  rf_freq_val i <= 0 \/ rf_dist_val i <= 0 ->
  calculate_rf i = Err (ValueError "Distance and frequency must be positive.").
Proof.
  intros H.
  destruct (powerToDbm_total (rf_ptx_val i) (rf_ptx_unit i)) as (p & Hp).
  unfold calculate_rf. rewrite Hp. cbn [bind].
  rewrite fspl_domain_error; [reflexivity|].
  destruct H as [H | H].
  - right. now apply freqToMhz_sign.
  - left. now apply distToKm_sign.
Qed.

(** X7. The link budget fails with the [ValueError] of [fspl] whenever the
    frequency value or the distance value is zero or less, whatever the
    unit texts and the transmit power (a power of zero watts included): the
    power conversion never fails first.  A result is returned only when
    both values are positive, and in it the path loss is [fspl] of the
    converted distance and frequency, the received power is the transmit
    power plus the gains minus the losses, the margin is the received power
    minus the sensitivity, the availability is the estimate of that margin
    and the power in watts is [dbmToWatts] of the received power. *)
Theorem calculate_rf_domain (i : RfInput) :
  (rf_freq_val i <= 0 \/ rf_dist_val i <= 0 ->
     calculate_rf i
     = Err (ValueError "Distance and frequency must be positive."))
  /\ (forall r, calculate_rf i = OK r ->
        0 < rf_freq_val i /\ 0 < rf_dist_val i
        /\ powerToDbm (rf_ptx_val i) (rf_ptx_unit i) = OK (rf_ptx_dbm r)
        /\ rf_freqMhz r = freqToMhz (rf_freq_val i) (rf_freq_unit i)
        /\ rf_distanceKm r = distToKm (rf_dist_val i) (rf_dist_unit i)
        /\ fspl (rf_distanceKm r) (rf_freqMhz r) = OK (rf_lfs r)
        /\ rf_prx_dbm r = rf_ptx_dbm r + rf_gtx i - rf_ltx i - rf_lfs r
                          + rf_grx i - rf_lrx i - rf_misc_loss i
        /\ rf_margin r = rf_prx_dbm r - rf_sensitivity_dbm i
        /\ rf_avail r = availability (rf_margin r)
        /\ rf_prx_watts r = dbmToWatts (rf_prx_dbm r)).
Proof.
  split; [apply calculate_rf_value_error|].
  intros r Hr.
  destruct (Rle_dec (rf_freq_val i) 0) as [Hf | Hf].
  { rewrite calculate_rf_value_error in Hr by now left. discriminate. }
  destruct (Rle_dec (rf_dist_val i) 0) as [Hd | Hd].
  { rewrite calculate_rf_value_error in Hr by now right. discriminate. }
  destruct (calculate_rf_exact i ltac:(lra) ltac:(lra)) as (p & lfs & Hp & Hl & Hc).
  rewrite Hc in Hr. injection Hr as <-. cbn.
  repeat split; auto; lra.
Qed.

Lemma calculate_rf_domain_witness :
  calculate_rf (mkRfInput 10 "W" 2 2 1 1 433 "MHz" 0 "km" 0 (-110))
  = Err (ValueError "Distance and frequency must be positive.")
  /\ exists r,
       calculate_rf (mkRfInput 0 "W" 2 2 1 1 433 "MHz" 10 "km" 0 (-110)) = OK r
       /\ rf_margin r = rf_prx_dbm r - (-110).
Proof.
  split.
  - apply (proj1 (calculate_rf_domain
                    (mkRfInput 10 "W" 2 2 1 1 433 "MHz" 0 "km" 0 (-110)))).
    right. cbn. lra.
  - destruct (calculate_rf_exact
                (mkRfInput 0 "W" 2 2 1 1 433 "MHz" 10 "km" 0 (-110)))
      as (p & lfs & _ & _ & Hc); [cbn; lra | cbn; lra |].
    eexists. split; [exact Hc|].
    apply (proj2 (calculate_rf_domain
                    (mkRfInput 0 "W" 2 2 1 1 433 "MHz" 10 "km" 0 (-110))) _ Hc).
Defined.

(* ================================================================= *)
(** ** More on the coax interpolation *)

Lemma adjacent_no_between f1 f2 l k :
  StronglySorted Z.lt l -> adjacent f1 f2 l -> In k l ->
  ~ (f1 < k < f2)%Z.
Proof.
  induction 1 as [|a l Hs IH Hall]; intros Hadj Hk.
  - contradiction.
  - rewrite Forall_forall in Hall.
    apply adjacent_cons_inv in Hadj as [(q & -> & ->) | Hadj].
    + inversion Hs as [|? ? Hs' Hall']; subst. rewrite Forall_forall in Hall'.
      destruct Hk as [<- | [<- | Hk]]; try lia.
      specialize (Hall' k Hk). lia.
    + destruct Hk as [<- | Hk]; [|now apply IH].
      destruct (adjacent_in _ _ _ Hadj) as [Hin1 _].
      specialize (Hall f1 Hin1). lia.
Qed.

Lemma coax_loss_key db coax_type points k l :
  dict_get String.eqb db coax_type = Some points ->
  table_ok points ->
  dict_get Z.eqb points k = Some l ->
  In k (keys points) ->
  coax_loss_in db coax_type (IZR k) = OK l.
Proof.
  intros Hget [Hne Hnd] Hk Hin.
  destruct (coax_loss_table db coax_type points (IZR k) Hget Hne Hnd)
    as (fmin & fmax & lmin & lmax & _ & _ & (_ & _ & Hb) & Hlmin & Hlmax
        & Hlow & Hhigh & Hmid).
  destruct (Hb k Hin) as [Hk1 Hk2].
  destruct (Z.eq_dec k fmin) as [-> | Hn1].
  { rewrite Hlow by lra. congruence. }
  destruct (Z.eq_dec k fmax) as [-> | Hn2].
  { rewrite Hhigh by lra. congruence. }
  assert (Hbetween : IZR fmin < IZR k < IZR fmax) by (split; apply IZR_lt; lia).
  destruct (Hmid Hbetween) as [(f1 & f2 & Hadj & Hbr) Hval].
  pose proof (sorted_ascending _ Hnd) as Hasc.
  pose proof (sorted_perm (keys points)) as Hperm.
  assert (Hks : In k (sorted (keys points))).
  { eapply Permutation_in; [symmetry; exact Hperm | exact Hin]. }
  pose proof (adjacent_no_between _ _ _ k Hasc Hadj Hks) as Hnb.
  pose proof (adjacent_lt _ _ _ Hasc Hadj) as Hlt.
  destruct (adjacent_in _ _ _ Hadj) as [Hin1 Hin2].
  destruct (dict_get_in points f1) as (l1 & Hl1 & _);
    [eapply Permutation_in; eassumption|].
  destruct (dict_get_in points f2) as (l2 & Hl2 & _);
    [eapply Permutation_in; eassumption|].
  rewrite (Hval f1 f2 l1 l2 Hadj Hbr Hl1 Hl2).
  destruct Hbr as [Hb1 Hb2]. apply le_IZR in Hb1, Hb2.
  assert (Hcase : k = f1 \/ k = f2) by lia.
  destruct Hcase as [-> | ->].
  - rewrite lerp_left. congruence.
  - rewrite lerp_right by exact Hlt. congruence.
Qed.

(** X8. At a frequency equal to a key of the table the interpolator returns
    exactly that key's loss value, for every well-formed table (hence for
    every cable of [COAX_DB]). *)
Theorem coax_loss_at_key :
  (forall db coax_type points k l,
      dict_get String.eqb db coax_type = Some points ->
      table_ok points ->
      dict_get Z.eqb points k = Some l ->
      coax_loss_in db coax_type (IZR k) = OK l)
  /\ (forall coax_type points k l,
        dict_get String.eqb COAX_DB coax_type = Some points ->
        dict_get Z.eqb points k = Some l ->
        coax_loss_db_per_100ft coax_type (IZR k) = OK l).
Proof.
  assert (Hin : forall (points : list (Z * R)) k l,
             dict_get Z.eqb points k = Some l -> In k (keys points)).
  { intros points k l. unfold dict_get, keys.
    induction points as [|[k' v'] ps IH]; cbn; [discriminate|].
    destruct (Z.eqb k' k) eqn:E.
    - apply Z.eqb_eq in E. auto.
    - intros H. right. now apply IH. }
  split.
  - intros db coax_type points k l Hget Hok Hk.
    eapply coax_loss_key; eauto.
  - intros coax_type points k l Hget Hk.
    eapply coax_loss_key; eauto. now apply (COAX_DB_tables_ok coax_type).
Qed.

Lemma coax_loss_at_key_witness :
  coax_loss_db_per_100ft "LMR-400"%string (IZR 450) = OK 1.5.
Proof.
  apply (proj2 coax_loss_at_key "LMR-400"%string
           [(50%Z, 0.3); (150%Z, 0.7); (450%Z, 1.5); (900%Z, 2.3); (1500%Z, 3.0)]);
    reflexivity.
Defined.

Lemma lerp_mono l1 l2 f1 f2 f f' :
  (f1 < f2)%Z -> l1 <= l2 -> f <= f' ->
  lerp l1 l2 f1 f2 f <= lerp l1 l2 f1 f2 f'.
Proof.
  intros H Hl Hf. apply IZR_lt in H. unfold lerp.
  apply Rplus_le_compat_l. apply Rmult_le_compat_r; [lra|].
  unfold Rdiv. apply Rmult_le_compat_r; [|lra].
  left. apply Rinv_0_lt_compat. lra.
Qed.

Lemma lerp_bounds l1 l2 f1 f2 f :
  (f1 < f2)%Z -> l1 <= l2 -> IZR f1 <= f <= IZR f2 ->
  l1 <= lerp l1 l2 f1 f2 f <= l2.
Proof.
  intros H Hl Hf. pose proof (lerp_between l1 l2 f1 f2 f H Hf) as Hb.
  rewrite Rmin_left, Rmax_right in Hb by exact Hl. exact Hb.
Qed.

Lemma scan_bracket_sorted (points : list (Z * R)) g fmin fmax :
  hd_error (sorted (keys points)) = Some fmin ->
  last (sorted (keys points)) 0%Z = fmax ->
  IZR fmin < g < IZR fmax ->
  exists f1 f2, adjacent f1 f2 (sorted (keys points)) /\ IZR f1 <= g <= IZR f2.
Proof.
  intros Hhd Hlast Hg.
  destruct (sorted (keys points)) as [|a l]; [discriminate|].
  injection Hhd as ->. subst fmax.
  apply scan_bracket; [lra|]. intros ->. cbn in Hg. lra.
Qed.

Lemma coax_table_monotone db coax_type points f f' :
  dict_get String.eqb db coax_type = Some points ->
  table_ok points ->
  table_increasing points ->
  f <= f' ->
  exists v v',
    coax_loss_in db coax_type f = OK v
    /\ coax_loss_in db coax_type f' = OK v'
    /\ v <= v'.
Proof.
  intros Hget [Hne Hnd] Hinc Hff.
  pose proof (sorted_ascending _ Hnd) as Hasc.
  pose proof (sorted_perm (keys points)) as Hperm.
  destruct (coax_loss_table db coax_type points f Hget Hne Hnd)
    as (fmin & fmax & lmin & lmax & Hhd & Hlast & (Hinmin & Hinmax & Hb)
        & Hlmin & Hlmax & Hlow & Hhigh & Hmid).
  destruct (coax_loss_table db coax_type points f' Hget Hne Hnd)
    as (fmin' & fmax' & lmin' & lmax' & Hhd' & Hlast' & _
        & Hlmin' & Hlmax' & Hlow' & Hhigh' & Hmid').
  rewrite Hlast in Hlast'. subst fmax'.
  assert (fmin' = fmin) by congruence. subst fmin'.
  assert (lmin' = lmin) by congruence. assert (lmax' = lmax) by congruence.
  subst lmin' lmax'.
  (* a bracketed value lies between the losses of the extreme keys *)
  assert (Hpair : forall g, IZR fmin < g < IZR fmax ->
            exists f1 f2 l1 l2,
              adjacent f1 f2 (sorted (keys points))
              /\ IZR f1 <= g <= IZR f2 /\ (f1 < f2)%Z
              /\ dict_get Z.eqb points f1 = Some l1
              /\ dict_get Z.eqb points f2 = Some l2
              /\ l1 <= l2 /\ lmin <= l1 /\ l2 <= lmax
              /\ In f1 (sorted (keys points)) /\ In f2 (sorted (keys points))).
  { intros g Hg.
    destruct (scan_bracket_sorted points g fmin fmax) as (f1 & f2 & Hadj & Hbr);
      auto.
    destruct (adjacent_in _ _ _ Hadj) as [Hin1 Hin2].
    pose proof (adjacent_lt _ _ _ Hasc Hadj) as Hlt.
    assert (Hk1 : In f1 (keys points)) by (eapply Permutation_in; eassumption).
    assert (Hk2 : In f2 (keys points)) by (eapply Permutation_in; eassumption).
    destruct (dict_get_in points f1 Hk1) as (l1 & Hl1 & _).
    destruct (dict_get_in points f2 Hk2) as (l2 & Hl2 & _).
    exists f1, f2, l1, l2.
    repeat match goal with |- _ /\ _ => split end; auto; try apply Hbr.
    - apply (Hinc f1 f2); auto. lia.
    - apply (Hinc fmin f1); auto. apply Hb; auto.
    - apply (Hinc f2 fmax); auto. apply Hb; auto. }
  destruct (Rle_dec f (IZR fmin)) as [Hf1 | Hf1].
  { (* f is clamped to the first key *)
    exists lmin. rewrite (Hlow Hf1).
    destruct (Rle_dec f' (IZR fmin)) as [Hg1 | Hg1].
    { exists lmin. rewrite (Hlow' Hg1). repeat split; lra. }
    destruct (Rle_dec (IZR fmax) f') as [Hg2 | Hg2].
    { exists lmax. rewrite (Hhigh' Hg2). repeat split; auto.
      apply (Hinc fmin fmax); auto. apply Hb; auto. }
    destruct (Hpair f' ltac:(lra))
      as (f1 & f2 & l1 & l2 & Hadj & Hbr & Hlt & Hl1 & Hl2 & Hl12 & Hlo & Hhi & _).
    destruct (Hmid' ltac:(lra)) as [_ Hval'].
    exists (lerp l1 l2 f1 f2 f'). rewrite (Hval' _ _ _ _ Hadj Hbr Hl1 Hl2).
    repeat split; auto.
    pose proof (lerp_bounds l1 l2 f1 f2 f' Hlt Hl12 Hbr). lra. }
  destruct (Rle_dec (IZR fmax) f) as [Hf2 | Hf2].
  { exists lmax, lmax. rewrite (Hhigh Hf2), (Hhigh' ltac:(lra)).
    repeat split; lra. }
  destruct (Hpair f ltac:(lra))
    as (f1 & f2 & l1 & l2 & Hadj & Hbr & Hlt & Hl1 & Hl2 & Hl12 & Hlo & Hhi
        & Hin1 & Hin2).
  destruct (Hmid ltac:(lra)) as [_ Hval].
  exists (lerp l1 l2 f1 f2 f). rewrite (Hval _ _ _ _ Hadj Hbr Hl1 Hl2).
  pose proof (lerp_bounds l1 l2 f1 f2 f Hlt Hl12 Hbr) as Hv.
  destruct (Rle_dec (IZR fmax) f') as [Hg2 | Hg2].
  { exists lmax. rewrite (Hhigh' Hg2). repeat split; auto. lra. }
  destruct (Hpair f' ltac:(lra))
    as (g1 & g2 & m1 & m2 & Hadj' & Hbr' & Hlt' & Hm1 & Hm2 & Hm12 & _ & _
        & Hin1' & Hin2').
  destruct (Hmid' ltac:(lra)) as [_ Hval'].
  exists (lerp m1 m2 g1 g2 f'). rewrite (Hval' _ _ _ _ Hadj' Hbr' Hm1 Hm2).
  pose proof (lerp_bounds m1 m2 g1 g2 f' Hlt' Hm12 Hbr') as Hv'.
  repeat split; auto.
  destruct (Z_le_gt_dec f2 g1) as [Hle | Hgt].
  { pose proof (Hinc f2 g1 l2 m1 Hl2 Hm1 Hle). lra. }
  pose proof (adjacent_no_between _ _ _ g1 Hasc Hadj Hin1') as N1.
  pose proof (adjacent_no_between _ _ _ f2 Hasc Hadj' Hin2) as N2.
  pose proof (adjacent_no_between _ _ _ f1 Hasc Hadj' Hin1) as N3.
  pose proof (adjacent_no_between _ _ _ g2 Hasc Hadj Hin2') as N4.
  destruct (Z_le_gt_dec g2 f1) as [Hle' | Hgt'].
  { (* then f = f' *)
    apply IZR_le in Hle'. assert (E : f = f') by lra.
    rewrite <- E in Hval'.
    pose proof (Hval' _ _ _ _ Hadj' ltac:(rewrite E; exact Hbr') Hm1 Hm2) as E1.
    rewrite (Hval _ _ _ _ Hadj Hbr Hl1 Hl2) in E1.
    apply OK_inj in E1. rewrite E in E1 at 2. lra. }
  assert (g1 = f1) by lia. assert (g2 = f2) by lia. subst g1 g2.
  assert (m1 = l1) by congruence. assert (m2 = l2) by congruence. subst m1 m2.
  now apply lerp_mono.
Qed.

Ltac destruct_key H :=
  repeat match type of H with
         | context [Z.eqb ?a ?k] =>
             let E := fresh "E" in
             destruct (Z.eqb a k) eqn:E;
             [apply Z.eqb_eq in E | apply Z.eqb_neq in E];
             cbn [option_map snd find fst] in H
         end.

Lemma COAX_DB_tables_increasing coax_type points :
  dict_get String.eqb COAX_DB coax_type = Some points -> table_increasing points.
Proof.
  unfold COAX_DB, dict_get at 1. cbn [find fst].
  repeat (destruct (String.eqb _ coax_type);
          [ cbn [option_map snd]; intros H; injection H as <-;
            intros k k' l l' H1 H2 Hle;
            unfold dict_get in H1, H2; cbn [find fst] in H1, H2;
            destruct_key H1; try discriminate;
            destruct_key H2; try discriminate;
            injection H1 as <-; injection H2 as <-;
            first [ lra | exfalso; lia ]
          | ]).
  discriminate.
Qed.

(** X9. The attenuation of every cable never decreases with the frequency:
    for [f <= f'] the interpolator returns losses [v <= v'] (for an unknown
    cable both are 0).  The same holds over any database for every
    well-formed table whose loss values increase with its keys. *)
Theorem coax_loss_monotone :
  (forall coax_type f f', f <= f' ->
     exists v v',
       coax_loss_db_per_100ft coax_type f = OK v
       /\ coax_loss_db_per_100ft coax_type f' = OK v'
       /\ v <= v')
  /\ (forall db coax_type points f f',
        dict_get String.eqb db coax_type = Some points ->
        table_ok points -> table_increasing points -> f <= f' ->
        exists v v',
          coax_loss_in db coax_type f = OK v
          /\ coax_loss_in db coax_type f' = OK v'
          /\ v <= v').
Proof.
  split.
  - intros coax_type f f' Hff. unfold coax_loss_db_per_100ft.
    destruct (dict_get String.eqb COAX_DB coax_type) as [points|] eqn:Hget.
    + apply (coax_table_monotone COAX_DB coax_type points); auto.
      * now apply (COAX_DB_tables_ok coax_type).
      * now apply (COAX_DB_tables_increasing coax_type).
    + exists 0, 0. unfold coax_loss_in. rewrite Hget.
      replace 0.0 with 0 by lra. repeat split; lra.
  - intros. eapply coax_table_monotone; eauto.
Qed.

Lemma coax_loss_monotone_witness :
  exists v v',
    coax_loss_db_per_100ft "RG-58"%string 100 = OK v
    /\ coax_loss_db_per_100ft "RG-58"%string 440 = OK v'
    /\ v <= v'.
Proof. apply (proj1 coax_loss_monotone). lra. Defined.

(* ================================================================= *)
(** ** Feedline loss *)

Lemma fold_Rmin_in l a : In (fold_left Rmin l a) (a :: l).
Proof.
  revert a. induction l as [|x l IH]; intros a; cbn [fold_left].
  - now left.
  - destruct (IH (Rmin a x)) as [E | Hin].
    + rewrite <- E. unfold Rmin. destruct (Rle_dec a x); cbn; auto.
    + right. now right.
Qed.

Lemma fold_Rmax_in l a : In (fold_left Rmax l a) (a :: l).
Proof.
  revert a. induction l as [|x l IH]; intros a; cbn [fold_left].
  - now left.
  - destruct (IH (Rmax a x)) as [E | Hin].
    + rewrite <- E. unfold Rmax. destruct (Rle_dec a x); cbn; auto.
    + right. now right.
Qed.

Lemma COAX_DB_values coax_type points v :
  dict_get String.eqb COAX_DB coax_type = Some points ->
  In v (values points) -> 0.2 <= v <= 13.5.
Proof.
  unfold COAX_DB, dict_get. cbn [find fst].
  repeat (destruct (String.eqb _ coax_type);
          [ cbn [option_map snd]; intros H; injection H as <-;
            cbn [values map snd In]; intros Hin;
            repeat (destruct Hin as [<- | Hin]; [lra|]); contradiction
          | ]).
  discriminate.
Qed.

(** The attenuation per 100 ft of every cable, known or not, at every
    frequency. *)
Lemma coax_loss_bounds coax_type f :
  exists v, coax_loss_db_per_100ft coax_type f = OK v
    /\ 0 <= v <= 13.5
    /\ (dict_get String.eqb COAX_DB coax_type = None -> v = 0)
    /\ (dict_get String.eqb COAX_DB coax_type <> None -> 0.2 <= v).
Proof.
  destruct (dict_get String.eqb COAX_DB coax_type) as [points|] eqn:Hget.
  - destruct (coax_loss_in_range COAX_DB coax_type points f Hget
                (COAX_DB_tables_ok _ _ Hget)) as (v & Hv & _ & Hrange).
    pose proof (COAX_DB_tables_ok _ _ Hget) as [Hne _].
    assert (Hmin : 0.2 <= min_loss points <= 13.5).
    { apply (COAX_DB_values coax_type points _ Hget).
      unfold min_loss. destruct points as [|[k0 v0] ps]; [contradiction|].
      cbn [values map snd]. apply fold_Rmin_in. }
    assert (Hmax : 0.2 <= max_loss points <= 13.5).
    { apply (COAX_DB_values coax_type points _ Hget).
      unfold max_loss. destruct points as [|[k0 v0] ps]; [contradiction|].
      cbn [values map snd]. apply fold_Rmax_in. }
    exists v. unfold coax_loss_db_per_100ft. rewrite Hv.
    repeat split; try lra. discriminate.
  - exists 0. unfold coax_loss_db_per_100ft, coax_loss_in. rewrite Hget.
    replace 0.0 with 0 by lra. repeat split; try lra. congruence.
Qed.

(** X10. The feedline calculator never raises, whatever the cable and
    connector names, the units, the length and the connector count.  The
    total is the coax loss plus the connector loss; the coax loss is the
    attenuation per 100 ft (between 0 and 13.5 dB, at least 0.2 dB for a
    known cable) times length / 100, so for a length and a count that are
    not negative no loss is negative; an unknown cable contributes no loss
    and has velocity factor 0.66, an unknown connector contributes no
    loss. *)
Theorem calculate_coax_total (i : CoaxInput) :
  exists r, calculate_coax i = OK r
    /\ total_loss_db r = coax_loss_db r + connector_loss_db r
    /\ coax_loss_db r = cx_loss_100ft r * (cx_length_ft r / 100)
    /\ coax_loss_db_per_100ft (cx_type i) (cx_freq_mhz r) = OK (cx_loss_100ft r)
    /\ 0 <= cx_loss_100ft r <= 13.5
    /\ (dict_get String.eqb COAX_DB (cx_type i) <> None -> 0.2 <= cx_loss_100ft r)
    /\ (0 <= cx_len_val i -> (0 <= cx_conn_count i)%Z ->
        0 <= coax_loss_db r /\ 0 <= connector_loss_db r /\ 0 <= total_loss_db r)
    /\ (dict_get String.eqb COAX_DB (cx_type i) = None ->
        coax_loss_db r = 0 /\ cx_vf r = 0.66)
    /\ (dict_get String.eqb CONNECTOR_LOSS_DB (cx_conn_type i) = None ->
        connector_loss_db r = 0 /\ total_loss_db r = coax_loss_db r).
Proof.
  unfold calculate_coax.
  set (freq_mhz := if String.eqb (cx_freq_unit i) "GHz"
                   then cx_freq_val i * 1000.0 else cx_freq_val i).
  set (length_ft := if String.eqb (cx_len_unit i) "m"
                    then cx_len_val i * 3.28084 else cx_len_val i).
  destruct (coax_loss_bounds (cx_type i) freq_mhz) as (v & Hv & Hb & Hnone & Hsome).
  rewrite Hv. cbn [bind]. eexists. split; [reflexivity|].
  cbn [total_loss_db coax_loss_db connector_loss_db cx_loss_100ft cx_length_ft
       cx_freq_mhz cx_vf].
  assert (Hconn : 0 <= dict_get_default CONNECTOR_LOSS_DB (cx_conn_type i) 0.0).
  { unfold dict_get_default, CONNECTOR_LOSS_DB, dict_get. cbn [find fst].
    repeat (destruct (String.eqb _ (cx_conn_type i)); [cbn; lra|]). cbn. lra. }
  split; [reflexivity|]. split; [f_equal; lra|]. split; [exact Hv|].
  split; [exact Hb|]. split; [exact Hsome|]. split; [|split].
  - intros Hlen Hcount. apply IZR_le in Hcount.
    assert (Hl : 0 <= length_ft).
    { unfold length_ft. destruct (String.eqb (cx_len_unit i) "m"); lra. }
    assert (H1 : 0 <= v * (length_ft / 100.0)).
    { apply Rmult_le_pos; lra. }
    assert (H2 : 0 <= dict_get_default CONNECTOR_LOSS_DB (cx_conn_type i) 0.0
                      * IZR (cx_conn_count i)).
    { apply Rmult_le_pos; lra. }
    repeat split; lra.
  - intros Hn. rewrite (Hnone Hn). split; [lra|].
    unfold dict_get_default.
    assert (Hvf : dict_get String.eqb COAX_VF_DB (cx_type i) = None).
    { revert Hn. unfold COAX_DB, COAX_VF_DB, dict_get. cbn [find fst].
      repeat (destruct (String.eqb _ (cx_type i)); [discriminate|]).
      reflexivity. }
    now rewrite Hvf.
  - intros Hn. unfold dict_get_default. rewrite Hn. split; lra.
Qed.

Lemma calculate_coax_total_witness :
  exists r, calculate_coax (mkCoaxInput 146 "MHz" 50 "ft" "LMR-400" "N-Type" 2) = OK r
            /\ 0 <= total_loss_db r.
Proof.
  destruct (calculate_coax_total (mkCoaxInput 146 "MHz" 50 "ft" "LMR-400" "N-Type" 2))
    as (r & Hr & _ & _ & _ & _ & _ & Hpos & _).
  exists r. split; [exact Hr|]. apply Hpos; cbn; [lra | lia].
Defined.

(* ================================================================= *)
(** ** More on the Friis cascade *)

Lemma prod_gains stages a :
  fold_left Rmult (map linear_gain stages) a
  = a * pow10 (total_gain_db stages / 10).
Proof.
  revert a. induction stages as [|s l IH]; intros a.
  - cbn. replace (0 / 10) with 0 by lra. rewrite pow10_zero. lra.
  - cbn [map fold_left]. rewrite IH. unfold linear_gain.
    change (total_gain_db (s :: l)) with (g_db s + total_gain_db l).
    replace ((g_db s + total_gain_db l) / 10)
      with (g_db s / 10.0 + total_gain_db l / 10) by lra.
    rewrite pow10_plus. lra.
Qed.

Lemma calculate_friis_inv stages r :
  calculate_friis stages = OK r ->
  stages <> []
  /\ 0 < friis_formula (map noise_factor stages) (map linear_gain stages)
  /\ r = mkFriis (10 * (ln (_prod (map linear_gain stages)) / ln 10))
                 (friis_formula (map noise_factor stages) (map linear_gain stages))
                 (10 * (ln (friis_formula (map noise_factor stages)
                                          (map linear_gain stages)) / ln 10))
                 ((friis_formula (map noise_factor stages)
                                 (map linear_gain stages) - 1) * 290).
Proof.
  intros H.
  assert (Hne : stages <> []) by (intros ->; discriminate).
  destruct (Rlt_dec 0 (friis_formula (map noise_factor stages)
                                     (map linear_gain stages))) as [Hpos | Hneg].
  - split; [exact Hne|]. split; [exact Hpos|].
    rewrite (calculate_friis_ok stages Hne Hpos) in H. now injection H as <-.
  - rewrite calculate_friis_domain_error in H by (auto; lra). discriminate.
Qed.

(** X11. In every result of the cascade the total gain in dB is the sum of
    the stage gains in dB, the total noise factor is positive, and the
    noise figure and the noise temperature are derived from it as
    10 log10(F) and (F - 1) * 290. *)
Theorem friis_total_gain stages r :
  calculate_friis stages = OK r ->
  G_total_db r = total_gain_db stages
  /\ 0 < F_total r
  /\ NF_total_db r = 10 * (ln (F_total r) / ln 10)
  /\ T_total r = (F_total r - 1) * 290
  /\ F_total r = pow10 (NF_total_db r / 10).
Proof.
  intros H. destruct (calculate_friis_inv stages r H) as (Hne & Hpos & ->).
  cbn [G_total_db F_total NF_total_db T_total].
  split; [|split; [exact Hpos|split; [reflexivity|split; [reflexivity|]]]].
  - unfold _prod. rewrite prod_gains.
    replace (1.0 * pow10 (total_gain_db stages / 10))
      with (pow10 (total_gain_db stages / 10)) by lra.
    pose proof (log10_pow10 (total_gain_db stages / 10)). lra.
  - replace (10 * (ln (friis_formula (map noise_factor stages)
                                     (map linear_gain stages)) / ln 10) / 10)
      with (ln (friis_formula (map noise_factor stages)
                              (map linear_gain stages)) / ln 10) by lra.
    now rewrite pow10_log10.
Qed.

Lemma friis_total_gain_witness :
  exists r, calculate_friis [mkStage 10 0 290 true; mkStage 0 0 290 true] = OK r
            /\ G_total_db r = 10 + (0 + 0).
Proof.
  assert (F12 : friis_formula
                  (map noise_factor [mkStage 10 0 290 true; mkStage 0 0 290 true])
                  (map linear_gain [mkStage 10 0 290 true; mkStage 0 0 290 true])
                = 2.1).
  { unfold friis_formula, gain_before, linear_gain, noise_factor. cbn.
    rewrite pow10_1. lra. }
  eexists. split.
  - apply calculate_friis_ok; [discriminate | rewrite F12; lra].
  - match goal with
    | |- G_total_db ?r = _ =>
        apply (friis_total_gain [mkStage 10 0 290 true; mkStage 0 0 290 true] r)
    end.
    apply calculate_friis_ok; [discriminate | rewrite F12; lra].
Defined.

Lemma noise_factor_physical s : physical_stage s -> 1 <= noise_factor s.
Proof.
  unfold physical_stage, noise_factor. destruct (use_t s); intros H.
  - lra.
  - rewrite <- pow10_zero. apply pow10_le. lra.
Qed.

Lemma tail_sum_nonneg Fs : forall Gs gain_prod,
  0 < gain_prod ->
  Forall (fun F => 1 <= F) Fs ->
  Forall (fun g => 0 < g) Gs ->
  (List.length Fs <= List.length Gs)%nat ->
  0 <= tail_sum Fs Gs gain_prod.
Proof.
  induction Fs as [|Fi Fs IH]; intros Gs gp Hgp HF HG Hlen.
  - unfold tail_sum. cbn. lra.
  - destruct Gs as [|Gp Gs]; [cbn in Hlen; lia|].
    inversion HF as [|? ? HFi HFs]; subst.
    inversion HG as [|? ? HGp HGs]; subst.
    assert (Hpos : 0 < gp * Gp) by now apply Rmult_lt_0_compat.
    rewrite tail_sum_cons.
    assert (0 <= (Fi - 1) / (gp * Gp)).
    { apply Rmult_le_pos; [lra|]. left. now apply Rinv_0_lt_compat. }
    assert (0 <= tail_sum Fs Gs (gp * Gp)).
    { apply IH; auto. cbn in Hlen. lia. }
    lra.
Qed.


(** In exact arithmetic a non-empty cascade of physical stages returns. *)
Lemma friis_physical_exact stages :
  stages <> [] ->
  Forall physical_stage stages ->
  exists r, calculate_friis stages = OK r
    /\ hd 0 (map noise_factor stages) <= F_total r
    /\ 1 <= F_total r
    /\ 0 <= NF_total_db r
    /\ 0 <= T_total r.
Proof.
  intros Hne Hphys.
  destruct stages as [|s l]; [contradiction|].
  inversion Hphys as [|? ? Hs Hl]; subst.
  pose proof (noise_factor_physical s Hs) as H1.
  assert (Hsum : 0 <= tail_sum (map noise_factor l) (map linear_gain (s :: l)) 1).
  { apply tail_sum_nonneg.
    - lra.
    - clear -Hl. induction Hl; cbn; constructor; auto.
      now apply noise_factor_physical.
    - apply linear_gains_pos.
    - cbn. rewrite !length_map. lia. }
  assert (HF : friis_formula (map noise_factor (s :: l)) (map linear_gain (s :: l))
               = noise_factor s + tail_sum (map noise_factor l)
                                           (map linear_gain (s :: l)) 1).
  { cbn [map]. apply friis_formula_cons. }
  eexists. split.
  - apply calculate_friis_ok; [discriminate | rewrite HF; lra].
  - cbn [F_total NF_total_db T_total]. rewrite HF. cbn [map hd].
    set (Ft := noise_factor s + _) in *.
    assert (HFt : 1 <= Ft) by (unfold Ft; lra).
    pose proof ln10_pos.
    assert (0 <= ln Ft).
    { destruct HFt as [Hlt | <-]; [|rewrite ln_1; lra].
      left. rewrite <- ln_1. apply ln_increasing; lra. }
    assert (0 <= ln Ft / ln 10).
    { apply Rmult_le_pos; [lra|]. left. now apply Rinv_0_lt_compat. }
    split; [unfold Ft; lra|]. split; [exact HFt|]. split; lra.
Qed.

(** X12. In every result of a cascade whose stages are all physical
    (noise figure >= 0 dB, or noise temperature >= 0 K when the temperature
    is used) the total noise factor is at least the first stage's noise
    factor and at least 1, so the total noise figure and the equivalent
    noise temperature are not negative. *)
Theorem friis_physical_stages stages r :
  calculate_friis stages = OK r ->
  Forall physical_stage stages ->
  hd 0 (map noise_factor stages) <= F_total r
  /\ 1 <= F_total r
  /\ 0 <= NF_total_db r
  /\ 0 <= T_total r.
Proof.
  intros Hr Hphys.
  assert (Hne : stages <> []) by (intros ->; discriminate).
  destruct (friis_physical_exact stages Hne Hphys) as (r' & Hr' & H).
  rewrite Hr in Hr'. injection Hr' as <-. exact H.
Qed.

Lemma friis_physical_stages_witness :
  exists r, calculate_friis [mkStage 20 1 0 false; mkStage (-6) 6 0 false] = OK r
            /\ 1 <= F_total r.
Proof.
  destruct (friis_physical_exact [mkStage 20 1 0 false; mkStage (-6) 6 0 false])
    as (r & Hr & _).
  - discriminate.
  - repeat constructor; unfold physical_stage; cbn; lra.
  - exists r. split; [exact Hr|].
    apply (friis_physical_stages _ r Hr).
    repeat constructor; unfold physical_stage; cbn; lra.
Defined.

(** X13. A cascade of a single stage returns that stage's own figures: with
    a noise figure the total noise figure is the stage's noise figure and
    the total noise factor is 10^(NF/10); with a noise temperature above
    -290 K the equivalent noise temperature is the stage's temperature; in
    both cases the total gain is the stage's gain. *)
Theorem friis_single_stage :
  (forall g nf t,
     exists r, calculate_friis [mkStage g nf t false] = OK r
       /\ F_total r = pow10 (nf / 10)
       /\ NF_total_db r = nf
       /\ G_total_db r = g)
  /\ (forall g nf t, -290 < t ->
        exists r, calculate_friis [mkStage g nf t true] = OK r
          /\ F_total r = 1 + t / 290
          /\ T_total r = t
          /\ G_total_db r = g).
Proof.
  assert (HG : forall s, 10 * (ln (_prod (map linear_gain [s])) / ln 10) = g_db s).
  { intros s. unfold _prod. rewrite prod_gains. cbn [total_gain_db fold_right].
    replace (1.0 * pow10 ((g_db s + 0) / 10)) with (pow10 (g_db s / 10))
      by (replace ((g_db s + 0) / 10) with (g_db s / 10) by lra; lra).
    pose proof (log10_pow10 (g_db s / 10)). lra. }
  assert (HF : forall s, friis_formula (map noise_factor [s]) (map linear_gain [s])
                         = noise_factor s).
  { intros s. cbn [map]. rewrite friis_formula_cons. unfold tail_sum. cbn. lra. }
  split.
  - intros g nf t. set (s := mkStage g nf t false).
    pose proof (pow10_pos (nf / 10)) as Hpos.
    assert (E : noise_factor s = pow10 (nf / 10)).
    { unfold noise_factor, s. cbn. f_equal. lra. }
    eexists. split.
    + apply calculate_friis_ok; [discriminate | rewrite HF, E; exact Hpos].
    + cbn [F_total NF_total_db G_total_db]. rewrite HG, HF, E.
      split; [reflexivity|]. split; [|reflexivity].
      pose proof (log10_pow10 (nf / 10)). lra.
  - intros g nf t Ht. set (s := mkStage g nf t true).
    assert (E : noise_factor s = 1 + t / 290).
    { unfold noise_factor, s. cbn. lra. }
    eexists. split.
    + apply calculate_friis_ok; [discriminate | rewrite HF, E; lra].
    + cbn [F_total T_total G_total_db]. rewrite HG, HF, E.
      split; [reflexivity|]. split; [lra | reflexivity].
Qed.

Lemma friis_single_stage_witness :
  exists r, calculate_friis [mkStage 15 2 120 true] = OK r /\ T_total r = 120.
Proof.
  destruct (proj2 friis_single_stage 15 2 120) as (r & Hr & _ & HT & _); [lra|].
  exists r. split; [exact Hr | exact HT].
Defined.

(* ================================================================= *)
(** ** More on the Fresnel calculator *)

Lemma calculate_fresnel_pct_ok i :
  0 < fr_point_pct i < 100 ->
  calculate_fresnel i
  = (lam <- wavelengthMeters (fresnel_f_mhz i * 1e6) ;;
     let pct := fr_point_pct i / 100 in
     let d1_m := fresnel_d_km i * pct * 1000 in
     let d2_m := fresnel_d_km i * (1 - pct) * 1000 in
     q <- py_div (lam * d1_m * d2_m) (d1_m + d2_m) ;;
     r1 <- py_sqrt q ;;
     clearance_pct <-
       (if Rltb 0 r1 then
          o <- py_div (fr_obstacle_h i) r1 ;;
          OK (py_max 0.0 (py_min 100.0 ((1 - o) * 100.0)))
        else OK 0.0) ;;
     OK (mkFresnel (fresnel_f_mhz i) (fresnel_d_km i) pct
                   (fresnel_d_km i * pct) (fresnel_d_km i * (1 - pct))
                   lam r1 (fr_obstacle_h i) clearance_pct)).
Proof.
  intros Hp. unfold calculate_fresnel.
  replace (fr_freq_val i * 1000.0) with (fr_freq_val i * 1000) by lra.
  fold (fresnel_f_mhz i). fold (fresnel_d_km i).
  replace (fr_point_pct i / 100.0) with (fr_point_pct i / 100) by lra.
  rewrite (Rltb_true 0.0 (fr_point_pct i / 100)) by lra.
  rewrite (Rltb_true (fr_point_pct i / 100) 1.0) by lra.
  cbn [andb negb].
  replace (fresnel_d_km i * (fr_point_pct i / 100) * 1000.0)
    with (fresnel_d_km i * (fr_point_pct i / 100) * 1000) by lra.
  replace (fresnel_d_km i * (1 - fr_point_pct i / 100) * 1000.0)
    with (fresnel_d_km i * (1 - fr_point_pct i / 100) * 1000) by lra.
  reflexivity.
Qed.

Lemma fresnel_d_km_sign i :
  (fr_dist_val i = 0 -> fresnel_d_km i = 0)
  /\ (fr_dist_val i < 0 -> fresnel_d_km i < 0).
Proof. unfold fresnel_d_km. destruct (String.eqb _ _); split; intros; lra. Qed.

(** X14. The order of the checks in the Fresnel calculator: a query point
    outside (0, 100) is reported first, whatever the other inputs; with a
    valid point a frequency of zero or less fails with "Frequency must be
    positive."; with a valid point and a positive frequency a distance of
    zero raises ZeroDivisionError and a negative distance raises the math
    domain error of [sqrt]. *)
Theorem fresnel_error_order (i : FresnelInput) :
  (~ (0 < fr_point_pct i < 100) ->
     calculate_fresnel i
     = Err (ValueError "Point % must be between 0 and 100 (exclusive)."))
  /\ (0 < fr_point_pct i < 100 -> fr_freq_val i <= 0 ->
        calculate_fresnel i = Err (ValueError "Frequency must be positive."))
  /\ (0 < fr_point_pct i < 100 -> 0 < fr_freq_val i -> fr_dist_val i = 0 ->
        calculate_fresnel i = Err ZeroDivisionError)
  /\ (0 < fr_point_pct i < 100 -> 0 < fr_freq_val i -> fr_dist_val i < 0 ->
        calculate_fresnel i = Err MathDomainError).
Proof.
  split; [apply calculate_fresnel_bad_pct|]. split; [|split].
  - intros Hp Hf. rewrite (calculate_fresnel_pct_ok i Hp).
    unfold wavelengthMeters. rewrite Rleb_true; [reflexivity|].
    unfold fresnel_f_mhz. destruct (String.eqb _ _); lra.
  - intros Hp Hf Hd. rewrite (calculate_fresnel_pct_ok i Hp).
    pose proof (fresnel_f_mhz_pos i Hf).
    unfold wavelengthMeters. rewrite Rleb_false by lra. cbn [bind].
    rewrite (proj1 (fresnel_d_km_sign i) Hd).
    cbv zeta.
    replace (0 * (fr_point_pct i / 100) * 1000 + 0 * (1 - fr_point_pct i / 100) * 1000)
      with 0 by lra.
    now rewrite py_div_zero.
  - intros Hp Hf Hd. rewrite (calculate_fresnel_pct_ok i Hp).
    pose proof (fresnel_f_mhz_pos i Hf) as Hfm.
    pose proof (proj2 (fresnel_d_km_sign i) Hd) as Hdk.
    unfold wavelengthMeters. rewrite Rleb_false by lra. cbn [bind]. cbv zeta.
    set (lam := 299792458.0 / (fresnel_f_mhz i * 1e6)).
    assert (Hlam : 0 < lam) by (unfold lam; apply Rdiv_lt_0_compat; lra).
    set (pct := fr_point_pct i / 100). assert (Hpct : 0 < pct < 1) by (unfold pct; lra).
    set (d := fresnel_d_km i) in *.
    assert (Hsum : d * pct * 1000 + d * (1 - pct) * 1000 < 0) by nra.
    assert (Hnum : 0 < lam * (d * pct * 1000) * (d * (1 - pct) * 1000)).
    { assert (A : 0 < (- d) * pct) by (apply Rmult_lt_0_compat; lra).
      assert (B : 0 < (- d) * (1 - pct)) by (apply Rmult_lt_0_compat; lra).
      pose proof (Rmult_lt_0_compat _ _ A B) as AB.
      pose proof (Rmult_lt_0_compat _ _ Hlam AB) as LAB.
      replace (lam * (d * pct * 1000) * (d * (1 - pct) * 1000))
        with (1000000 * (lam * (- d * pct * (- d * (1 - pct))))) by ring.
      lra. }
    rewrite py_div_ok by lra. cbn [bind].
    unfold py_sqrt. rewrite Rltb_true; [reflexivity|].
    unfold Rdiv. apply Rmult_pos_neg; [exact Hnum|].
    apply Rinv_lt_0_compat. lra.
Qed.

Lemma fresnel_error_order_witness :
  calculate_fresnel (mkFresnelInput 0 "MHz" 10 "km" 150 0)
  = Err (ValueError "Point % must be between 0 and 100 (exclusive).")
  /\ calculate_fresnel (mkFresnelInput 0 "MHz" 10 "km" 50 0)
     = Err (ValueError "Frequency must be positive.")
  /\ calculate_fresnel (mkFresnelInput 2400 "MHz" 0 "km" 50 0)
     = Err ZeroDivisionError
  /\ calculate_fresnel (mkFresnelInput 2400 "MHz" (-1) "km" 50 0)
     = Err MathDomainError.
Proof.
  split; [|split; [|split]].
  - apply (proj1 (fresnel_error_order _)). cbn. lra.
  - apply (proj1 (proj2 (fresnel_error_order _))); cbn; lra.
  - apply (proj1 (proj2 (proj2 (fresnel_error_order _)))); cbn; lra.
  - apply (proj2 (proj2 (proj2 (fresnel_error_order _)))); cbn; lra.
Defined.

(** X15. Along a path (positive frequency and distance) the first Fresnel
    radius is the same at [pct] and at [100 - pct] percent, and is largest
    at the midpoint. *)
Theorem fresnel_radius_symmetric (i : FresnelInput) :
  0 < fr_freq_val i -> 0 < fr_dist_val i -> 0 < fr_point_pct i < 100 ->
  exists r r' rmid,
    calculate_fresnel i = OK r
    /\ calculate_fresnel (at_point i (100 - fr_point_pct i)) = OK r'
    /\ calculate_fresnel (at_point i 50) = OK rmid
    /\ r1_m r' = r1_m r
    /\ r1_m r <= r1_m rmid.
Proof.
  intros Hf Hd Hp.
  destruct (calculate_fresnel_ok i Hf Hd Hp) as [_ H].
  destruct (calculate_fresnel_ok (at_point i (100 - fr_point_pct i)) Hf Hd)
    as [_ H']; [cbn; lra|].
  destruct (calculate_fresnel_ok (at_point i 50) Hf Hd) as [_ Hm]; [cbn; lra|].
  do 3 eexists. split; [exact H|]. split; [exact H'|]. split; [exact Hm|].
  cbn [r1_m]. unfold fresnel_r1.
  change (fresnel_d_km (at_point i _)) with (fresnel_d_km i).
  change (fresnel_f_mhz (at_point i _)) with (fresnel_f_mhz i).
  cbn [fr_point_pct at_point].
  pose proof (fresnel_d_km_pos i Hd) as Hdk.
  pose proof (fresnel_f_mhz_pos i Hf) as Hfm.
  set (d := fresnel_d_km i) in *. set (p := fr_point_pct i) in *.
  set (lam := 299792458 / (fresnel_f_mhz i * 1e6)).
  assert (Hlam : 0 < lam) by (unfold lam; apply Rdiv_lt_0_compat; lra).
  split.
  - f_equal. field. lra.
  - apply sqrt_le_1_alt.
    replace (lam * (d * (p / 100) * 1000) * (d * (1 - p / 100) * 1000)
             / (d * (p / 100) * 1000 + d * (1 - p / 100) * 1000))
      with (lam * d * 1000 * ((p / 100) * (1 - p / 100))) by (field; lra).
    replace (lam * (d * (50 / 100) * 1000) * (d * (1 - 50 / 100) * 1000)
             / (d * (50 / 100) * 1000 + d * (1 - 50 / 100) * 1000))
      with (lam * d * 1000 * (1 / 4)) by (field; lra).
    apply Rmult_le_compat_l.
    + apply Rmult_le_pos; [|lra]. apply Rmult_le_pos; lra.
    + pose proof (Rle_0_sqr (p / 100 - 1 / 2)) as Hsq. unfold Rsqr in Hsq. lra.
Qed.

Lemma fresnel_radius_symmetric_witness :
  exists r r' rmid,
    calculate_fresnel (mkFresnelInput 2400 "MHz" 10 "km" 30 2) = OK r
    /\ calculate_fresnel (mkFresnelInput 2400 "MHz" 10 "km" (100 - 30) 2) = OK r'
    /\ calculate_fresnel (mkFresnelInput 2400 "MHz" 10 "km" 50 2) = OK rmid
    /\ r1_m r' = r1_m r
    /\ r1_m r <= r1_m rmid.
Proof.
  apply (fresnel_radius_symmetric (mkFresnelInput 2400 "MHz" 10 "km" 30 2));
    cbn; lra.
Defined.

(** X16. For a positive frequency and distance and a valid query point the
    remaining clearance lies in [0, 100]: it is 100 when the obstacle does
    not reach into the zone (height <= 0), 0 when the obstacle is as tall as
    the Fresnel radius or taller, and (1 - obstacle / r1) * 100 in
    between. *)
Theorem fresnel_clearance_range (i : FresnelInput) :
  0 < fr_freq_val i -> 0 < fr_dist_val i -> 0 < fr_point_pct i < 100 ->
  exists r,
    calculate_fresnel i = OK r
    /\ 0 <= clearance_pct r <= 100
    /\ (fr_obstacle_h i <= 0 -> clearance_pct r = 100)
    /\ (r1_m r <= fr_obstacle_h i -> clearance_pct r = 0)
    /\ (0 < fr_obstacle_h i < r1_m r ->
        clearance_pct r = (1 - fr_obstacle_h i / r1_m r) * 100
        /\ 0 < clearance_pct r < 100).
Proof.
  intros Hf Hd Hp.
  destruct (calculate_fresnel_ok i Hf Hd Hp) as [Hr1 H].
  eexists. split; [exact H|]. cbn [clearance_pct r1_m].
  set (r1 := fresnel_r1 _ _ _) in *. set (h := fr_obstacle_h i).
  assert (Hq : h / r1 * r1 = h) by (field; lra).
  assert (Hinv : 0 < / r1) by now apply Rinv_0_lt_compat.
  unfold clamp.
  split; [|split; [|split]].
  - split.
    + apply Rmax_l.
    + apply Rmax_lub; [lra | apply Rmin_l].
  - intros Hh. assert (h / r1 <= 0).
    { unfold Rdiv. rewrite <- (Rmult_0_l (/ r1)).
      apply Rmult_le_compat_r; lra. }
    rewrite Rmin_left by lra. apply Rmax_right. lra.
  - intros Hh. assert (1 <= h / r1).
    { apply Rmult_le_reg_r with r1; [exact Hr1|]. rewrite Hq. lra. }
    rewrite Rmin_right by lra. apply Rmax_left. lra.
  - intros [Hh1 Hh2].
    assert (0 < h / r1) by (unfold Rdiv; now apply Rmult_lt_0_compat).
    assert (h / r1 < 1).
    { apply Rmult_lt_reg_r with r1; [exact Hr1|]. rewrite Hq. lra. }
    rewrite Rmin_right by lra. rewrite Rmax_right by lra. lra.
Qed.

Lemma fresnel_clearance_range_witness :
  exists r, calculate_fresnel (mkFresnelInput 2400 "MHz" 10 "km" 50 (-1)) = OK r
            /\ clearance_pct r = 100.
Proof.
  destruct (fresnel_clearance_range (mkFresnelInput 2400 "MHz" 10 "km" 50 (-1)))
    as (r & Hr & _ & H100 & _); try (cbn; lra).
  exists r. split; [exact Hr|]. apply H100. cbn. lra.
Defined.

(* ================================================================= *)
(** ** More on the reflection coefficient *)

Lemma c_abs_div a b g :
  c_div a b = OK g ->
  0 < re b * re b + im b * im b
  /\ c_abs g = sqrt ((re a * re a + im a * im a) / (re b * re b + im b * im b)).
Proof.
  unfold c_div.
  destruct (Reqb (re b) 0 && Reqb (im b) 0) eqn:E; [discriminate|].
  intros [= <-].
  assert (Hb : re b <> 0 \/ im b <> 0).
  { apply andb_false_iff in E as [E | E]; unfold Reqb in E;
      [left | right]; destruct (Req_dec_T _ 0); congruence. }
  pose proof (norm2_pos b Hb) as Hn. split; [exact Hn|].
  unfold c_abs. cbn [re im]. f_equal. field. lra.
Qed.

Lemma sum_sqr_nonneg x y : 0 <= x * x + y * y.
Proof.
  pose proof (Rle_0_sqr x) as Hx. pose proof (Rle_0_sqr y) as Hy.
  unfold Rsqr in *. lra.
Qed.

Lemma gamma_magnitude R_ X Z0 g :
  c_div (mkComplex (R_ - Z0) X) (mkComplex (R_ + Z0) X) = OK g ->
  0 < (R_ + Z0) * (R_ + Z0) + X * X
  /\ c_abs g = sqrt (((R_ - Z0) * (R_ - Z0) + X * X)
                     / ((R_ + Z0) * (R_ + Z0) + X * X)).
Proof. intros H. apply (c_abs_div _ _ _ H). Qed.


(** X17. The part of the power that the load takes: in every result of
    the reflection step the reported magnitude is |gamma| and satisfies
    1 - |gamma|^2 = 4 R Z0 / ((R + Z0)^2 + X^2), and when the SWR is
    reported as a number [v] (not the sentinel) it is at least 1 and
    determines the magnitude, |gamma| = (v - 1) / (v + 1). *)
Theorem delivered_power_identity (R_ X Z0 : R) g mag s :
  smith_reflection R_ X Z0 = OK (g, mag, s) ->
  mag = c_abs g
  /\ 1 - mag * mag = 4 * R_ * Z0 / ((R_ + Z0) * (R_ + Z0) + X * X)
  /\ (forall v, s = Finite v -> 1 <= v /\ mag = (v - 1) / (v + 1)).
Proof.
  intros Hres.
  assert (H : R_ + Z0 <> 0 \/ X <> 0).
  { destruct (Req_dec (R_ + Z0) 0) as [H1 | H1]; [|now left].
    destruct (Req_dec X 0) as [H2 | H2]; [|now right].
    rewrite (smith_reflection_zero_div _ _ _ H1 H2) in Hres. discriminate. }
  destruct (smith_reflection_ok R_ X Z0 H) as (g' & Hg & Hr).
  rewrite Hres in Hr. injection Hr as -> -> ->.
  destruct (gamma_magnitude _ _ _ _ Hg) as [Hn Habs].
  split; [reflexivity|]. split.
  - rewrite Habs, sqrt_sqrt.
    + field. lra.
    + apply Rmult_le_pos;
        [apply sum_sqr_nonneg | left; now apply Rinv_0_lt_compat].
  - intros v Hv. unfold swr_of in Hv.
    pose proof (c_abs_nonneg g') as H0.
    destruct (Rlt_dec (c_abs g') 1) as [Hlt | Hge].
    + rewrite (Rltb_true _ _ Hlt) in Hv. injection Hv as <-. split.
      * apply Rmult_le_reg_r with (1 - c_abs g'); [lra|].
        unfold Rdiv. rewrite Rmult_assoc, Rinv_l by lra. lra.
      * field. lra.
    + rewrite Rltb_false in Hv by lra. discriminate.
Qed.

Lemma delivered_power_identity_witness :
  exists g mag s,
    smith_reflection 75 20 50 = OK (g, mag, s)
    /\ 1 - mag * mag = 4 * 75 * 50 / ((75 + 50) * (75 + 50) + 20 * 20).
Proof.
  destruct (smith_reflection_ok 75 20 50) as (g & _ & Hr); [left; lra|].
  exists g, (c_abs g), (swr_of (c_abs g)). split; [exact Hr|].
  apply (delivered_power_identity 75 20 50 _ _ _ Hr).
Defined.

(** X18. A load equal to the line impedance, R = Z0 > 0 with X = 0, gives
    gamma = 0, |gamma| = 0, SWR = 1 and the text "R already matched to Z0."
    with no reactive cancel, at every frequency (zero included). *)
Theorem matched_load (Z0 f : R) :
  0 < Z0 ->
  calculate_smith Z0 0 Z0 f
  = OK (mkSmith (mkComplex 0 0) 0 (Finite 1) (AlreadyMatched NoCancel)).
Proof.
  intros HZ.
  destruct (smith_reflection_ok Z0 0 Z0) as (g & Hg & Hr); [left; lra|].
  rewrite c_div_ok in Hg by (left; cbn; lra). cbn [re im] in Hg.
  apply OK_inj in Hg.
  assert (Eg : g = mkComplex 0 0).
  { rewrite <- Hg. f_equal; field; nra. }
  assert (Eabs : c_abs g = 0).
  { rewrite Eg. unfold c_abs. cbn [re im].
    replace (0 * 0 + 0 * 0) with 0 by lra. apply sqrt_0. }
  rewrite (calculate_smith_bind _ _ _ f _ _ _ Hr).
  unfold suggest_l_match.
  rewrite (Rleb_false Z0 0 HZ).
  rewrite (Rltb_false 1e-6 (Rabs 0)) by (rewrite Rabs_R0; lra).
  rewrite (Rltb_false Z0 Z0) by lra. cbn [bind].
  rewrite Eabs, Eg. unfold swr_of. rewrite Rltb_true by lra.
  do 3 f_equal. field.
Qed.

Lemma matched_load_witness :
  calculate_smith 50 0 50 0
  = OK (mkSmith (mkComplex 0 0) 0 (Finite 1) (AlreadyMatched NoCancel)).
Proof. apply (matched_load 50 0). lra. Defined.

(* ================================================================= *)
(** ** The L-match suggestion *)

Lemma omega_neq_0 f : f <> 0 -> 2 * PI * (f * 1e6) <> 0.
Proof.
  intros Hf. pose proof PI_RGT_0.
  apply Rmult_integral_contrapositive_currified; lra.
Qed.

Lemma sqrt_pos_sq x : 0 < x -> 0 < sqrt x /\ sqrt x * sqrt x = x.
Proof.
  intros H. split; [now apply sqrt_lt_R0 | apply sqrt_sqrt; lra].
Qed.

Lemma suggest_l_match_low_pass R_ X Z0 f :
  0 < R_ -> R_ < Z0 -> f <> 0 ->
  exists cancel,
    suggest_l_match R_ X Z0 f
    = OK (LowPassL cancel
            (sqrt (Z0 / R_ - 1) * R_ / (2 * PI * (f * 1e6)))
            (1 / (2 * PI * (f * 1e6) * (Z0 / sqrt (Z0 / R_ - 1))))
            (sqrt (Z0 / R_ - 1))).
Proof.
  intros HR HZ Hf. unfold suggest_l_match.
  rewrite (Rleb_false R_ 0 HR), (Rltb_true R_ Z0 HZ).
  rewrite py_div_ok by lra. cbn [bind].
  assert (Ha : 0 < Z0 / R_ - 1).
  { assert (1 < Z0 / R_); [|lra].
    apply Rmult_lt_reg_r with R_; [exact HR|].
    unfold Rdiv. rewrite Rmult_assoc, Rinv_l by lra. lra. }
  destruct (sqrt_pos_sq _ Ha) as [HQ _].
  rewrite py_sqrt_ok by lra. cbn [bind].
  rewrite py_div_ok by lra. cbn [bind].
  pose proof (omega_neq_0 f Hf) as Hw.
  rewrite py_div_ok by exact Hw. cbn [bind].
  rewrite py_div_ok.
  - cbn [bind]. eexists. reflexivity.
  - apply Rmult_integral_contrapositive_currified; [exact Hw|].
    unfold Rdiv. apply Rmult_integral_contrapositive_currified; [lra|].
    apply Rinv_neq_0_compat. lra.
Qed.

(** X19. For a load resistance 0 < R < Z0 and a frequency other than zero
    the suggestion is the low-pass network with Q = sqrt(Z0/R - 1), and
    its values do match: the series inductor in series with R, shunted by
    the capacitor, has admittance exactly 1/Z0 + 0j at that frequency. *)
Theorem l_match_low_pass_matches (R_ X Z0 f : R) :
  0 < R_ -> R_ < Z0 -> f <> 0 ->
  exists cancel Ls Cp Q y,
    suggest_l_match R_ X Z0 f = OK (LowPassL cancel Ls Cp Q)
    /\ Q = sqrt (Z0 / R_ - 1) /\ 0 < Q
    /\ c_div (mkComplex 1 0) (mkComplex R_ (2 * PI * (f * 1e6) * Ls)) = OK y
    /\ re y = / Z0
    /\ im y + 2 * PI * (f * 1e6) * Cp = 0.
Proof.
  intros HR HZ Hf.
  destruct (suggest_l_match_low_pass R_ X Z0 f HR HZ Hf) as (cancel & Hs).
  pose proof (omega_neq_0 f Hf) as Hw.
  set (w := 2 * PI * (f * 1e6)) in *.
  assert (Ha : 0 < Z0 / R_ - 1).
  { assert (1 < Z0 / R_); [|lra].
    apply Rmult_lt_reg_r with R_; [exact HR|].
    unfold Rdiv. rewrite Rmult_assoc, Rinv_l by lra. lra. }
  destruct (sqrt_pos_sq _ Ha) as [HQ HQQ].
  set (Q := sqrt (Z0 / R_ - 1)) in *.
  assert (EXs : w * (Q * R_ / w) = Q * R_) by (field; exact Hw).
  assert (Hden : R_ * R_ + Q * R_ * (Q * R_) = R_ * Z0).
  { replace (R_ * R_ + Q * R_ * (Q * R_)) with (R_ * R_ * (1 + Q * Q)) by ring.
    rewrite HQQ. field. lra. }
  do 5 eexists. split; [exact Hs|]. split; [reflexivity|]. split; [exact HQ|].
  rewrite EXs. split.
  - apply c_div_ok. left. cbn. lra.
  - cbn [re im]. rewrite Hden. split; field; repeat split; lra.
Qed.

Lemma l_match_low_pass_matches_witness :
  exists cancel Ls Cp Q y,
    suggest_l_match 25 0 50 14 = OK (LowPassL cancel Ls Cp Q)
    /\ Q = sqrt (50 / 25 - 1) /\ 0 < Q
    /\ c_div (mkComplex 1 0) (mkComplex 25 (2 * PI * (14 * 1e6) * Ls)) = OK y
    /\ re y = / 50
    /\ im y + 2 * PI * (14 * 1e6) * Cp = 0.
Proof. apply (l_match_low_pass_matches 25 0 50 14); lra. Defined.

Lemma suggest_l_match_high_pass R_ X Z0 f :
  0 < Z0 -> Z0 < R_ -> f <> 0 ->
  exists cancel,
    suggest_l_match R_ X Z0 f
    = OK (HighPassL cancel
            (1 / (2 * PI * (f * 1e6) * (sqrt (R_ / Z0 - 1) * Z0)))
            (R_ / sqrt (R_ / Z0 - 1) / (2 * PI * (f * 1e6)))
            (sqrt (R_ / Z0 - 1))).
Proof.
  intros HZ HR Hf. unfold suggest_l_match.
  rewrite (Rleb_false R_ 0) by lra.
  rewrite (Rltb_false R_ Z0) by lra. rewrite (Rltb_true Z0 R_ HR).
  rewrite py_div_ok by lra. cbn [bind].
  assert (Ha : 0 < R_ / Z0 - 1).
  { assert (1 < R_ / Z0); [|lra].
    apply Rmult_lt_reg_r with Z0; [exact HZ|].
    unfold Rdiv. rewrite Rmult_assoc, Rinv_l by lra. lra. }
  destruct (sqrt_pos_sq _ Ha) as [HQ _].
  rewrite py_sqrt_ok by lra. cbn [bind].
  rewrite py_div_ok by lra. cbn [bind].
  pose proof (omega_neq_0 f Hf) as Hw.
  rewrite py_div_ok.
  - cbn [bind]. rewrite py_div_ok by exact Hw. cbn [bind].
    eexists. reflexivity.
  - apply Rmult_integral_contrapositive_currified; [exact Hw|].
    apply Rmult_integral_contrapositive_currified; lra.
Qed.

(** X20. For a load resistance R > Z0 > 0 and a frequency other than zero
    the suggestion is the high-pass network with Q = sqrt(R/Z0 - 1), and
    its values do match: R shunted by the inductor has impedance
    Z0 + j/(w Cs), so that the series capacitor, of reactance -1/(w Cs),
    leaves exactly Z0. *)
Theorem l_match_high_pass_matches (R_ X Z0 f : R) :
  0 < Z0 -> Z0 < R_ -> f <> 0 ->
  exists cancel Cs Lp Q z,
    suggest_l_match R_ X Z0 f = OK (HighPassL cancel Cs Lp Q)
    /\ Q = sqrt (R_ / Z0 - 1) /\ 0 < Q
    /\ c_div (mkComplex 1 0)
             (mkComplex (/ R_) (- / (2 * PI * (f * 1e6) * Lp))) = OK z
    /\ re z = Z0
    /\ im z = / (2 * PI * (f * 1e6) * Cs).
Proof.
  intros HZ HR Hf.
  destruct (suggest_l_match_high_pass R_ X Z0 f HZ HR Hf) as (cancel & Hs).
  pose proof (omega_neq_0 f Hf) as Hw.
  set (w := 2 * PI * (f * 1e6)) in *.
  assert (Ha : 0 < R_ / Z0 - 1).
  { assert (1 < R_ / Z0); [|lra].
    apply Rmult_lt_reg_r with Z0; [exact HZ|].
    unfold Rdiv. rewrite Rmult_assoc, Rinv_l by lra. lra. }
  destruct (sqrt_pos_sq _ Ha) as [HQ HQQ].
  set (Q := sqrt (R_ / Z0 - 1)) in *.
  assert (ELp : / (w * (R_ / Q / w)) = Q / R_) by (field; repeat split; lra).
  assert (ECs : / (w * (1 / (w * (Q * Z0)))) = Q * Z0) by (field; repeat split; lra).
  assert (Hden : / R_ * / R_ + - (Q / R_) * - (Q / R_) = / (R_ * Z0)).
  { replace (/ R_ * / R_ + - (Q / R_) * - (Q / R_))
      with ((1 + Q * Q) / (R_ * R_)) by (field; lra).
    rewrite HQQ. field. split; lra. }
  assert (Hrz : 0 < R_ * Z0) by (apply Rmult_lt_0_compat; lra).
  do 5 eexists. split; [exact Hs|]. split; [reflexivity|]. split; [exact HQ|].
  rewrite ELp, ECs. split.
  - apply c_div_ok. left. cbn. apply Rinv_neq_0_compat. lra.
  - cbn [re im]. rewrite Hden. split; field; repeat split; lra.
Qed.

Lemma l_match_high_pass_matches_witness :
  exists cancel Cs Lp Q z,
    suggest_l_match 200 0 50 14 = OK (HighPassL cancel Cs Lp Q)
    /\ Q = sqrt (200 / 50 - 1) /\ 0 < Q
    /\ c_div (mkComplex 1 0)
             (mkComplex (/ 200) (- / (2 * PI * (14 * 1e6) * Lp))) = OK z
    /\ re z = 50
    /\ im z = / (2 * PI * (14 * 1e6) * Cs).
Proof. apply (l_match_high_pass_matches 200 0 50 14); lra. Defined.

(** X21. What [suggest_l_match] does not guard: with a positive load
    resistance different from a positive Z0, a frequency of zero raises
    ZeroDivisionError (and so does [calculate_smith]); a line impedance of
    zero raises ZeroDivisionError and a negative one the math domain error
    of [sqrt], at every frequency. *)
Theorem l_match_unguarded_inputs :
  (forall R_ X Z0, 0 < R_ -> 0 < Z0 -> R_ <> Z0 ->
     suggest_l_match R_ X Z0 0 = Err ZeroDivisionError
     /\ calculate_smith R_ X Z0 0 = Err ZeroDivisionError)
  /\ (forall R_ X f, 0 < R_ -> suggest_l_match R_ X 0 f = Err ZeroDivisionError)
  /\ (forall R_ X Z0 f, 0 < R_ -> Z0 < 0 ->
        suggest_l_match R_ X Z0 f = Err MathDomainError).
Proof.
  split; [|split].
  - intros R_ X Z0 HR HZ Hne.
    assert (Hs : suggest_l_match R_ X Z0 0 = Err ZeroDivisionError).
    { unfold suggest_l_match. rewrite (Rleb_false R_ 0 HR).
      replace (2 * PI * (0 * 1e6)) with 0 by lra.
      destruct (Rlt_dec R_ Z0) as [Hlt | Hge].
      - rewrite (Rltb_true _ _ Hlt). rewrite py_div_ok by lra. cbn [bind].
        assert (Ha : 0 < Z0 / R_ - 1).
        { assert (1 < Z0 / R_); [|lra].
          apply Rmult_lt_reg_r with R_; [exact HR|].
          unfold Rdiv. rewrite Rmult_assoc, Rinv_l by lra. lra. }
        destruct (sqrt_pos_sq _ Ha) as [HQ _].
        rewrite py_sqrt_ok by lra. cbn [bind].
        rewrite py_div_ok by lra. cbn [bind].
        now rewrite py_div_zero.
      - rewrite (Rltb_false R_ Z0) by lra. rewrite (Rltb_true Z0 R_) by lra.
        rewrite py_div_ok by lra. cbn [bind].
        assert (Ha : 0 < R_ / Z0 - 1).
        { assert (1 < R_ / Z0); [|lra].
          apply Rmult_lt_reg_r with Z0; [exact HZ|].
          unfold Rdiv. rewrite Rmult_assoc, Rinv_l by lra. lra. }
        destruct (sqrt_pos_sq _ Ha) as [HQ _].
        rewrite py_sqrt_ok by lra. cbn [bind].
        rewrite py_div_ok by lra. cbn [bind].
        replace (0 * (sqrt (R_ / Z0 - 1) * Z0)) with 0 by lra.
        now rewrite py_div_zero. }
    split; [exact Hs|].
    destruct (smith_reflection_ok R_ X Z0) as (g & _ & Hr); [left; lra|].
    rewrite (calculate_smith_bind _ _ _ 0 _ _ _ Hr). now rewrite Hs.
  - intros R_ X f HR. unfold suggest_l_match.
    rewrite (Rleb_false R_ 0 HR).
    rewrite (Rltb_false R_ 0) by lra. rewrite (Rltb_true 0 R_ HR).
    now rewrite py_div_zero.
  - intros R_ X Z0 f HR HZ. unfold suggest_l_match.
    rewrite (Rleb_false R_ 0 HR).
    rewrite (Rltb_false R_ Z0) by lra. rewrite (Rltb_true Z0 R_) by lra.
    rewrite py_div_ok by lra. cbn [bind].
    unfold py_sqrt. rewrite Rltb_true; [reflexivity|].
    assert (R_ / Z0 < 0); [|lra].
    unfold Rdiv. apply Rmult_pos_neg; [exact HR|].
    now apply Rinv_lt_0_compat.
Qed.

Lemma l_match_unguarded_inputs_witness :
  calculate_smith 25 0 50 0 = Err ZeroDivisionError
  /\ suggest_l_match 25 0 0 14 = Err ZeroDivisionError
  /\ suggest_l_match 25 0 (-50) 14 = Err MathDomainError.
Proof.
  split; [|split].
  - apply (proj1 l_match_unguarded_inputs 25 0 50); lra.
  - apply (proj1 (proj2 l_match_unguarded_inputs) 25 0 14); lra.
  - apply (proj2 (proj2 l_match_unguarded_inputs) 25 0 (-50) 14); lra.
Defined.

(* ================================================================= *)
(** ** Yagi-Uda geometry for any element count *)

Lemma director_bounds lam vf i :
  0 <= lam * vf ->
  0.44 * (lam * vf) <= director lam vf i <= 0.48 * (lam * vf).
Proof.
  intros H. unfold director. pose proof (pos_INR i) as Hi.
  destruct (Rlt_dec (0.48 - 0.01 * INR i) 0.44) as [Hlt | Hge].
  - rewrite (Rltb_true _ _ Hlt). nra.
  - rewrite Rltb_false by lra.
    replace (lam * (0.48 - 0.01 * INR i) * vf)
      with ((0.48 - 0.01 * INR i) * (lam * vf)) by ring.
    split; apply Rmult_le_compat_r; lra.
Qed.

Lemma director_value lam vf i :
  director lam vf i
  = (if (i <=? 4)%nat then 0.48 - 0.01 * INR i else 0.44) * (lam * vf).
Proof.
  unfold director.
  destruct (i <=? 4)%nat eqn:E.
  - apply Nat.leb_le in E. apply le_INR in E. simpl in E.
    rewrite Rltb_false by lra. ring.
  - apply Nat.leb_gt in E. apply lt_INR in E. simpl in E.
    rewrite Rltb_true by lra. ring.
Qed.

Lemma py_sum_from l a : fold_left Rplus l a = a + fold_right Rplus 0 l.
Proof.
  revert a. induction l as [|x l IH]; intros a; cbn.
  - lra.
  - rewrite IH. lra.
Qed.

Lemma sum_repeat x n : fold_right Rplus 0 (repeat x n) = INR n * x.
Proof.
  induction n as [|n IH].
  - cbn. lra.
  - rewrite S_INR. cbn [repeat fold_right]. rewrite IH. lra.
Qed.

(** X22. For every element count n >= 3 the Yagi-Uda calculation returns
    n - 2 directors and n - 1 spacings, and the boom length is
    (0.20 + 0.15 (n - 2)) wavelengths. *)
Theorem yagi_counts (lam vf : R) (elements : Z) :
  (3 <= elements)%Z ->
  exists r, yagi_calc lam elements vf = OK r
    /\ refl r = lam * 0.53 * vf
    /\ driv r = lam * 0.50 * vf
    /\ List.length (dirs r) = Z.to_nat (elements - 2)
    /\ List.length (spacings r) = Z.to_nat (elements - 1)
    /\ boomLen r = (0.20 + 0.15 * IZR (elements - 2)) * lam.
Proof.
  intros H. unfold yagi_calc, yagiLengths, yagiSpacing.
  rewrite (proj2 (Z.leb_le 3 elements) H).
  rewrite (proj2 (Z.ltb_ge elements 3) H). cbn [bind fst snd].
  eexists. split; [reflexivity|]. cbn [refl driv dirs spacings boomLen].
  split; [reflexivity|]. split; [reflexivity|]. split; [|split].
  - now rewrite length_map, length_seq.
  - cbn [app List.length]. rewrite repeat_length. lia.
  - unfold py_sum. rewrite py_sum_from. cbn [app fold_right].
    rewrite sum_repeat.
    replace (IZR (elements - 2)) with (INR (Z.to_nat (elements - 3)) + 1).
    + lra.
    + rewrite INR_IZR_INZ, Z2Nat.id by lia. rewrite <- plus_IZR. f_equal. lia.
Qed.

Lemma yagi_counts_witness :
  exists r, yagi_calc 2 5 0.95 = OK r
    /\ List.length (dirs r) = 3%nat
    /\ boomLen r = (0.20 + 0.15 * IZR (5 - 2)) * 2.
Proof.
  destruct (yagi_counts 2 0.95 5 ltac:(lia)) as (r & Hr & _ & _ & Hd & _ & Hb).
  exists r. split; [exact Hr|]. split; [exact Hd | exact Hb].
Defined.

(** X23. The director lengths: the i-th director (from 0) is
    (0.48 - 0.01 i) lam vf for i <= 4 (the fifth, i = 4, already equals the
    floor) and the floor 0.44 lam vf for i >= 5; for lam * vf >= 0 every director is between
    0.44 lam vf and 0.48 lam vf, no director is longer than the one before
    it, none is longer than the driven element, and the driven element is
    no longer than the reflector. *)
Theorem yagi_director_lengths (lam vf : R) (elements : Z) :
  (forall i, (i < Z.to_nat (elements - 2))%nat -> (3 <= elements)%Z ->
     nth_error (snd (yagiLengths lam elements vf)) i
     = Some ((if (i <=? 4)%nat then 0.48 - 0.01 * INR i else 0.44) * (lam * vf)))
  /\ (0 <= lam * vf ->
      forall i d, nth_error (snd (yagiLengths lam elements vf)) i = Some d ->
        0.44 * (lam * vf) <= d <= 0.48 * (lam * vf)
        /\ d <= snd (fst (yagiLengths lam elements vf))
        /\ snd (fst (yagiLengths lam elements vf))
           <= fst (fst (yagiLengths lam elements vf))
        /\ (forall d', nth_error (snd (yagiLengths lam elements vf)) (S i) = Some d' ->
              d' <= d)).
Proof.
  assert (Hnth : forall n i d,
            nth_error (map (director lam vf) (seq 0 n)) i = Some d ->
            d = director lam vf i).
  { intros n i d Hd. rewrite nth_error_map in Hd.
    destruct (nth_error (seq 0 n) i) as [j|] eqn:Ej; [|discriminate].
    assert (Hi : (i < n)%nat).
    { rewrite <- (length_seq n 0). apply nth_error_Some. rewrite Ej. discriminate. }
    assert (Ej' : nth_error (seq 0 n) i = Some (nth i (seq 0 n) 0%nat))
      by (apply nth_error_nth'; rewrite length_seq; exact Hi).
    rewrite seq_nth in Ej' by exact Hi. cbn in Ej', Hd. congruence. }
  unfold yagiLengths. cbn [fst snd]. split.
  - intros i Hi H. rewrite (proj2 (Z.leb_le 3 elements) H).
    rewrite nth_error_map.
    assert (Ei : nth_error (seq 0 (Z.to_nat (elements - 2))) i
                 = Some (nth i (seq 0 (Z.to_nat (elements - 2))) 0%nat))
      by (apply nth_error_nth'; rewrite length_seq; exact Hi).
    rewrite seq_nth in Ei by exact Hi. rewrite Ei.
    cbn [option_map Nat.add]. now rewrite director_value.
  - intros Hlv i d Hd.
    destruct (3 <=? elements)%Z; [|destruct i; discriminate].
    pose proof (Hnth _ _ _ Hd) as ->.
    pose proof (director_bounds lam vf i Hlv) as Hb.
    split; [exact Hb|]. split; [nra|]. split; [nra|].
    intros d' Hd'. pose proof (Hnth _ _ _ Hd') as ->.
    rewrite !director_value.
    apply Rmult_le_compat_r; [exact Hlv|].
    destruct (Nat.leb_spec (S i) 4) as [E2 | E2];
      destruct (Nat.leb_spec i 4) as [E1 | E1]; try lia.
    + rewrite S_INR. lra.
    + apply le_INR in E1. simpl in E1. lra.
    + lra.
Qed.

Lemma yagi_director_lengths_witness :
  nth_error (snd (yagiLengths 2 8 0.95)) 5 = Some (0.44 * (2 * 0.95)).
Proof.
  apply (proj1 (yagi_director_lengths 2 0.95 8) 5%nat); [cbn; lia | lia].
Defined.

(* ================================================================= *)
(** ** Antenna calculator *)

Lemma velocityFactor_range material : 0.88 <= velocityFactor material <= 0.95.
Proof.
  unfold velocityFactor, dict_get_default, MATERIAL_VF, dict_get. cbn [find fst].
  repeat (destruct (String.eqb _ material); [cbn; lra|]). cbn. lra.
Qed.

Lemma wavelengthMeters_ok freqHz :
  0 < freqHz -> wavelengthMeters freqHz = OK (299792458 / freqHz).
Proof.
  intros H. unfold wavelengthMeters. rewrite Rleb_false by exact H.
  f_equal. lra.
Qed.

(** X24. The antenna calculator checks the frequency first: a frequency
    value of zero or less fails with "Frequency must be positive." whatever
    the antenna type and element count.  With a positive frequency a
    Yagi-Uda beam of fewer than 3 elements fails with "Yagi requires at
    least 3 elements."; every other input returns, with the wavelength
    299792458 / f_Hz and a velocity factor between 0.88 and 0.95 (0.95 for
    an unknown material). *)
Theorem calculate_antenna_domain (i : AntennaInput) :
  (ant_freq_val i <= 0 ->
     calculate_antenna i = Err (ValueError "Frequency must be positive."))
  /\ (0 < ant_freq_val i -> ant_type i = "Yagi-Uda beam"%string ->
      (ant_elements i < 3)%Z ->
        calculate_antenna i = Err (ValueError "Yagi requires at least 3 elements."))
  /\ (0 < ant_freq_val i ->
      ant_type i <> "Yagi-Uda beam"%string \/ (3 <= ant_elements i)%Z ->
        exists r, calculate_antenna i = OK r
          /\ ant_lam r = 299792458 / freqToHz (ant_freq_val i) (ant_freq_unit i)
          /\ 0 < ant_lam r
          /\ ant_vf r = velocityFactor (ant_material i)
          /\ 0.88 <= ant_vf r <= 0.95
          /\ (dict_get String.eqb MATERIAL_VF (ant_material i) = None ->
              ant_vf r = 0.95)).
Proof.
  split; [|split].
  - intros H. unfold calculate_antenna, wavelengthMeters.
    pose proof (proj2 (freqToHz_sign (ant_freq_val i) (ant_freq_unit i)) H) as H'.
    now rewrite (Rleb_true _ _ H').
  - intros H Ht He. unfold calculate_antenna.
    pose proof (proj1 (freqToHz_sign (ant_freq_val i) (ant_freq_unit i)) H) as H'.
    rewrite (wavelengthMeters_ok _ H'). cbn [bind].
    rewrite Ht. cbn [String.eqb Ascii.eqb Bool.eqb].
    unfold yagi_calc.
    destruct (yagiLengths _ _ _) as [[r d] ds].
    now rewrite (yagiSpacing_small _ _ He).
  - intros H Hcase. unfold calculate_antenna.
    pose proof (proj1 (freqToHz_sign (ant_freq_val i) (ant_freq_unit i)) H) as H'.
    rewrite (wavelengthMeters_ok _ H'). cbn [bind].
    assert (Hlam : 0 < 299792458 / freqToHz (ant_freq_val i) (ant_freq_unit i))
      by (apply Rdiv_lt_0_compat; lra).
    assert (Hvf : dict_get String.eqb MATERIAL_VF (ant_material i) = None ->
                  velocityFactor (ant_material i) = 0.95).
    { intros Hn. unfold velocityFactor, dict_get_default. now rewrite Hn. }
    pose proof (velocityFactor_range (ant_material i)) as Hrange.
    destruct (String.eqb (ant_type i) "Yagi-Uda beam") eqn:E.
    + apply String.eqb_eq in E.
      destruct Hcase as [Hn | He]; [contradiction|].
      unfold yagi_calc, yagiLengths, yagiSpacing.
      rewrite (proj2 (Z.ltb_ge (ant_elements i) 3) He). cbn [bind].
      eexists. split; [reflexivity|]. cbn. auto.
    + eexists. split; [reflexivity|]. cbn. auto.
Qed.

Lemma calculate_antenna_domain_witness :
  calculate_antenna (mkAntennaInput 0 "MHz" "Yagi-Uda beam" "Copper" 2)
  = Err (ValueError "Frequency must be positive.")
  /\ calculate_antenna (mkAntennaInput 146.52 "MHz" "Yagi-Uda beam" "Copper" 2)
     = Err (ValueError "Yagi requires at least 3 elements.")
  /\ exists r, calculate_antenna (mkAntennaInput 146.52 "MHz" "Half-wave dipole" "Tin" 0)
               = OK r /\ ant_vf r = 0.95.
Proof.
  split; [|split].
  - apply (proj1 (calculate_antenna_domain _)). cbn. lra.
  - apply (proj1 (proj2 (calculate_antenna_domain _))); cbn; [lra | reflexivity | lia].
  - destruct (proj2 (proj2 (calculate_antenna_domain
                 (mkAntennaInput 146.52 "MHz" "Half-wave dipole" "Tin" 0))))
      as (r & Hr & _ & _ & _ & _ & Hvf).
    + cbn. lra.
    + left. cbn. discriminate.
    + exists r. split; [exact Hr|]. apply Hvf. reflexivity.
Defined.

Lemma calculate_antenna_simple (i : AntennaInput) :
  0 < ant_freq_val i ->
  String.eqb (ant_type i) "Yagi-Uda beam" = false ->
  let freqHz := freqToHz (ant_freq_val i) (ant_freq_unit i) in
  let lam := 299792458 / freqHz in
  let vf := velocityFactor (ant_material i) in
  let mult := dict_get_default mults (ant_type i) 0.50 in
  calculate_antenna i
  = OK (mkAntenna freqHz lam vf
          (SimpleBody (lam * mult) (lam * mult * vf)
             ((if String.eqb (ant_type i) "Quarter-wave ground plane"
               then [RadialLength (lam * 0.25 * vf)] else [])
              ++ (if String.eqb (ant_type i) "J-pole (basic)"
                  then [JPoleElements (lam * 0.5 * vf) (lam * 0.25 * vf)] else [])
              ++ (if String.eqb (ant_type i) "End-fed half-wave (basic)"
                  then [EndFedRadiator (lam * 0.5 * vf)] else [])))).
Proof.
  intros H E. cbv zeta. unfold calculate_antenna.
  pose proof (proj1 (freqToHz_sign (ant_freq_val i) (ant_freq_unit i)) H) as H'.
  rewrite (wavelengthMeters_ok _ H'). cbn [bind]. now rewrite E.
Qed.

Lemma mults_range t : 0.25 <= dict_get_default mults t 0.50 <= 1.
Proof.
  unfold dict_get_default, mults, dict_get. cbn [find fst].
  destruct (String.eqb "Quarter-wave ground plane" t); [cbn [option_map snd]; lra|].
  destruct (String.eqb "Half-wave dipole" t); [cbn [option_map snd]; lra|].
  destruct (String.eqb "Five-eighths-wave vertical" t); [cbn [option_map snd]; lra|].
  destruct (String.eqb "Full-wave loop" t); [cbn [option_map snd]; lra|].
  destruct (String.eqb "J-pole (basic)" t); [cbn [option_map snd]; lra|].
  destruct (String.eqb "End-fed half-wave (basic)" t); [cbn [option_map snd]; lra|].
  cbn [option_map]. lra.
Qed.

Lemma eqb_false_not_in (t : string) (l : list string) :
  ~ In t l -> forall s, In s l -> String.eqb s t = false /\ String.eqb t s = false.
Proof.
  intros Hn s Hs. split; apply String.eqb_neq; intros ->; contradiction.
Qed.

(** X25. For a positive frequency and any antenna type other than the
    Yagi-Uda beam the calculator returns an ideal length of 0.25 to 1
    wavelengths and the adjusted length ideal * vf, which is positive and
    shorter than the ideal one.  The ground plane's radial length equals
    its adjusted length, the two J-pole elements add up to its adjusted
    length, the end-fed radiator equals its adjusted length, and a type
    that is not in the table is computed as a half wave with no extra
    lines. *)
Theorem simple_antenna_lengths (i : AntennaInput) :
  0 < ant_freq_val i ->
  ant_type i <> "Yagi-Uda beam"%string ->
  exists r ideal adj extras,
    calculate_antenna i = OK r
    /\ ant_body r = SimpleBody ideal adj extras
    /\ 0.25 * ant_lam r <= ideal <= ant_lam r
    /\ adj = ideal * ant_vf r
    /\ 0 < adj < ideal
    /\ (ant_type i = "Quarter-wave ground plane"%string ->
        ideal = ant_lam r * 0.25 /\ extras = [RadialLength adj])
    /\ (ant_type i = "J-pole (basic)"%string ->
        ideal = ant_lam r * 0.75
        /\ exists half quarter,
             extras = [JPoleElements half quarter] /\ half + quarter = adj)
    /\ (ant_type i = "End-fed half-wave (basic)"%string ->
        ideal = ant_lam r * 0.50
        /\ exists half, extras = [EndFedRadiator half] /\ half = adj)
    /\ (~ In (ant_type i) (keys mults) ->
        ideal = ant_lam r * 0.50 /\ extras = []).
Proof.
  intros H Hne.
  assert (E : String.eqb (ant_type i) "Yagi-Uda beam" = false)
    by now apply String.eqb_neq.
  pose proof (calculate_antenna_simple i H E) as Hc. cbv zeta in Hc.
  pose proof (proj1 (freqToHz_sign (ant_freq_val i) (ant_freq_unit i)) H) as H'.
  set (lam := 299792458 / freqToHz (ant_freq_val i) (ant_freq_unit i)) in *.
  assert (Hlam : 0 < lam) by (unfold lam; apply Rdiv_lt_0_compat; lra).
  pose proof (velocityFactor_range (ant_material i)) as Hvf.
  set (vf := velocityFactor (ant_material i)) in *.
  pose proof (mults_range (ant_type i)) as Hm.
  set (mult := dict_get_default mults (ant_type i) 0.50) in *.
  assert (Hideal : 0 < lam * mult) by (apply Rmult_lt_0_compat; lra).
  do 4 eexists. split; [exact Hc|]. cbn [ant_body ant_lam ant_vf].
  split; [reflexivity|]. split; [nra|]. split; [reflexivity|]. split; [nra|].
  split; [|split; [|split]].
  - intros Ht. unfold mult. rewrite Ht. split; [reflexivity|].
    cbn. reflexivity.
  - intros Ht. unfold mult. rewrite Ht. split; [reflexivity|].
    do 2 eexists. split; [cbn; reflexivity|]. cbn. lra.
  - intros Ht. unfold mult. rewrite Ht. split; [reflexivity|].
    eexists. split; [cbn; reflexivity|]. cbn. lra.
  - intros Hn. pose proof (eqb_false_not_in _ _ Hn) as Hf.
    assert (Hk : forall s, In s (keys mults) ->
                 String.eqb s (ant_type i) = false
                 /\ String.eqb (ant_type i) s = false) by exact Hf.
    unfold mult, dict_get_default, dict_get, mults. cbn [find fst].
    cbn [keys mults map fst] in Hk.
    rewrite (proj1 (Hk "Quarter-wave ground plane"%string ltac:(cbn; auto 10))).
    rewrite (proj1 (Hk "Half-wave dipole"%string ltac:(cbn; auto 10))).
    rewrite (proj1 (Hk "Five-eighths-wave vertical"%string ltac:(cbn; auto 10))).
    rewrite (proj1 (Hk "Full-wave loop"%string ltac:(cbn; auto 10))).
    rewrite (proj1 (Hk "J-pole (basic)"%string ltac:(cbn; auto 10))).
    rewrite (proj1 (Hk "End-fed half-wave (basic)"%string ltac:(cbn; auto 10))).
    rewrite (proj2 (Hk "Quarter-wave ground plane"%string ltac:(cbn; auto 10))).
    rewrite (proj2 (Hk "J-pole (basic)"%string ltac:(cbn; auto 10))).
    rewrite (proj2 (Hk "End-fed half-wave (basic)"%string ltac:(cbn; auto 10))).
    cbn. split; reflexivity.
Qed.

Lemma simple_antenna_lengths_witness :
  exists r ideal adj extras,
    calculate_antenna (mkAntennaInput 146.52 "MHz" "J-pole (basic)" "Copper" 3) = OK r
    /\ ant_body r = SimpleBody ideal adj extras
    /\ ideal = ant_lam r * 0.75
    /\ exists half quarter,
         extras = [JPoleElements half quarter] /\ half + quarter = adj.
Proof.
  destruct (simple_antenna_lengths
              (mkAntennaInput 146.52 "MHz" "J-pole (basic)" "Copper" 3))
    as (r & ideal & adj & extras & Hr & Hb & _ & _ & _ & _ & HJ & _).
  - cbn. lra.
  - cbn. discriminate.
  - exists r, ideal, adj, extras. split; [exact Hr|]. split; [exact Hb|].
    apply HJ. reflexivity.
Defined.

(* ================================================================= *)
(** ** Radiation patterns *)

Lemma py_pow_unit b e : 0 <= b <= 1 -> 0 < e -> 0 <= py_pow b e <= 1.
Proof.
  intros [Hb0 Hb1] He. unfold py_pow.
  destruct (Req_dec b 0) as [-> | Hne].
  - rewrite Reqb_true by reflexivity. lra.
  - rewrite Reqb_false by exact Hne.
    assert (Hb : 0 < b) by lra.
    unfold Rpower. split; [left; apply exp_pos|].
    rewrite <- exp_0.
    assert (Hln : ln b <= 0).
    { destruct Hb1 as [Hlt | ->]; [|rewrite ln_1; lra].
      left. rewrite <- ln_1. now apply ln_increasing. }
    assert (Hle : e * ln b <= 0).
    { replace 0 with (e * 0) by lra. apply Rmult_le_compat_l; lra. }
    destruct Hle as [Hlt | ->]; [left; now apply exp_increasing | right; reflexivity].
Qed.

Lemma py_pow_0 e : py_pow 0 e = 0.
Proof. unfold py_pow. now rewrite Reqb_true. Qed.

Lemma py_pow_1 e : py_pow 1 e = 1.
Proof.
  unfold py_pow. rewrite Reqb_false by lra.
  unfold Rpower. rewrite ln_1, Rmult_0_r. apply exp_0.
Qed.

Lemma pattern_radius_unit typ th : 0 <= pattern_radius typ th <= 1.
Proof.
  unfold pattern_radius.
  assert (Hs : 0 <= Rabs (sin th) <= 1).
  { split; [apply Rabs_pos|]. apply Rabs_le. apply SIN_bound. }
  destruct (String.eqb typ "Half-wave dipole"); [exact Hs|].
  destruct (String.eqb typ "Quarter-wave vertical").
  { apply py_pow_unit; [exact Hs | lra]. }
  rewrite !py_max_Rmax, neg_cos. replace 0.0 with 0 by lra.
  pose proof (COS_bound th) as [Hc1 Hc2].
  destruct (Rle_dec 0 (cos th)) as [Hpos | Hneg].
  - rewrite (Rmax_right 0 (cos th)) by exact Hpos.
    rewrite (Rmax_left 0 (- cos th)) by lra. rewrite py_pow_0.
    pose proof (py_pow_unit (cos th) 3 ltac:(lra) ltac:(lra)). lra.
  - rewrite (Rmax_left 0 (cos th)) by lra. rewrite py_pow_0.
    rewrite (Rmax_right 0 (- cos th)) by lra.
    pose proof (py_pow_unit (- cos th) 1.5 ltac:(lra) ltac:(lra)). lra.
Qed.

(** X26. The plotted patterns are normalised: each of the 721 radii of
    every pattern type lies in [0, 1].  The dipole has its nulls at 0 and
    180 degrees and its maximum 1 at 90 degrees; the Yagi-Uda pattern (the
    one used for every other type name) is 1 straight ahead and 0.3
    straight behind. *)
Theorem pattern_normalized :
  (forall typ,
      List.length (pattern_radii typ) = 721%nat
      /\ Forall (fun r => 0 <= r <= 1) (pattern_radii typ))
  /\ (forall typ th, 0 <= pattern_radius typ th <= 1)
  /\ (pattern_radius "Half-wave dipole" 0 = 0
      /\ pattern_radius "Half-wave dipole" PI = 0
      /\ pattern_radius "Half-wave dipole" (PI / 2) = 1)
  /\ (pattern_radius "Yagi-Uda beam" 0 = 1
      /\ pattern_radius "Yagi-Uda beam" PI = 0.3).
Proof.
  split; [|split; [exact pattern_radius_unit|split]].
  - intros typ. unfold pattern_radii, pattern_angles. split.
    + now rewrite !length_map, length_seq.
    + apply Forall_forall. intros r Hr. apply in_map_iff in Hr as (th & <- & _).
      apply pattern_radius_unit.
  - assert (E : forall th, pattern_radius "Half-wave dipole" th = Rabs (sin th))
      by reflexivity.
    rewrite !E, sin_0, sin_PI, sin_PI2, Rabs_R0, Rabs_R1. auto.
  - assert (E : forall th, pattern_radius "Yagi-Uda beam" th
                = py_pow (py_max 0.0 (cos th)) 3
                  + py_pow (py_max 0.0 (cos (th + PI))) 1.5 * 0.3)
      by reflexivity.
    rewrite !E, !py_max_Rmax, !neg_cos, cos_0, cos_PI.
    replace 0.0 with 0 by lra. replace (- -1) with 1 by lra.
    rewrite (Rmax_right 0 1), (Rmax_left 0 (-1)), (Rmax_left 0 (Ropp 1)) by lra.
    rewrite !py_pow_0, !py_pow_1. split; lra.
Qed.

(* ================================================================= *)
(** ** Conjugate loads *)

(** X27. Changing the sign of the load reactance conjugates gamma and
    leaves its magnitude and the SWR unchanged. *)
Theorem conjugate_load_same_swr (R_ X Z0 : R) :
  R_ + Z0 <> 0 \/ X <> 0 ->
  exists g g' s,
    smith_reflection R_ X Z0 = OK (g, c_abs g, s)
    /\ smith_reflection R_ (- X) Z0 = OK (g', c_abs g, s)
    /\ re g' = re g /\ im g' = - im g.
Proof.
  intros H.
  assert (H' : R_ + Z0 <> 0 \/ - X <> 0) by (destruct H; [left | right]; lra).
  destruct (smith_reflection_ok R_ X Z0 H) as (g & Hg & Hr).
  destruct (smith_reflection_ok R_ (- X) Z0 H') as (g' & Hg' & Hr').
  destruct (gamma_magnitude _ _ _ _ Hg) as [Hn Habs].
  destruct (gamma_magnitude _ _ _ _ Hg') as [_ Habs'].
  assert (Eabs : c_abs g' = c_abs g).
  { rewrite Habs, Habs'. f_equal. f_equal; ring. }
  rewrite Eabs in Hr'.
  exists g, g', (swr_of (c_abs g)). split; [exact Hr|]. split; [exact Hr'|].
  rewrite c_div_ok in Hg by exact H. rewrite c_div_ok in Hg' by exact H'.
  cbn [re im] in Hg, Hg'. apply OK_inj in Hg, Hg'. subst g g'. cbn [re im].
  split; field; lra.
Qed.

Lemma conjugate_load_same_swr_witness :
  exists g g' s,
    smith_reflection 30 40 50 = OK (g, c_abs g, s)
    /\ smith_reflection 30 (- 40) 50 = OK (g', c_abs g, s)
    /\ re g' = re g /\ im g' = - im g.
Proof. apply (conjugate_load_same_swr 30 40 50). left. lra. Defined.

(* ================================================================= *)
(** ** The stage table of the Friis tab *)

Lemma renumber_numbers i tree :
  map (fun it => row_number (snd it)) (renumber i tree)
  = map (fun k => (i + Z.of_nat k)%Z) (seq 0 (List.length tree)).
Proof.
  revert i. induction tree as [|[item row] rest IH]; intros i.
  - reflexivity.
  - cbn [renumber map List.length seq snd row_number]. f_equal.
    + lia.
    + rewrite IH, <- seq_shift, map_map. apply map_ext. intros k. lia.
Qed.

Lemma renumber_stages i tree :
  map (fun it => row_stage (snd it)) (renumber i tree)
  = map (fun it => row_stage (snd it)) tree.
Proof.
  revert i. induction tree as [|[item row] rest IH]; intros i.
  - reflexivity.
  - cbn [renumber map snd row_stage]. now rewrite IH.
Qed.

Lemma renumber_items i tree : map fst (renumber i tree) = map fst tree.
Proof.
  revert i. induction tree as [|[item row] rest IH]; intros i.
  - reflexivity.
  - cbn [renumber map fst]. now rewrite IH.
Qed.

Lemma filter_all_selected (sel : list nat) (tree : list (nat * StageRow)) :
  (forall it, In it tree -> In (fst it) sel) ->
  filter (fun it => negb (existsb (Nat.eqb (fst it)) sel)) tree = [].
Proof.
  induction tree as [|it rest IH]; intros Hall; [reflexivity|].
  cbn [filter].
  assert (Ht : existsb (Nat.eqb (fst it)) sel = true).
  { apply existsb_exists. exists (fst it).
    split; [apply Hall; now left | apply Nat.eqb_refl]. }
  rewrite Ht. cbn [negb]. apply IH. intros it' Hin. apply Hall. now right.
Qed.

(** X28. The stage table keeps its rows numbered 1..n: adding a stage to a
    well-numbered table appends the stage of the entry fields as row
    n + 1; removing any selection leaves a well-numbered table whose
    stages are the unselected ones in their old order; and after clearing
    the table, or removing every row, the cascade fails with "Add at least
    one stage.". *)
Theorem friis_table_numbering :
  (forall tab, well_numbered tab ->
     well_numbered (add_friis_stage tab)
     /\ friis_stages (add_friis_stage tab)
        = friis_stages tab
          ++ [mkStage (stage_gain tab) (stage_nf tab) (stage_temp tab)
                      (stage_use_temp tab)])
  /\ (forall sel tab,
        well_numbered (remove_friis_stage sel tab)
        /\ friis_stages (remove_friis_stage sel tab)
           = map (fun it => row_stage (snd it))
                 (filter (fun it => negb (existsb (Nat.eqb (fst it)) sel))
                         (friis_tree tab))
        /\ (forall item, In item (map fst (friis_tree (remove_friis_stage sel tab)))
              <-> In item (map fst (friis_tree tab)) /\ ~ In item sel))
  /\ (forall tab, calculate_friis (friis_stages (clear_friis_stages tab))
                  = Err (ValueError "Add at least one stage."))
  /\ (forall tab,
        calculate_friis
          (friis_stages (remove_friis_stage (map fst (friis_tree tab)) tab))
        = Err (ValueError "Add at least one stage.")).
Proof.
  split; [|split; [|split]].
  - intros tab Hw. unfold well_numbered, stage_numbers, friis_stages in *.
    cbn [add_friis_stage friis_tree]. split.
    + rewrite map_app, length_app, Hw. cbn [List.length map snd row_number].
      rewrite Nat.add_1_r, seq_S, map_app. cbn [map Nat.add].
      f_equal. f_equal. lia.
    + rewrite map_app. reflexivity.
  - intros sel tab. unfold well_numbered, stage_numbers, friis_stages.
    cbn [remove_friis_stage friis_tree].
    set (kept := filter _ (friis_tree tab)).
    split; [|split].
    + rewrite renumber_numbers. f_equal. f_equal.
      rewrite <- (length_map fst (renumber 1 kept)), renumber_items.
      now rewrite length_map.
    + apply renumber_stages.
    + intros item. rewrite renumber_items. unfold kept.
      rewrite !in_map_iff. split.
      * intros ([it row] & <- & Hin). apply filter_In in Hin as [Hin Hsel].
        split; [exists (it, row); auto|]. cbn [fst] in *.
        intros Hs. apply negb_true_iff in Hsel.
        assert (Ht : existsb (Nat.eqb it) sel = true).
        { apply existsb_exists. exists it. split; [exact Hs | apply Nat.eqb_refl]. }
        congruence.
      * intros [([it row] & <- & Hin) Hsel]. exists (it, row). split; [reflexivity|].
        apply filter_In. split; [exact Hin|]. cbn [fst] in *.
        apply negb_true_iff. destruct (existsb (Nat.eqb it) sel) eqn:E; [|reflexivity].
        apply existsb_exists in E as (x & Hx & Ex). apply Nat.eqb_eq in Ex. subst x.
        contradiction.
  - intros tab. reflexivity.
  - intros tab. unfold friis_stages. cbn [remove_friis_stage friis_tree].
    assert (E : filter (fun it : nat * StageRow =>
                          negb (existsb (Nat.eqb (fst it)) (map fst (friis_tree tab))))
                       (friis_tree tab) = []).
    { apply filter_all_selected. intros it Hin. now apply in_map. }
    rewrite E. reflexivity.
Qed.

Lemma friis_table_numbering_witness :
  well_numbered
    (add_friis_stage (add_friis_stage (mkFriisTab [] 0 10 2 290 false)))
  /\ friis_stages
       (add_friis_stage (add_friis_stage (mkFriisTab [] 0 10 2 290 false)))
     = [mkStage 10 2 290 false; mkStage 10 2 290 false].
Proof.
  assert (H0 : well_numbered (mkFriisTab [] 0 10 2 290 false)) by reflexivity.
  destruct (proj1 friis_table_numbering _ H0) as [H1 E1].
  destruct (proj1 friis_table_numbering _ H1) as [H2 E2].
  split; [exact H2|]. rewrite E2, E1. reflexivity.
Defined.

(* ================================================================= *)
(** ** The reflection step at the reference load, in binary64 *)

Import PrimFloat.

(** The quotient (25 - 50) / (25 + 50) is not a binary64 number: the
    division rounds it to 0x1.5555555555555p-2, printed
    0.3333333333333333, and the SWR computed from that magnitude is
    0x1.fffffffffffffp+0, printed 1.9999999999999998: the number next
    below 2.0, not 2.0. *)
Lemma reflection_swr_exact_counterexample :
  smith_reflection64 25%float 0%float 50%float
  = Reported (mkComplex64 (-0x1.5555555555555p-2)%float 0%float)
             0x1.5555555555555p-2%float 0x1.fffffffffffffp+0%float
  /\ PrimFloat.eqb 0x1.fffffffffffffp+0%float 2%float = false
  /\ PrimFloat.ltb 0x1.fffffffffffffp+0%float 2%float = true
  /\ ~ (exists g, smith_reflection64 25%float 0%float 50%float
                  = Reported g (PrimFloat.div 1%float 3%float) 2%float).
Proof.
  split; [vm_compute; reflexivity|].
  split; [vm_compute; reflexivity|].
  split; [vm_compute; reflexivity|].
  intros (g & H). vm_compute in H. discriminate H.
Qed.

(** C5, amended. Whenever R + jX + Z0 is not zero the reflection
    coefficient is the complex quotient gamma = (R + jX - Z0) / (R + jX + Z0),
    the SWR is (1 + |gamma|) / (1 - |gamma|) when |gamma| < 1 and the
    infinite sentinel (a value, not an error) when |gamma| >= 1, and these
    are the values that [calculate_smith] reports.  For R = 25, X = 0,
    Z0 = 50 the binary64 program reports gamma = -0.3333333333333333,
    |gamma| = 0.3333333333333333 (the binary64 number nearest to 1/3) and
    SWR = 1.9999999999999998, which is 2^-52 below 2.0. *)
Theorem reflection_swr_spec :
  (forall R_ X Z0, (R_ + Z0 <> 0 \/ X <> 0)%R ->
     exists g,
       c_div (mkComplex (R_ - Z0) X) (mkComplex (R_ + Z0) X) = OK g
       /\ c_mul g (mkComplex (R_ + Z0) X) = mkComplex (R_ - Z0) X
       /\ ((c_abs g < 1)%R ->
           smith_reflection R_ X Z0
           = OK (g, c_abs g, Finite ((1 + c_abs g) / (1 - c_abs g))))
       /\ ((1 <= c_abs g)%R ->
           smith_reflection R_ X Z0 = OK (g, c_abs g, Infinity))
       /\ (forall f m,
             suggest_l_match R_ X Z0 f = OK m ->
             calculate_smith R_ X Z0 f
             = OK (mkSmith g (c_abs g) (swr_of (c_abs g)) m)))
  /\ (exists mag swr,
        smith_reflection64 25%float 0%float 50%float
        = Reported (mkComplex64 (PrimFloat.opp mag) 0%float) mag swr
        /\ mag = PrimFloat.div 1%float 3%float
        /\ mag = 0x1.5555555555555p-2%float
        /\ swr = 0x1.fffffffffffffp+0%float
        /\ PrimFloat.sub 2%float swr = 0x1p-52%float).
Proof.
  split.
  - intros R_ X Z0 H.
    destruct (smith_reflection_ok R_ X Z0 H) as (g & Hg & Hr).
    exists g. split; [exact Hg|]. split; [exact (c_div_mul _ _ _ Hg)|].
    split; [|split].
    + intros Hm. rewrite Hr. unfold swr_of. now rewrite (Rltb_true _ _ Hm).
    + intros Hm. rewrite Hr. unfold swr_of. now rewrite (Rltb_false _ _ Hm).
    + intros f m Hmatch.
      rewrite (calculate_smith_bind _ _ _ f _ _ _ Hr). now rewrite Hmatch.
  - exists 0x1.5555555555555p-2%float, 0x1.fffffffffffffp+0%float.
    repeat split; vm_compute; reflexivity.
Qed.

Lemma reflection_swr_spec_witness :
  smith_reflection 0 0 50 = OK (mkComplex (-1) 0, 1%R, Infinity).
Proof.
  destruct (proj1 reflection_swr_spec 0%R 0%R 50%R) as (g & Hg & _ & _ & Hinf & _);
    [left; lra|].
  rewrite c_div_ok in Hg by (left; cbn; lra). cbn [re im] in Hg.
  apply OK_inj in Hg.
  assert (Eg : g = mkComplex (-1) 0) by (rewrite <- Hg; f_equal; field).
  assert (Eabs : c_abs g = 1%R).
  { rewrite Eg. unfold c_abs. cbn [re im].
    replace (-1 * -1 + 0 * 0)%R with 1%R by lra. apply sqrt_1. }
  rewrite Hinf by lra. now rewrite Eabs, Eg.
Defined.
